(** * template_agent: a verification development

    A shallow embedding of the pure text transforms, the audio helpers and
    the orchestration code of [template_agent], with the properties its
    specification states about them.

    Python [str] values are modelled as lists of code points below 256
    (type [ascii], read as Latin-1); [bytes] values as lists of [byte];
    Python [int] as [Z]; Python [float] as IEEE-754 values ([spec_float]). *)

From Stdlib Require Import ZArith String Ascii List Bool Lia.
From Stdlib Require Import Strings.Byte DecimalString SpecFloat.
Import ListNotations.

Set Implicit Arguments.

(* ================================================================== *)
(** * Python strings *)
(* ================================================================== *)

Module PyStr.

Definition str := list ascii.

(** String literals of the source. *)
Definition lit (s : string) : str := list_ascii_of_string s.

Definition code (c : ascii) : N := N_of_ascii c.

Definition between (lo hi : N) (c : ascii) : bool :=
  ((lo <=? code c) && (code c <=? hi))%N.

(** [str.isspace] on one code point below 256: TAB..CR, FS..US, SPACE,
    NEL (0x85) and NBSP (0xA0). *)
Definition isspace (c : ascii) : bool :=
  between 9 13 c || between 28 32 c || (code c =? 133)%N || (code c =? 160)%N.

(** The class [\w] of [re] on [str] patterns: [str.isalnum] or underscore. *)
Definition isword (c : ascii) : bool :=
  between 48 57 c || between 65 90 c || (code c =? 95)%N || between 97 122 c
  || (code c =? 170)%N || between 178 179 c || (code c =? 181)%N
  || between 185 186 c || between 188 190 c
  || between 192 214 c || between 216 246 c || between 248 255 c.

(** [str.lower] on one code point below 256. *)
Definition lower_char (c : ascii) : ascii :=
  if between 65 90 c || between 192 214 c || between 216 222 c
  then ascii_of_N (code c + 32) else c.

Definition lower (s : str) : str := map lower_char s.

Definition ascii_eqb (a b : ascii) : bool := Ascii.eqb a b.

Fixpoint str_eqb (a b : str) : bool :=
  match a, b with
  | [], [] => true
  | x :: a', y :: b' => ascii_eqb x y && str_eqb a' b'
  | _, _ => false
  end.

(** [s.startswith(p)] *)
Fixpoint startswith (p s : str) : bool :=
  match p, s with
  | [], _ => true
  | x :: p', y :: s' => ascii_eqb x y && startswith p' s'
  | _ :: _, [] => false
  end.

(** [s.endswith(p)] *)
Definition endswith (p s : str) : bool := startswith (rev p) (rev s).

(** [s.removeprefix(p)] *)
Definition removeprefix (p s : str) : str :=
  if startswith p s then skipn (length p) s else s.

(** Drop the longest prefix of characters satisfying [f]. *)
Fixpoint lstrip_by (f : ascii -> bool) (s : str) : str :=
  match s with
  | [] => []
  | c :: s' => if f c then lstrip_by f s' else s
  end.

Definition rstrip_by (f : ascii -> bool) (s : str) : str :=
  rev (lstrip_by f (rev s)).

Definition strip_by (f : ascii -> bool) (s : str) : str :=
  rstrip_by f (lstrip_by f s).

Definition all_in (f : ascii -> bool) (s : str) : Prop := Forall (fun c => f c = true) s.
Definition none_in (f : ascii -> bool) (s : str) : Prop := Forall (fun c => f c = false) s.

(** [s.strip()] *)
Definition strip (s : str) : str := strip_by isspace s.

(** [s.strip(chars)] *)
Definition strip_chars (chars s : str) : str :=
  strip_by (fun c => existsb (ascii_eqb c) chars) s.

(** The maximal runs of characters satisfying [f], left to right.  [cur]
    holds, reversed, the run being read. *)
Definition flush (cur : str) : list str :=
  match cur with [] => [] | _ => [rev cur] end.

Fixpoint runs_aux (f : ascii -> bool) (cur : str) (s : str) : list str :=
  match s with
  | [] => flush cur
  | c :: s' =>
      if f c then runs_aux f (c :: cur) s'
      else flush cur ++ runs_aux f [] s'
  end.

Definition runs (f : ascii -> bool) (s : str) : list str := runs_aux f [] s.

(** [s.split()]: the maximal runs of non-whitespace characters. *)
Definition split (s : str) : list str := runs (fun c => negb (isspace c)) s.

(** [sep.join(parts)] *)
Fixpoint join (sep : str) (parts : list str) : str :=
  match parts with
  | [] => []
  | [p] => p
  | p :: rest => p ++ sep ++ join sep rest
  end.

(** [s[:n]] for [n >= 0] *)
Definition slice_to (n : nat) (s : str) : str := firstn n s.

(** [x or default] on strings: the empty string is falsy. *)
Definition or_else (s default : str) : str :=
  match s with [] => default | _ => s end.

(** [str(n)] for an [int]. *)
Definition str_of_int (n : Z) : str := lit (NilZero.string_of_int (Z.to_int n)).

End PyStr.

(* ================================================================== *)
(** * The fragment of [re] the source uses *)
(* ================================================================== *)

Module Re.
Import PyStr.

Definition isword_opt (c : option ascii) : bool :=
  match c with Some x => isword x | None => false end.

(** [\b] between two neighbouring positions; the outside of the text
    counts as a non-word character. *)
Definition word_boundary (before after : option ascii) : bool :=
  xorb (isword_opt before) (isword_opt after).

(** Does the pattern [\b] [word] [\b] match at the head of [s], the
    character before [s] being [prev]? *)
Definition matches_at (word : str) (prev : option ascii) (s : str) : bool :=
  word_boundary prev (hd_error s)
  && startswith word s
  && word_boundary (hd_error (rev word ++ match prev with Some p => [p] | None => [] end))
                   (hd_error (skipn (length word) s)).

(** [re.sub(r"\bword\b", repl, s)] for a non-empty literal [word] and a
    replacement without escapes: scan left to right; at a match emit
    [repl] and resume after the matched text ([skip] counts the
    characters of a match still to be passed over). *)
Fixpoint sub_scan (word repl : str) (prev : option ascii) (skip : nat) (s : str) : str :=
  match s with
  | [] => []
  | c :: s' =>
      match skip with
      | S k => sub_scan word repl (Some c) k s'
      | O =>
          if matches_at word prev s
          then repl ++ sub_scan word repl (Some c) (length word - 1) s'
          else c :: sub_scan word repl (Some c) 0 s'
      end
  end.

Definition sub_word (word repl : str) (s : str) : str :=
  sub_scan word repl None 0 s.

(** The words of a text: its maximal runs of [\w] characters. *)
Definition words (s : str) : list str := runs isword s.

(** A text that is empty or begins with a character that is not a word
    character: what may follow a whole word. *)
Definition sep_start (rest : str) : Prop :=
  match rest with [] => True | c :: _ => isword c = false end.

(** The character before the position reached after reading [u]. *)
Definition prev_after (prev : option ascii) (u : str) : option ascii :=
  fold_left (fun _ c => Some c) u prev.

(** Is there a match of [\b] [word] [\b] somewhere in [s]? *)
Fixpoint search_scan (word : str) (prev : option ascii) (s : str) : bool :=
  match s with
  | [] => false
  | c :: s' => matches_at word prev s || search_scan word (Some c) s'
  end.

Definition search_word (word : str) (s : str) : bool := search_scan word None s.

(** A character that stands for itself in a pattern. *)
Definition is_literal (c : ascii) : bool :=
  between 48 57 c || between 65 90 c || between 97 122 c.

(** The patterns of the source have the shape [\b] literal [\b]:
    [word_pattern] reads the literal off such a pattern. *)
Definition word_pattern (pattern : str) : option str :=
  if startswith (lit "\b") pattern then
    let body := removeprefix (lit "\b") pattern in
    if endswith (lit "\b") body then
      let word := firstn (length body - 2) body in
      match word with
      | [] => None
      | _ => if forallb is_literal word then Some word else None
      end
    else None
  else None.

(** A replacement without backslash stands for itself. *)
Definition plain_replacement (repl : str) : bool :=
  negb (existsb (ascii_eqb "\"%char) repl).

(** [re.sub(pattern, repl, s)] for a pattern [\b] literal [\b] and a
    replacement without backslash, the fragment the source uses.  On
    anything else the model is silent and hands the text back. *)
Definition sub (pattern repl s : str) : str :=
  match word_pattern pattern with
  | Some word => if plain_replacement repl then sub_word word repl s else s
  | None => s
  end.

(** [re.search(pattern, s) is not None], on the same fragment. *)
Definition search (pattern s : str) : bool :=
  match word_pattern pattern with
  | Some word => search_word word s
  | None => false
  end.

End Re.

(* ================================================================== *)
(** * audio_utils.py: the pure text functions *)
(* ================================================================== *)

Module AudioText.
Import PyStr.

(** The table of [_apply_pronunciation_hints]. *)
Definition substitutions : list (str * str) :=
  [ (lit "\bCENTCOM\b", lit "SENT-kom");
    (lit "\bNATO\b", lit "NAY-toh");
    (lit "\bFEMA\b", lit "FEE-muh");
    (lit "\bCISA\b", lit "SIZ-uh");
    (lit "\bDHS\b", lit "D H S");
    (lit "\bTSA\b", lit "T S A");
    (lit "\bFAA\b", lit "F A A");
    (lit "\bEPA\b", lit "E P A");
    (lit "\bDOJ\b", lit "D O J");
    (lit "\bFBI\b", lit "F B I");
    (lit "\bNTSB\b", lit "N T S B");
    (lit "\bCBP\b", lit "C B P");
    (lit "\bICE\b", lit "I C E") ].

(** The loop [for pattern, replacement in substitutions]. *)
Definition apply_substitutions (table : list (str * str)) (text : str) : str :=
  fold_left (fun updated entry => Re.sub (fst entry) (snd entry) updated) table text.

(** [" ".join(updated.split())] *)
Definition collapse_whitespace (s : str) : str := join (lit " ") (split s).

Definition _apply_pronunciation_hints (text : str) : str :=
  let updated := apply_substitutions substitutions text in
  collapse_whitespace updated.

(** [_normalize_bunny_storage_host], up to the value of [cleaned] that
    the three final branches inspect. *)
Definition cleaned_region_of_stripped (cleaned : str) : str :=
  let cleaned :=
    if startswith (lit "https://") cleaned then removeprefix (lit "https://") cleaned
    else if startswith (lit "http://") cleaned then removeprefix (lit "http://") cleaned
    else cleaned in
  strip_chars (lit "/") cleaned.

Definition cleaned_region (region : str) : str :=
  let cleaned := strip region in
  cleaned_region_of_stripped cleaned.

Definition _normalize_bunny_storage_host (region : str) : str :=
  let cleaned := cleaned_region region in
  match cleaned with
  | [] => lit "storage.bunnycdn.com"
  | _ =>
      if endswith (lit ".bunnycdn.com") cleaned then cleaned
      else cleaned ++ lit ".storage.bunnycdn.com"
  end.

(** [upload_bytes_to_bunny_storage]: the normalisation of [object_path],
    ["/".join(segment for segment in object_path.split("/") if segment)]. *)
Fixpoint split_on (sep : ascii) (cur : str) (s : str) : list str :=
  match s with
  | [] => [rev cur]
  | c :: s' => if ascii_eqb c sep then rev cur :: split_on sep [] s'
               else split_on sep (c :: cur) s'
  end.

Definition normalize_object_path (object_path : str) : str :=
  join (lit "/")
    (filter (fun seg => negb (str_eqb seg [])) (split_on "/"%char [] object_path)).

End AudioText.

(* ================================================================== *)
(** * models.py *)
(* ================================================================== *)

Module Models.
Import PyStr.

Definition STORY_COUNT : nat := 3.

Module StoryIdea.
Record t := make { headline : str; angle : str }.
End StoryIdea.

Module StoryPlan.
Record t := make { topic : str; stories : list StoryIdea.t }.
End StoryPlan.

Module WrittenStory.
Record t := make { index : Z; headline : str; story : str }.
End WrittenStory.

Module WrittenStories.
Record t := make { topic : str; stories : list WrittenStory.t }.
End WrittenStories.

(** [Field(min_length=STORY_COUNT, max_length=STORY_COUNT)] *)
Definition length_ok {A} (l : list A) : bool :=
  (STORY_COUNT <=? length l)%nat && (length l <=? STORY_COUNT)%nat.

(** Values as [model_dump()] hands them to [json.dumps]. *)
#[local] Unset Elimination Schemes.
Inductive json :=
| JStr (s : str)
| JInt (n : Z)
| JList (items : list json)
| JObj (fields : list (str * json)).
#[local] Set Elimination Schemes.

Definition dump_idea (i : StoryIdea.t) : json :=
  JObj [ (lit "headline", JStr (StoryIdea.headline i));
         (lit "angle", JStr (StoryIdea.angle i)) ].

Definition dump_plan (p : StoryPlan.t) : json :=
  JObj [ (lit "topic", JStr (StoryPlan.topic p));
         (lit "stories", JList (map dump_idea (StoryPlan.stories p))) ].

Definition dump_story (w : WrittenStory.t) : json :=
  JObj [ (lit "index", JInt (WrittenStory.index w));
         (lit "headline", JStr (WrittenStory.headline w));
         (lit "story", JStr (WrittenStory.story w)) ].

Definition dump_written (w : WrittenStories.t) : json :=
  JObj [ (lit "topic", JStr (WrittenStories.topic w));
         (lit "stories", JList (map dump_story (WrittenStories.stories w))) ].

End Models.

(* ================================================================== *)
(** * [datetime] values and the one [strftime] format of the source *)
(* ================================================================== *)

Module DateTime.
Import PyStr.
Local Open Scope Z_scope.

Record datetime := make {
  year : Z; month : Z; day : Z;
  hour : Z; minute : Z; second : Z; microsecond : Z }.

Definition is_leap (y : Z) : bool :=
  (y mod 4 =? 0) && (negb (y mod 100 =? 0) || (y mod 400 =? 0)).

Definition days_in_month (y m : Z) : Z :=
  if m =? 2 then (if is_leap y then 29 else 28)
  else if (m =? 4) || (m =? 6) || (m =? 9) || (m =? 11) then 30 else 31.

(** The field ranges [datetime] enforces, for a year of four digits
    (the years for which [%Y] prints exactly four digits everywhere). *)
Definition valid (d : datetime) : Prop :=
  1000 <= year d <= 9999 /\ 1 <= month d <= 12 /\
  1 <= day d <= days_in_month (year d) (month d) /\
  0 <= hour d <= 23 /\ 0 <= minute d <= 59 /\ 0 <= second d <= 59 /\
  0 <= microsecond d <= 999999.

Definition days_before_year (y : Z) : Z :=
  (y - 1) * 365 + (y - 1) / 4 - (y - 1) / 100 + (y - 1) / 400.

Fixpoint days_before_month_from (y : Z) (m : nat) : Z :=
  match m with
  | O => 0
  | S k => days_before_month_from y k + days_in_month y (Z.of_nat m)
  end.

Definition toordinal (d : datetime) : Z :=
  days_before_year (year d)
  + days_before_month_from (year d) (Z.to_nat (month d - 1))
  + day d.

(** The instant a [datetime] in UTC denotes, in microseconds since the
    start of day 0 of the proleptic calendar; [a - b] on two datetimes
    is the difference of these. *)
Definition to_microseconds (d : datetime) : Z :=
  (((toordinal d * 24 + hour d) * 60 + minute d) * 60 + second d) * 1000000
  + microsecond d.

Definition digit (n : Z) : ascii := ascii_of_N (48 + Z.to_N (n mod 10)).

Definition pad2 (n : Z) : str := [digit (n / 10); digit n].
Definition pad4 (n : Z) : str := [digit (n / 1000); digit (n / 100); digit (n / 10); digit n].

Definition directive (d : ascii) (t : datetime) : str :=
  if ascii_eqb d "Y" then pad4 (year t)
  else if ascii_eqb d "m" then pad2 (month t)
  else if ascii_eqb d "d" then pad2 (day t)
  else if ascii_eqb d "H" then pad2 (hour t)
  else if ascii_eqb d "M" then pad2 (minute t)
  else if ascii_eqb d "S" then pad2 (second t)
  else ["%"%char; d].

(** [t.strftime(fmt)] for the directives [%Y %m %d %H %M %S]. *)
Fixpoint strftime (fmt : str) (t : datetime) : str :=
  match fmt with
  | [] => []
  | c :: rest =>
      if ascii_eqb c "%"
      then match rest with
           | d :: rest' => directive d t ++ strftime rest' t
           | [] => [c]
           end
      else c :: strftime rest t
  end.

End DateTime.

(* ================================================================== *)
(** * Effects: the outside world, exceptions and the trace of effects *)
(* ================================================================== *)

Module Effects.
Import PyStr Models DateTime.

Definition bytes := list byte.

Inductive exn :=
| ValueError (msg : str)
| HTTPError
| CalledProcessError
| OSError
| AgentRunError.

Inductive result (A : Type) :=
| Ok (a : A)
| Raise (e : exn).
Arguments Ok {A} a.
Arguments Raise {A} e.

(** The body of the request [synthesize_cartesia_tts] posts. *)
Record tts_request := TtsRequest {
  tts_api_version : str; tts_api_key : str; tts_model_id : str;
  tts_transcript : str; tts_voice_id : str; tts_volume : spec_float }.

(** What [build_agent] configures and [run_sync] sends. *)
Record agent_call := AgentCall {
  agent_model : str; agent_provider : str; agent_key : str;
  agent_system_prompt : str; agent_prompt : str }.

(** Every effect on the outside world, in the order it happens. *)
Inductive event :=
| EvPost (url : str) (req : tts_request)
| EvPut (url : str) (access_key content_type : str) (data : bytes)
| EvTempDir
| EvTempDirCleanup (dir : str)
| EvRun (cmd : list str)
| EvWriteBytes (path : str) (data : bytes)
| EvWriteText (path : str) (text : str)
| EvReadBytes (path : str)
| EvMkdir (path : str)
| EvNow
| EvSetEnv (name value : str)
| EvAgentRun (call : agent_call).

(** The libraries and services the code relies on.  The pure members
    are library functions; the others answer from, and change, the
    state of the outside world. *)
Class Environment (World : Type) := {
  (** [str(Path(a) / b)] *)
  joinpath : str -> str -> str;
  (** [Path(a).name] *)
  path_name : str -> str;
  (** [str(x)] for a float *)
  float_str : spec_float -> str;
  (** [json.dumps(v, indent=.., ensure_ascii=True)] *)
  json_dumps : option nat -> json -> str;
  (** [requests.post(..)] then [raise_for_status()] then [.content] *)
  requests_post : str -> tts_request -> World -> result bytes * World;
  (** [requests.put(..)] then [raise_for_status()] *)
  requests_put : str -> str -> str -> bytes -> World -> result unit * World;
  (** [tempfile.TemporaryDirectory()]: entering and leaving *)
  tempdir_enter : World -> result str * World;
  tempdir_cleanup : str -> World -> result unit * World;
  (** [subprocess.run(cmd, check=True, ..)] *)
  subprocess_run : list str -> World -> result unit * World;
  path_write_bytes : str -> bytes -> World -> result unit * World;
  path_write_text : str -> str -> World -> result unit * World;
  path_read_bytes : str -> World -> result bytes * World;
  (** [Path.mkdir(parents=True, exist_ok=True)] *)
  path_mkdir : str -> World -> result unit * World;
  (** [datetime.now(UTC)] *)
  datetime_now : World -> datetime * World;
  (** [os.environ[name] = value] *)
  environ_set : str -> str -> World -> World;
  (** [agent.run_sync(prompt).output] with [output_type=StoryPlan] and
      with [output_type=WrittenStories]: the payload of the backend,
      parsed into the fields of the model, before the length
      constraint of [stories] is checked. *)
  run_sync_plan : agent_call -> World -> result StoryPlan.t * World;
  run_sync_written : agent_call -> World -> result WrittenStories.t * World
}.

Section Monad.
Context {World : Type}.

Record state := State { world : World; trace : list event }.

(** A computation: from a state to an outcome and a new state. *)
Definition M (A : Type) : Type := state -> result A * state.

Definition ret {A} (a : A) : M A := fun st => (Ok a, st).

Definition raise {A} (e : exn) : M A := fun st => (Raise e, st).

Definition bind {A B} (c : M A) (k : A -> M B) : M B :=
  fun st =>
    match c st with
    | (Ok a, st') => k a st'
    | (Raise e, st') => (Raise e, st')
    end.

(** One effect: logged, then answered by the outside world. *)
Definition perform {A} (ev : event) (oracle : World -> result A * World) : M A :=
  fun st =>
    let (r, w) := oracle (world st) in
    (r, State w (trace st ++ [ev])).

Definition total {A} (f : World -> A * World) : World -> result A * World :=
  fun w => let (a, w') := f w in (Ok a, w').

Definition effect (f : World -> World) : World -> result unit * World :=
  fun w => (Ok tt, f w).

End Monad.

(** The outcome of a run, with its value seen through [f]. *)
Definition on_result {World A B} (f : A -> B) (run : result A * @state World)
    : result B * @state World :=
  match run with
  | (Ok a, st) => (Ok (f a), st)
  | (Raise e, st) => (Raise e, st)
  end.

Arguments state World : clear implicits.
Arguments M World A : clear implicits.

Declare Scope py_scope.
Delimit Scope py_scope with py.
Notation "x <- c ;; k" := (bind c (fun x => k))
  (at level 61, c at next level, right associativity) : py_scope.
Notation "c ;; k" := (bind c (fun _ => k))
  (at level 61, right associativity) : py_scope.

Section Primitives.
Context {World : Type} {env : Environment World}.
Local Open Scope py_scope.

(** [with tempfile.TemporaryDirectory() as tmpdir: body]: the directory
    is removed however the body ends, and a failure to remove it is
    raised in place of the outcome of the body. *)
Definition with_tempdir {A} (body : str -> M World A) : M World A :=
  fun st =>
    match perform EvTempDir tempdir_enter st with
    | (Raise e, st1) => (Raise e, st1)
    | (Ok dir, st1) =>
        let (r, st2) := body dir st1 in
        match perform (EvTempDirCleanup dir) (tempdir_cleanup dir) st2 with
        | (Ok _, st3) => (r, st3)
        | (Raise e, st3) => (Raise e, st3)
        end
    end.

End Primitives.

End Effects.

(* ================================================================== *)
(** * audio_utils.py: the functions with effects *)
(* ================================================================== *)

Module AudioUtils.
Import PyStr Models Effects AudioText.

(** The float literal [0.8]: 7205759403792794 * 2^-53. *)
Definition float_0_8 : spec_float := S754_finite false 7205759403792794 (-53).

(** The int [0] a float is compared with. *)
Definition float_zero : spec_float := S754_zero false.

Section WithEnvironment.
Context {World : Type} {env : Environment World}.
Local Open Scope py_scope.

Definition cartesia_url : str := lit "https://api.cartesia.ai/tts/bytes".

(** The headers and payload of the request, for the default arguments
    of [synthesize_cartesia_tts]. *)
Definition tts_request_for (cartesia_api_key prepared_transcript : str) : tts_request :=
  TtsRequest (lit "2025-04-16") cartesia_api_key (lit "sonic-3")
    prepared_transcript (lit "79f8b5fb-2cc8-479a-80df-29f7a7cf1a3e") float_0_8.

Definition synthesize_cartesia_tts (cartesia_api_key transcript : str) : M World bytes :=
  let prepared_transcript := _apply_pronunciation_hints transcript in
  let req := tts_request_for cartesia_api_key prepared_transcript in
  perform (EvPost cartesia_url req) (requests_post cartesia_url req).

Definition silence_cmd (duration_seconds : spec_float) (sample_rate : Z)
    (output_path : str) : list str :=
  [ lit "ffmpeg"; lit "-y"; lit "-f"; lit "lavfi"; lit "-i";
    lit "anullsrc=r=" ++ str_of_int sample_rate ++ lit ":cl=mono";
    lit "-t"; float_str duration_seconds;
    lit "-ar"; str_of_int sample_rate;
    lit "-ac"; lit "1";
    output_path ].

(** The [with] block of [synthesize_silence_segment]. *)
Definition silence_body (duration_seconds : spec_float) (sample_rate : Z)
    : M World bytes :=
  with_tempdir (fun tmpdir =>
    let output_path := joinpath tmpdir (lit "silence.wav") in
    let cmd := silence_cmd duration_seconds sample_rate output_path in
    perform (EvRun cmd) (subprocess_run cmd) ;;
    perform (EvReadBytes output_path) (path_read_bytes output_path)).

Definition synthesize_silence_segment (duration_seconds : spec_float)
    (sample_rate : Z) : M World bytes :=
  if SFleb duration_seconds float_zero
  then raise (ValueError (lit "duration_seconds must be greater than zero"))
  else silence_body duration_seconds sample_rate.

Definition upload_bytes_to_bunny_storage (file_bytes : bytes)
    (object_path storage_zone access_key region content_type : str) : M World str :=
  let normalized_path := normalize_object_path object_path in
  match normalized_path with
  | [] => raise (ValueError (lit "object_path must not be empty"))
  | _ =>
      let host := _normalize_bunny_storage_host region in
      let url := lit "https://" ++ host ++ lit "/" ++ storage_zone ++ lit "/"
                 ++ normalized_path in
      perform (EvPut url access_key content_type file_bytes)
              (requests_put url access_key content_type file_bytes) ;;
      ret url
  end.

(** The loop [for idx, segment in enumerate(audio_segments)]. *)
Fixpoint write_segments (base : str) (idx : nat) (segments : list bytes)
    : M World (list str) :=
  match segments with
  | [] => ret []
  | segment :: rest =>
      let segment_path :=
        joinpath base (lit "segment_" ++ str_of_int (Z.of_nat idx) ++ lit ".wav") in
      perform (EvWriteBytes segment_path segment)
              (path_write_bytes segment_path segment) ;;
      paths <- write_segments base (S idx) rest ;;
      ret (segment_path :: paths)
  end.

Definition filter_complex (n : nat) : str :=
  concat (map (fun idx => lit "[" ++ str_of_int (Z.of_nat idx) ++ lit ":a]") (seq 0 n))
  ++ lit "concat=n=" ++ str_of_int (Z.of_nat n) ++ lit ":v=0:a=1,"
  ++ lit "loudnorm=I=-16:TP=-1.5:LRA=11".

Definition concat_cmd (segment_paths : list str) (output_path : str) : list str :=
  [lit "ffmpeg"; lit "-y"]
  ++ flat_map (fun segment_path => [lit "-i"; segment_path]) segment_paths
  ++ [ lit "-filter_complex"; filter_complex (length segment_paths);
       lit "-ar"; lit "44100"; lit "-ac"; lit "1"; output_path ].

(** The [with] block of [concatenate_audio_segments]. *)
Definition concat_body (audio_segments : list bytes) (output_format : str)
    : M World bytes :=
  with_tempdir (fun base =>
    segment_paths <- write_segments base 0 audio_segments ;;
    let output_path := joinpath base (lit "concatenated." ++ output_format) in
    let cmd := concat_cmd segment_paths output_path in
    perform (EvRun cmd) (subprocess_run cmd) ;;
    perform (EvReadBytes output_path) (path_read_bytes output_path)).

Definition concatenate_audio_segments (audio_segments : list bytes)
    (output_format : str) : M World bytes :=
  if (length audio_segments <? 2)%nat
  then raise (ValueError (lit "Need at least two audio segments to concatenate"))
  else concat_body audio_segments output_format.

End WithEnvironment.
End AudioUtils.

(* ================================================================== *)
(** * agent_core.py *)
(* ================================================================== *)

Module AgentCore.
Import PyStr Models DateTime Effects.

Definition newline : str := [ascii_of_N 10].

Section WithEnvironment.
Context {World : Type} {env : Environment World}.
Local Open Scope py_scope.

(** [build_agent]: a gateway model name exports the key to the process
    environment; either way the agent carries the model, the provider,
    the key and the system prompt into [run_sync]. *)
Definition build_agent (model_name provider_name gateway_api_key system_prompt : str)
    : M World (str -> agent_call) :=
  let agent := AgentCall model_name provider_name gateway_api_key system_prompt in
  if startswith (lit "gateway/") model_name
  then perform (EvSetEnv (lit "PYDANTIC_AI_GATEWAY_API_KEY") gateway_api_key)
         (effect (environ_set (lit "PYDANTIC_AI_GATEWAY_API_KEY") gateway_api_key)) ;;
       ret agent
  else ret agent.

Definition planner_system_prompt : str :=
  lit "You are a newsroom assignment editor. "
  ++ lit "Given one topic, generate exactly " ++ str_of_int (Z.of_nat STORY_COUNT)
  ++ lit " distinct, high-quality story ideas.".

Definition planner_prompt (topic : str) : str :=
  lit "Create exactly " ++ str_of_int (Z.of_nat STORY_COUNT)
  ++ lit " story ideas for this topic." ++ newline
  ++ lit "Requirements:" ++ newline
  ++ lit "1) Keep ideas unique and non-overlapping." ++ newline
  ++ lit "2) Headline must be specific, concrete, and newsroom-style." ++ newline
  ++ lit "3) Angle is one sentence describing what makes that story worth covering."
  ++ newline
  ++ lit "4) Keep all ideas tightly related to the topic." ++ newline
  ++ lit "5) Return structured output only." ++ newline ++ newline
  ++ lit "Topic: " ++ topic.

(** The output of [run_sync] is accepted when it validates against the
    model: [stories] has exactly [STORY_COUNT] entries. *)
Definition validate_plan (out : StoryPlan.t) : M World StoryPlan.t :=
  if length_ok (StoryPlan.stories out) then ret out else raise AgentRunError.

Definition generate_story_plan (topic model_name provider_name gateway_api_key : str)
    : M World StoryPlan.t :=
  planner <- build_agent model_name provider_name gateway_api_key planner_system_prompt ;;
  let call := planner (planner_prompt topic) in
  out <- perform (EvAgentRun call) (run_sync_plan call) ;;
  validate_plan out.

Definition writer_system_prompt : str :=
  lit "You are a precise news writer. "
  ++ lit "Write clear, factual-looking sample stories from provided story ideas.".

Definition writer_prompt (plan : StoryPlan.t) : str :=
  lit "Write exactly one short news story for each idea below." ++ newline
  ++ lit "Requirements:" ++ newline
  ++ lit "1) Return exactly " ++ str_of_int (Z.of_nat STORY_COUNT)
  ++ lit " stories in the same order as the input ideas." ++ newline
  ++ lit "2) Each story should be 3 short paragraphs, plain text only." ++ newline
  ++ lit "3) Keep tone neutral and informative." ++ newline
  ++ lit "4) Do not output markdown, bullet points, or labels inside story text." ++ newline
  ++ lit "5) Use the provided headline for each corresponding story." ++ newline
  ++ lit "6) Return structured output only." ++ newline ++ newline
  ++ lit "Story plan JSON:" ++ newline ++ json_dumps None (dump_plan plan).

Definition validate_written (out : WrittenStories.t) : M World WrittenStories.t :=
  if length_ok (WrittenStories.stories out) then ret out else raise AgentRunError.

Definition write_full_stories (plan : StoryPlan.t)
    (model_name provider_name gateway_api_key : str) : M World WrittenStories.t :=
  writer <- build_agent model_name provider_name gateway_api_key writer_system_prompt ;;
  let call := writer (writer_prompt plan) in
  out <- perform (EvAgentRun call) (run_sync_written call) ;;
  validate_written out.

Definition story_lines (story : WrittenStory.t) : list str :=
  [ str_of_int (WrittenStory.index story) ++ lit ". " ++ WrittenStory.headline story;
    WrittenStory.story story;
    [] ].

Definition render_story_text (written : WrittenStories.t) : str :=
  let lines := [ lit "Topic: " ++ WrittenStories.topic written; [];
                 lit "Generated stories:"; [] ] in
  let lines := fold_left (fun lines story => lines ++ story_lines story)
                 (WrittenStories.stories written) lines in
  join newline lines.

Definition run_stamp_format : str := lit "%Y%m%dT%H%M%SZ".

Definition topic_slug (topic : str) : str :=
  or_else (slice_to 60 (join (lit "-") (split (lower topic)))) (lit "topic").

(** The name [f"{topic_slug}_{run_stamp}"] of the run directory. *)
Definition run_dir_name (topic : str) (now : datetime) : str :=
  topic_slug topic ++ lit "_" ++ strftime run_stamp_format now.

Definition save_outputs (output_dir : str) (plan : StoryPlan.t)
    (written : WrittenStories.t) : M World str :=
  now <- perform EvNow (total datetime_now) ;;
  let run_dir := joinpath output_dir (run_dir_name (StoryPlan.topic plan) now) in
  perform (EvMkdir run_dir) (path_mkdir run_dir) ;;
  (let p := joinpath run_dir (lit "story_plan.json") in
   let text := json_dumps (Some 2%nat) (dump_plan plan) in
   perform (EvWriteText p text) (path_write_text p text)) ;;
  (let p := joinpath run_dir (lit "written_stories.json") in
   let text := json_dumps (Some 2%nat) (dump_written written) in
   perform (EvWriteText p text) (path_write_text p text)) ;;
  (let p := joinpath run_dir (lit "written_stories.txt") in
   let text := render_story_text written in
   perform (EvWriteText p text) (path_write_text p text)) ;;
  ret run_dir.

End WithEnvironment.
End AgentCore.

(* ================================================================== *)
(** * cli.py: the audio stage of [main] *)
(* ================================================================== *)

Module Cli.
Import PyStr Models Effects AudioUtils.

Section WithEnvironment.
Context {World : Type} {env : Environment World}.
Local Open Scope py_scope.

Definition _story_tts_transcript (headline story : str) : str :=
  headline ++ lit ". " ++ strip story.

(** The loop [for idx, story in enumerate(written.stories)] building
    [ordered_segments]; [total] is [len(written.stories)]. *)
Fixpoint synthesize_segments (cartesia_key : str) (total idx : nat)
    (stories : list WrittenStory.t) (ordered_segments : list bytes)
    : M World (list bytes) :=
  match stories with
  | [] => ret ordered_segments
  | story :: rest =>
      clip <- synthesize_cartesia_tts cartesia_key
                (_story_tts_transcript (WrittenStory.headline story)
                                       (WrittenStory.story story)) ;;
      let ordered_segments := ordered_segments ++ [clip] in
      if (idx + 1 <? total)%nat
      then
        silence <- synthesize_silence_segment float_0_8 44100 ;;
        synthesize_segments cartesia_key total (S idx) rest (ordered_segments ++ [silence])
      else synthesize_segments cartesia_key total (S idx) rest ordered_segments
  end.

(** [if len(ordered_segments) >= 2: .. elif ordered_segments: .. else: ..] *)
Definition combine_segments (ordered_segments : list bytes) : M World bytes :=
  if (2 <=? length ordered_segments)%nat
  then concatenate_audio_segments ordered_segments (lit "wav")
  else match ordered_segments with
       | first :: _ => ret first
       | [] => ret []
       end.

(** Lines 88 to 104: from the written stories to [combined_audio]. *)
Definition synthesize_and_combine (cartesia_key : str)
    (written : WrittenStories.t) : M World bytes :=
  let stories := WrittenStories.stories written in
  ordered_segments <- synthesize_segments cartesia_key (length stories) 0 stories [] ;;
  combine_segments ordered_segments.

(** Lines 86 to 119: the whole audio stage, returning the uploaded URL
    when there was audio to upload. *)
Definition audio_stage (cartesia_key bunny_prefix bunny_zone bunny_access_key
    bunny_region run_dir : str) (written : WrittenStories.t) : M World (option str) :=
  combined_audio <- synthesize_and_combine cartesia_key written ;;
  match combined_audio with
  | [] => ret None
  | _ =>
      let audio_file_path := joinpath run_dir (lit "written_stories_audio.wav") in
      perform (EvWriteBytes audio_file_path combined_audio)
              (path_write_bytes audio_file_path combined_audio) ;;
      let object_path := bunny_prefix ++ lit "/" ++ path_name run_dir
                         ++ lit "/written_stories_audio.wav" in
      uploaded_url <- upload_bytes_to_bunny_storage combined_audio object_path
                        bunny_zone bunny_access_key bunny_region (lit "audio/wav") ;;
      (let p := joinpath run_dir (lit "written_stories_audio_bunny_url.txt") in
       perform (EvWriteText p uploaded_url) (path_write_text p uploaded_url)) ;;
      ret (Some uploaded_url)
  end.

End WithEnvironment.
End Cli.

(* ================================================================== *)
(** * app.py: the audio stage of [main] *)
(* ================================================================== *)

Module App.
Import PyStr Models Effects AudioUtils.

(** [audio_by_story_index]: a dict from story index to clip, as the
    list of its items in insertion order. *)
Definition clips_by_index := list (Z * bytes).

(** [d[key] = value] *)
Fixpoint dict_set (key : Z) (value : bytes) (d : clips_by_index) : clips_by_index :=
  match d with
  | [] => [(key, value)]
  | (k, v) :: rest =>
      if (k =? key)%Z then (k, value) :: rest else (k, v) :: dict_set key value rest
  end.

Section WithEnvironment.
Context {World : Type} {env : Environment World}.
Local Open Scope py_scope.

Definition _story_tts_transcript (headline story : str) : str :=
  headline ++ lit ". " ++ strip story.

(** The loop [for idx, story in enumerate(written.stories)]. *)
Fixpoint synthesize_segments (cartesia_key : str) (total idx : nat)
    (stories : list WrittenStory.t) (audio_by_story_index : clips_by_index)
    (ordered_segments : list bytes) : M World (clips_by_index * list bytes) :=
  match stories with
  | [] => ret (audio_by_story_index, ordered_segments)
  | story :: rest =>
      clip <- synthesize_cartesia_tts cartesia_key
                (_story_tts_transcript (WrittenStory.headline story)
                                       (WrittenStory.story story)) ;;
      let audio_by_story_index :=
        dict_set (WrittenStory.index story) clip audio_by_story_index in
      let ordered_segments := ordered_segments ++ [clip] in
      if (idx + 1 <? total)%nat
      then
        silence <- synthesize_silence_segment float_0_8 44100 ;;
        synthesize_segments cartesia_key total (S idx) rest audio_by_story_index
          (ordered_segments ++ [silence])
      else synthesize_segments cartesia_key total (S idx) rest audio_by_story_index
             ordered_segments
  end.

(** [if len(ordered_segments) >= 2: .. elif ordered_segments: ..], with
    [combined_audio] left at [None] otherwise. *)
Definition combine_segments (ordered_segments : list bytes) : M World (option bytes) :=
  if (2 <=? length ordered_segments)%nat
  then combined <- concatenate_audio_segments ordered_segments (lit "wav") ;;
       ret (Some combined)
  else match ordered_segments with
       | first :: _ => ret (Some first)
       | [] => ret None
       end.

Definition synthesize_and_combine (cartesia_key : str)
    (written : WrittenStories.t) : M World (clips_by_index * option bytes) :=
  let stories := WrittenStories.stories written in
  looped <- synthesize_segments cartesia_key (length stories) 0 stories [] [] ;;
  combined_audio <- combine_segments (snd looped) ;;
  ret (fst looped, combined_audio).

End WithEnvironment.
End App.

(* ================================================================== *)
(** * The effects of one successful call of each audio helper *)
(* ================================================================== *)

Module Traces.
Import PyStr Models Effects AudioText AudioUtils.

Section WithEnvironment.
Context {World : Type} {env : Environment World}.

(** One call of the speech synthesizer: one POST. *)
Definition tts_events (cartesia_api_key transcript : str) : list event :=
  [ EvPost cartesia_url
      (tts_request_for cartesia_api_key (_apply_pronunciation_hints transcript)) ].

(** One call of the silence generator, run in the directory [dir]. *)
Definition silence_events (dir : str) (duration_seconds : spec_float)
    (sample_rate : Z) : list event :=
  let output_path := joinpath dir (lit "silence.wav") in
  [ EvTempDir;
    EvRun (silence_cmd duration_seconds sample_rate output_path);
    EvReadBytes output_path;
    EvTempDirCleanup dir ].

Definition segment_path (base : str) (idx : nat) : str :=
  joinpath base (lit "segment_" ++ str_of_int (Z.of_nat idx) ++ lit ".wav").

Fixpoint segment_paths (base : str) (idx : nat) (segments : list bytes) : list str :=
  match segments with
  | [] => []
  | _ :: rest => segment_path base idx :: segment_paths base (S idx) rest
  end.

Fixpoint segment_writes (base : str) (idx : nat) (segments : list bytes) : list event :=
  match segments with
  | [] => []
  | segment :: rest =>
      EvWriteBytes (segment_path base idx) segment :: segment_writes base (S idx) rest
  end.

(** One call of the combiner on [segments], run in the directory [dir]. *)
Definition concat_events (dir : str) (segments : list bytes) (output_format : str)
    : list event :=
  let output_path := joinpath dir (lit "concatenated." ++ output_format) in
  [EvTempDir]
  ++ segment_writes dir 0 segments
  ++ [ EvRun (concat_cmd (segment_paths dir 0 segments) output_path);
       EvReadBytes output_path;
       EvTempDirCleanup dir ].

Definition is_post (ev : event) : bool :=
  match ev with EvPost _ _ => true | _ => false end.

Definition is_run (ev : event) : bool :=
  match ev with EvRun _ => true | _ => false end.

End WithEnvironment.
End Traces.

(* ================================================================== *)
(** * A scripted environment, to run the code on concrete inputs *)
(* ================================================================== *)

Module Scripted.
Import PyStr Models DateTime Effects.

(** The world is a counter of the effects performed so far. *)
Definition World := nat.

Definition clip : bytes := [x52; x49; x46; x46].
Definition hush : bytes := [x00; x00].
Definition mixed : bytes := [x52; x49; x46; x46; x00; x00].

Definition noon : datetime := DateTime.make 2025 1 1 0 0 0 0.

(** A backend answer that validates against [WrittenStories] but numbers
    the stories from zero and rewrites the first headline. *)
Definition backend_answer : WrittenStories.t :=
  WrittenStories.make (lit "reefs")
    [ WrittenStory.make 0 (lit "Another headline") (lit "a");
      WrittenStory.make 1 (lit "H2") (lit "b");
      WrittenStory.make 2 (lit "H3") (lit "c") ].

Definition some_plan : StoryPlan.t :=
  StoryPlan.make (lit "coral reef bleaching")
    [ StoryIdea.make (lit "H1") (lit "a1");
      StoryIdea.make (lit "H2") (lit "a2");
      StoryIdea.make (lit "H3") (lit "a3") ].

Definition some_written : WrittenStories.t :=
  WrittenStories.make (lit "coral reef bleaching")
    [ WrittenStory.make 1 (lit "H1") (lit "NATO met. ");
      WrittenStory.make 2 (lit "H2") (lit "b");
      WrittenStory.make 3 (lit "H3") (lit "c") ].

Fixpoint upto_slash (s : str) : str :=
  match s with
  | [] => []
  | c :: s' => if ascii_eqb c "/" then [] else c :: upto_slash s'
  end.

#[global] Instance env : Environment World := {
  joinpath := fun a b => a ++ lit "/" ++ b;
  path_name := fun a => rev (upto_slash (rev a));
  float_str := fun _ => lit "0.8";
  json_dumps := fun _ _ => lit "{}";
  requests_post := fun _ _ w => (Ok clip, S w);
  requests_put := fun _ _ _ _ w => (Ok tt, S w);
  tempdir_enter := fun w => (Ok (lit "/tmp/t" ++ str_of_int (Z.of_nat w)), S w);
  tempdir_cleanup := fun _ w => (Ok tt, S w);
  subprocess_run := fun _ w => (Ok tt, S w);
  path_write_bytes := fun _ _ w => (Ok tt, S w);
  path_write_text := fun _ _ w => (Ok tt, S w);
  path_read_bytes := fun p w =>
    (Ok (if endswith (lit "silence.wav") p then hush else mixed), S w);
  path_mkdir := fun _ w => (Ok tt, S w);
  datetime_now := fun w => (noon, S w);
  environ_set := fun _ _ w => S w;
  run_sync_plan := fun _ w => (Ok some_plan, S w);
  run_sync_written := fun _ w => (Ok backend_answer, S w)
}.

Definition start : state World := State 0%nat [].

End Scripted.

(* ================================================================== *)
(** * Vocabulary of the specification *)
(* ================================================================== *)

Module Vocabulary.
Import PyStr Models Effects AudioText.

(** ** Region hints *)

Definition spaces (s : str) : Prop := Forall (fun c => isspace c = true) s.

Definition is_slash (c : ascii) : bool := existsb (ascii_eqb c) (lit "/").

Definition slashes (s : str) : Prop := Forall (fun c => is_slash c = true) s.

Definition begins_with_slash (s : str) : Prop :=
  match s with c :: _ => is_slash c = true | [] => False end.

Definition ends_with_slash (s : str) : Prop := begins_with_slash (rev s).

(** Which scheme prefix the normalisation takes off a stripped hint. *)
Definition scheme_of (scheme hint : str) : Prop :=
  scheme = lit "https://"
  \/ scheme = lit "http://"
  \/ (scheme = [] /\ startswith (lit "https://") hint = false
                  /\ startswith (lit "http://") hint = false).

(** A hint made only of surrounding whitespace, an optional scheme prefix
    and slashes. *)
Definition nothing_but_wrapping (region : str) : Prop :=
  exists ws1 scheme sl ws2,
    region = ws1 ++ scheme ++ sl ++ ws2
    /\ spaces ws1 /\ spaces ws2 /\ slashes sl
    /\ (scheme = [] \/ scheme = lit "http://" \/ scheme = lit "https://").

(** The host normalisation as the specification words it: with one root
    domain [root], joined to a region code by [sep], the cleaned hint is
    returned as it is when it ends in the root domain and gets the root
    domain appended otherwise. *)
Definition claimed_host (sep root region : str) : str :=
  let cleaned := cleaned_region region in
  if endswith root cleaned then cleaned else cleaned ++ sep ++ root.

(** ** Transcripts *)

(** The acronym an entry of the table stands for: the literal of its
    pattern. *)
Definition entry_word (entry : str * str) : str :=
  match Re.word_pattern (fst entry) with Some word => word | None => [] end.

(** The acronyms of the substitution table. *)
Definition acronyms : list str := map entry_word substitutions.

(** A text that contains no acronym of the table: none of the patterns
    of the table matches anywhere in it. *)
Definition acronym_free (text : str) : Prop :=
  forall entry, In entry substitutions -> Re.search (fst entry) text = false.

Definition is_acronym (t : str) : bool := existsb (str_eqb t) acronyms.

(** An entry of the table inside the fragment of [re] modelled, whose
    acronym is a run of word characters and whose replacement has no
    acronym among its words. *)
Definition entry_ok (entry : str * str) : bool :=
  match Re.word_pattern (fst entry) with
  | Some word =>
      Re.plain_replacement (snd entry)
      && forallb isword word
      && forallb (fun t => negb (is_acronym t)) (Re.words (snd entry))
  | None => false
  end.

(** ** Durations *)

(** A float that is less than or equal to zero. *)
Definition at_most_zero (d : spec_float) : Prop :=
  match d with
  | S754_zero _ => True
  | S754_infinity negative | S754_finite negative _ _ => negative = true
  | S754_nan => False
  end.

(** A float that is greater than zero. *)
Definition above_zero (d : spec_float) : Prop :=
  match d with
  | S754_infinity negative | S754_finite negative _ _ => negative = false
  | S754_zero _ | S754_nan => False
  end.

(** ** Written stories *)

(** The order invariant of the data model:
    [stories[i].index == i+1] and
    [stories[i].headline == plan.stories[i].headline] for [i] in [0, N). *)
Definition order_preserved (plan : StoryPlan.t) (out : WrittenStories.t) : Prop :=
  forall i, (i < STORY_COUNT)%nat ->
    exists idea story,
      nth_error (StoryPlan.stories plan) i = Some idea
      /\ nth_error (WrittenStories.stories out) i = Some story
      /\ WrittenStory.index story = (Z.of_nat i + 1)%Z
      /\ WrittenStory.headline story = StoryIdea.headline idea.

(** The stories carry the indices [n], [n+1], ... in order: for [n = 1]
    the index invariant of the data model. *)
Fixpoint indexed_from (n : Z) (stories : list WrittenStory.t) : Prop :=
  match stories with
  | [] => True
  | story :: rest => WrittenStory.index story = n /\ indexed_from (n + 1) rest
  end.

(** The lines of the stories, numbered by position from [n]. *)
Fixpoint lines_numbered_from (n : Z) (stories : list WrittenStory.t) : list str :=
  match stories with
  | [] => []
  | story :: rest =>
      [ str_of_int n ++ lit ". " ++ WrittenStory.headline story;
        WrittenStory.story story;
        [] ] ++ lines_numbered_from (n + 1) rest
  end.

End Vocabulary.

(* ================================================================== *)
(** * cli.py: [main] *)
(* ================================================================== *)

Module CliMain.
Import PyStr Models Effects AudioUtils AgentCore Cli.

(** The namespace [parse_args] returns. *)
Record Args := MakeArgs {
  topic : str; model : str; provider : str;
  api_key : option str; cartesia_api_key : option str;
  with_audio : bool; output_dir : str }.

(** Truth of an optional string: [None] and [""] are falsy. *)
Definition truthy (x : option str) : bool :=
  match x with Some (_ :: _) => true | _ => false end.

(** [x or y] on optional strings. *)
Definition or_opt (x y : option str) : option str := if truthy x then x else y.

Definition value_of (x : option str) : str :=
  match x with Some v => v | None => [] end.

Definition is_empty (s : str) : bool := match s with [] => true | _ => false end.

(** How [main] ends when it does not return: with a [RuntimeError] of
    its own, or with the exception of a stage. *)
Inductive raised :=
| RuntimeError (msg : str)
| Propagated (e : exn).

Inductive finished :=
| Returned
| Raised (r : raised).

Definition missing_key_message : str :=
  lit "Missing API key. Set PYDANTIC_AI_GATEWAY_API_KEY or pass --api-key paig_<key>.".

Definition missing_cartesia_message : str :=
  lit "Audio requested, but CARTESIA_API_KEY is missing.".

Definition missing_bunny_message : str :=
  lit "Audio requested, but Bunny upload configuration is missing. "
  ++ lit "Set BUNNY_STORAGE_REGION, BUNNY_STORAGE_ZONE, and BUNNY_STORAGE_ACCESS_KEY.".

Section WithEnvironment.
Context {World : Type} {env : Environment World}.

(** [os.getenv(name)] once [load_dotenv()] has run; every lookup of
    [main] precedes the first stage. *)
Variable getenv : str -> option str.

(** [str(Path(p).expanduser())] *)
Variable expanduser : str -> str.

Local Open Scope py_scope.

(** [os.getenv(name, default)] *)
Definition getenv_or (name default : str) : str :=
  match getenv name with Some v => v | None => default end.

(** Lines 67 to 121: the stages, once the configuration is accepted.
    Console output is not modelled. *)
Definition run_stages (args : Args) (gateway_api_key : str) (cartesia_key : option str)
    (bunny_prefix bunny_zone bunny_access_key bunny_region : str) : M World unit :=
  plan <- generate_story_plan (topic args) (model args) (provider args) gateway_api_key ;;
  written <- write_full_stories plan (model args) (provider args) gateway_api_key ;;
  run_dir <- save_outputs (expanduser (output_dir args)) plan written ;;
  if with_audio args && truthy cartesia_key
  then audio_stage (value_of cartesia_key) bunny_prefix bunny_zone bunny_access_key
         bunny_region run_dir written ;;
       ret tt
  else ret tt.

Definition main (args : Args) (st : state World) : finished * state World :=
  let gateway_api_key := or_opt (api_key args) (getenv (lit "PYDANTIC_AI_GATEWAY_API_KEY")) in
  if negb (truthy gateway_api_key)
  then (Raised (RuntimeError missing_key_message), st)
  else
    let cartesia_key := or_opt (cartesia_api_key args) (getenv (lit "CARTESIA_API_KEY")) in
    if with_audio args && negb (truthy cartesia_key)
    then (Raised (RuntimeError missing_cartesia_message), st)
    else
      let bunny_region := strip (getenv_or (lit "BUNNY_STORAGE_REGION") []) in
      let bunny_zone := strip (getenv_or (lit "BUNNY_STORAGE_ZONE") []) in
      let bunny_access_key := strip (getenv_or (lit "BUNNY_STORAGE_ACCESS_KEY") []) in
      let bunny_prefix :=
        strip_chars (lit "/") (getenv_or (lit "BUNNY_STORAGE_PREFIX") (lit "audio")) in
      if with_audio args
         && (is_empty bunny_region || is_empty bunny_zone || is_empty bunny_access_key)
      then (Raised (RuntimeError missing_bunny_message), st)
      else
        match run_stages args (value_of gateway_api_key) cartesia_key
                bunny_prefix bunny_zone bunny_access_key bunny_region st with
        | (Ok _, st') => (Returned, st')
        | (Raise e, st') => (Raised (Propagated e), st')
        end.

End WithEnvironment.
End CliMain.

(* ================================================================== *)
(** * app.py: the helpers of the Sprite mode *)
(* ================================================================== *)

Module AppSupport.
Import PyStr.

(** [s.replace(old, new)] for an [old] of one character. *)
Definition replace_char (old : ascii) (new : str) (s : str) : str :=
  flat_map (fun c => if ascii_eqb c old then new else [c]) s.

Definition backslash : ascii := "\"%char.
Definition quote : ascii := ascii_of_N 34.
Definition linefeed : ascii := ascii_of_N 10.

(** [value.replace("\\", "\\\\").replace('"', '\\"')] *)
Definition escape_value (value : str) : str :=
  replace_char quote [backslash; quote]
    (replace_char backslash [backslash; backslash] value).

(** [f'{key}="{escaped_value}"\n'] *)
Definition env_line (key value : str) : str :=
  key ++ lit "=" ++ [quote] ++ escape_value value ++ [quote] ++ [linefeed].

(** The line boundaries of [str.splitlines] below code point 256, the
    carriage return apart. *)
Definition is_linebreak (c : ascii) : bool :=
  between 10 12 c || between 28 30 c || (code c =? 133)%N.

Definition is_cr (c : ascii) : bool := (code c =? 13)%N.
Definition is_lf (c : ascii) : bool := (code c =? 10)%N.

(** [s.splitlines(keepends=True)]; [cur] holds, reversed, the line being
    read.  A carriage return followed by a line feed ends one line. *)
Fixpoint splitlines_aux (cur : str) (s : str) : list str :=
  match s with
  | [] => flush cur
  | c :: s' =>
      if is_cr c
      then match s' with
           | c2 :: s'' =>
               if is_lf c2 then rev (c2 :: c :: cur) :: splitlines_aux [] s''
               else rev (c :: cur) :: splitlines_aux [] s'
           | [] => [rev (c :: cur)]
           end
      else if is_linebreak c then rev (c :: cur) :: splitlines_aux [] s'
      else splitlines_aux (c :: cur) s'
  end.

Definition splitlines (s : str) : list str := splitlines_aux [] s.

(** The state of the loop of [_save_env_var]. *)
Definition env_step (key new_line : str) (acc : list str * bool) (line : str)
    : list str * bool :=
  let (updated_lines, found) := acc in
  if startswith (key ++ lit "=") line
  then if found then (updated_lines, found) else (updated_lines ++ [new_line], true)
  else (updated_lines ++ [line], found).

Definition env_loop (key new_line : str) (lines : list str) : list str * bool :=
  fold_left (env_step key new_line) lines ([], false).

(** [if updated_lines and not updated_lines[-1].endswith("\n"):
       updated_lines[-1] = f"{updated_lines[-1]}\n"] *)
Definition end_last_line (updated_lines : list str) : list str :=
  match rev updated_lines with
  | [] => updated_lines
  | last_line :: before =>
      if endswith [linefeed] last_line then updated_lines
      else rev before ++ [last_line ++ [linefeed]]
  end.

(** The lines [_save_env_var] joins, from the lines it read. *)
Definition updated_env_lines (key new_line : str) (lines : list str) : list str :=
  let (updated_lines, found) := env_loop key new_line lines in
  if found then updated_lines else end_last_line updated_lines ++ [new_line].

(** [_save_env_var]: the text written to [dotenv_path], from the text
    read there ([None] when the path does not exist). *)
Definition _save_env_var (key value : str) (existing : option str) : str :=
  let new_line := env_line key value in
  match existing with
  | None => new_line
  | Some text => concat (updated_env_lines key new_line (splitlines text))
  end.

(** [buffer.append(line)] and then [buffer.pop(0)] when more than
    [limit] lines are held: the pattern of [stderr_tail_lines] in
    [_run_in_sprite] and of [sprite_log_lines] in [_on_sprite_log]. *)
Definition append_bounded (limit : nat) (buffer : list str) (line : str) : list str :=
  let buffer := buffer ++ [line] in
  if (limit <? length buffer)%nat then tl buffer else buffer.

Definition RESULT_MARKER : str := lit "__SPRITE_RESULT__".

(** The variables the loop over [process.stdout] updates; [logged] is
    the list of the calls made to [log_callback]. *)
Record scan := MakeScan {
  marker_line : str;
  logged : list str;
  stderr_tail_lines : list str }.

Definition scan_step (has_callback : bool) (s : scan) (raw_line : str) : scan :=
  let line := rstrip_by (fun c => existsb (ascii_eqb c) [linefeed]) raw_line in
  if startswith RESULT_MARKER line
  then MakeScan line (logged s) (stderr_tail_lines s)
  else
    MakeScan (marker_line s)
      (if has_callback && negb (str_eqb line []) then logged s ++ [line] else logged s)
      (append_bounded 50 (stderr_tail_lines s) line).

(** Lines 125 to 135 of [_run_in_sprite]: the loop over the output of
    the process. *)
Definition scan_output (has_callback : bool) (raw_lines : list str) : scan :=
  fold_left (scan_step has_callback) raw_lines (MakeScan [] [] []).

(** [xs[-n:]] for [n > 0] *)
Definition last_n {A} (n : nat) (xs : list A) : list A := skipn (length xs - n) xs.

(** Lines 137 to 149 of [_run_in_sprite]: what is raised, or the text
    handed to [json.loads]. *)
Definition sprite_verdict (return_code : Z) (s : scan) : str + str :=
  if negb (return_code =? 0)%Z
  then inl (lit "Sprite run failed. Ensure Node dependencies are installed with `npm install` and check token/repo settings."
            ++ [linefeed] ++ join [linefeed] (last_n 20 (stderr_tail_lines s)))
  else match marker_line s with
       | [] => inl (lit "Sprite run completed but no structured result was returned.")
       | _ => inr (removeprefix RESULT_MARKER (marker_line s))
       end.

(** [_on_sprite_log] of [main]: the lines kept and the text shown. *)
Definition _on_sprite_log (sprite_log_lines : list str) (line : str) : list str * str :=
  let sprite_log_lines := append_bounded 200 sprite_log_lines line in
  (sprite_log_lines, join [linefeed] sprite_log_lines).

End AppSupport.

(* ================================================================== *)
(** * Vocabulary for the effects of a computation *)
(* ================================================================== *)

Module EffectVocabulary.
Import PyStr Effects.

(** Whatever the outcome, the computation only adds events satisfying
    [allowed] to the trace. *)
Definition emits {World A} (allowed : event -> bool) (c : M World A) : Prop :=
  forall st, exists new,
    trace (snd (c st)) = trace st ++ new /\ Forall (fun ev => allowed ev = true) new.

(** Events of the language-model stages. *)
Definition is_agent_event (ev : event) : bool :=
  match ev with EvSetEnv _ _ | EvAgentRun _ => true | _ => false end.

(** Events of the persister. *)
Definition is_persist_event (ev : event) : bool :=
  match ev with EvNow | EvMkdir _ | EvWriteText _ _ => true | _ => false end.

(** Events that touch the file system under the output directory. *)
Definition is_output_write (ev : event) : bool :=
  match ev with
  | EvMkdir _ | EvWriteText _ _ | EvWriteBytes _ _ => true
  | _ => false
  end.

(** Events of the audio stage: requests, temporary files and tool runs,
    and the files written beside the stories. *)
Definition is_audio_event (ev : event) : bool :=
  match ev with
  | EvPost _ _ | EvPut _ _ _ _ | EvTempDir | EvTempDirCleanup _ | EvRun _
  | EvWriteBytes _ _ | EvReadBytes _ | EvWriteText _ _ => true
  | _ => false
  end.

Definition is_put (ev : event) : bool :=
  match ev with EvPut _ _ _ _ => true | _ => false end.

(** Events of synthesis and combination: requests to the speech service,
    temporary directories and their files, runs of the audio tool. *)
Definition is_synthesis_event (ev : event) : bool :=
  match ev with
  | EvPost _ _ | EvTempDir | EvTempDirCleanup _ | EvRun _
  | EvWriteBytes _ _ | EvReadBytes _ => true
  | _ => false
  end.

(** Whatever the outcome, the computation adds at most [n] requests to
    the object store to the trace. *)
Definition puts_at_most {World A} (n : nat) (c : M World A) : Prop :=
  forall st, exists new,
    trace (snd (c st)) = trace st ++ new /\ (length (filter is_put new) <= n)%nat.

End EffectVocabulary.

(* ================================================================== *)
(** * Further vocabulary and scripted environments *)
(* ================================================================== *)

Module MoreVocabulary.
Import PyStr Models DateTime Effects AudioText AudioUtils AgentCore Vocabulary AppSupport.

(** The non-empty segments of an object path. *)
Definition path_segments (object_path : str) : list str :=
  filter (fun seg => negb (str_eqb seg [])) (split_on "/"%char [] object_path).

Definition slash_free (seg : str) : Prop := Forall (fun c => ascii_eqb c "/" = false) seg.

(** The URL [upload_bytes_to_bunny_storage] puts to. *)
Definition upload_url (object_path storage_zone region : str) : str :=
  lit "https://" ++ _normalize_bunny_storage_host region ++ lit "/"
  ++ storage_zone ++ lit "/" ++ normalize_object_path object_path.

(** A line of a dotenv file that assigns [key]. *)
Definition is_key_line (key line : str) : bool := startswith (key ++ lit "=") line.

(** The output lines of the Sprite process, without their line feeds. *)
Definition output_lines (raw_lines : list str) : list str :=
  map (rstrip_by (fun c => existsb (ascii_eqb c) [linefeed])) raw_lines.

Definition is_marker_line (line : str) : bool := startswith RESULT_MARKER line.

(** A backend that answers the writer with two stories only. *)
Definition short_answer : WrittenStories.t :=
  WrittenStories.make (lit "reefs")
    [ WrittenStory.make 1 (lit "H1") (lit "a");
      WrittenStory.make 2 (lit "H2") (lit "b") ].

(** No line assigns [key]. *)
Definition key_free (key : str) (lines : list str) : Prop :=
  Forall (fun line => is_key_line key line = false) lines.

Definition not_key_line (key line : str) : bool := negb (is_key_line key line).

(** The output lines that do not carry the result marker. *)
Definition log_lines (raw_lines : list str) : list str :=
  filter (fun line => negb (is_marker_line line)) (output_lines raw_lines).

(** The output lines that carry the result marker. *)
Definition marker_lines (raw_lines : list str) : list str :=
  filter is_marker_line (output_lines raw_lines).

(** The calls of [_on_sprite_log] for the lines of a run, from an empty
    list: the lines kept after the last call. *)
Definition sprite_log_after (lines : list str) : list str :=
  fold_left (fun kept line => fst (_on_sprite_log kept line)) lines [].

Section WithEnvironment.
Context {World : Type} {env : Environment World}.




End WithEnvironment.
End MoreVocabulary.

(* ================================================================== *)
(** * Scripted runs *)
(* ================================================================== *)

Module ScriptedRuns.
Import PyStr Models DateTime Effects CliMain MoreVocabulary.

(** An environment without variables, and a home directory that leaves
    paths as they are. *)
Definition no_env : str -> option str := fun _ => None.
Definition same_path : str -> str := fun p => p.

(** [--api-key paig_k], without and with [--with-audio]. *)
Definition quiet_args : Args :=
  MakeArgs (lit "reefs") (lit "m") (lit "openai") (Some (lit "paig_k")) None false
           (lit "output").

Definition audio_args : Args :=
  MakeArgs (lit "reefs") (lit "m") (lit "openai") (Some (lit "paig_k")) None true
           (lit "output").

(** The scripted world with a writer that answers with two stories. *)
Definition short_env : Environment Scripted.World := {|
  joinpath := fun a b => a ++ lit "/" ++ b;
  path_name := fun a => rev (Scripted.upto_slash (rev a));
  float_str := fun _ => lit "0.8";
  json_dumps := fun _ _ => lit "{}";
  requests_post := fun _ _ w => (Ok Scripted.clip, S w);
  requests_put := fun _ _ _ _ w => (Ok tt, S w);
  tempdir_enter := fun w => (Ok (lit "/tmp/t" ++ str_of_int (Z.of_nat w)), S w);
  tempdir_cleanup := fun _ w => (Ok tt, S w);
  subprocess_run := fun _ w => (Ok tt, S w);
  path_write_bytes := fun _ _ w => (Ok tt, S w);
  path_write_text := fun _ _ w => (Ok tt, S w);
  path_read_bytes := fun p w => (Ok Scripted.mixed, S w);
  path_mkdir := fun _ w => (Ok tt, S w);
  datetime_now := fun w => (Scripted.noon, S w);
  environ_set := fun _ _ w => S w;
  run_sync_plan := fun _ w => (Ok Scripted.some_plan, S w);
  run_sync_written := fun _ w => (Ok short_answer, S w)
|}.

(** Two lines of output of a Sprite process, the second with the marker. *)
Definition sprite_lines : list str :=
  [ lit "cloning" ++ [AppSupport.linefeed];
    AppSupport.RESULT_MARKER ++ lit "{}" ++ [AppSupport.linefeed] ].

End ScriptedRuns.

(* ================================================================== *)
(** * Facts about the string functions *)
(* ================================================================== *)

Module PyStrFacts.
Import PyStr.

Lemma ascii_eqb_eq a b : ascii_eqb a b = true <-> a = b.
Proof. unfold ascii_eqb. apply Ascii.eqb_eq. Qed.

Lemma ascii_eqb_refl a : ascii_eqb a a = true.
Proof. apply ascii_eqb_eq. reflexivity. Qed.

Lemma str_eqb_eq a : forall b, str_eqb a b = true <-> a = b.
Proof.
  induction a as [|x a IH]; intros [|y b]; simpl; try (split; congruence).
  rewrite andb_true_iff, ascii_eqb_eq, IH. split.
  - intros [-> ->]. reflexivity.
  - intros H. injection H. auto.
Qed.

Lemma str_eqb_refl a : str_eqb a a = true.
Proof. apply str_eqb_eq. reflexivity. Qed.

Lemma str_eqb_neq a b : str_eqb a b = false <-> a <> b.
Proof.
  split.
  - intros H E. apply str_eqb_eq in E. congruence.
  - intros H. destruct (str_eqb a b) eqn:E; [|reflexivity].
    apply str_eqb_eq in E. contradiction.
Qed.

(** [startswith] is the prefix relation. *)
Lemma startswith_app p s : startswith p (p ++ s) = true.
Proof. induction p as [|x p IH]; simpl; [reflexivity|]. now rewrite ascii_eqb_refl. Qed.

Lemma startswith_iff p : forall s, startswith p s = true <-> exists t, s = p ++ t.
Proof.
  induction p as [|x p IH]; intros s; simpl.
  - split; [intros _; now exists s | reflexivity].
  - destruct s as [|y s].
    + split; [discriminate | intros [t H]; discriminate].
    + rewrite andb_true_iff, ascii_eqb_eq, IH. split.
      * intros [-> [t ->]]. now exists t.
      * intros [t H]. injection H as -> ->. split; [reflexivity | now exists t].
Qed.

Lemma skipn_app_exact {A} (p s : list A) : skipn (length p) (p ++ s) = s.
Proof. induction p; simpl; auto. Qed.

Lemma removeprefix_app p s : removeprefix p (p ++ s) = s.
Proof. unfold removeprefix. now rewrite startswith_app, skipn_app_exact. Qed.

(** [endswith] is the suffix relation. *)
Lemma endswith_iff p s : endswith p s = true <-> exists t, s = t ++ p.
Proof.
  unfold endswith. rewrite startswith_iff. split.
  - intros [t H]. exists (rev t).
    rewrite <- (rev_involutive s), H, rev_app_distr, rev_involutive. reflexivity.
  - intros [t ->]. exists (rev t). apply rev_app_distr.
Qed.

Section Strip.
Variable f : ascii -> bool.
#[local] Abbreviation all_in := (all_in f).

Lemma lstrip_by_app_l ws s : all_in ws -> lstrip_by f (ws ++ s) = lstrip_by f s.
Proof. induction 1 as [|c ws Hc _ IH]; simpl; [reflexivity|]. now rewrite Hc. Qed.

Lemma lstrip_by_all ws : all_in ws -> lstrip_by f ws = [].
Proof. intros H. rewrite <- (app_nil_r ws). now rewrite lstrip_by_app_l. Qed.

Lemma lstrip_by_head c s : f c = false -> lstrip_by f (c :: s) = c :: s.
Proof. intros H. simpl. now rewrite H. Qed.

(** What [lstrip_by] removes and what it leaves. *)
Lemma lstrip_by_split s :
  exists l, s = l ++ lstrip_by f s /\ all_in l /\
            match lstrip_by f s with [] => True | c :: _ => f c = false end.
Proof.
  induction s as [|c s (l & E & Hl & Hh)]; simpl.
  - exists []. repeat split. constructor.
  - destruct (f c) eqn:Hc.
    + exists (c :: l). repeat split.
      * simpl. now f_equal.
      * now constructor.
      * exact Hh.
    + exists []. repeat split; [constructor | exact Hc].
Qed.

Lemma all_in_rev s : all_in s -> all_in (rev s).
Proof. apply Forall_rev. Qed.

Lemma rstrip_by_app_r s ws : all_in ws -> rstrip_by f (s ++ ws) = rstrip_by f s.
Proof.
  intros H. unfold rstrip_by. rewrite rev_app_distr.
  rewrite lstrip_by_app_l; [reflexivity | now apply all_in_rev].
Qed.

Lemma rstrip_by_last s c : f c = false -> rstrip_by f (s ++ [c]) = s ++ [c].
Proof.
  intros H. unfold rstrip_by. rewrite rev_app_distr. simpl. rewrite H.
  simpl. now rewrite rev_involutive.
Qed.

Lemma rstrip_by_nil : rstrip_by f [] = [].
Proof. reflexivity. Qed.

Lemma rstrip_by_split s :
  exists r, s = rstrip_by f s ++ r /\ all_in r /\
            match rev (rstrip_by f s) with [] => True | c :: _ => f c = false end.
Proof.
  unfold rstrip_by. destruct (lstrip_by_split (rev s)) as (l & E & Hl & Hh).
  exists (rev l). repeat split.
  - rewrite <- rev_app_distr, <- E. symmetry. apply rev_involutive.
  - now apply all_in_rev.
  - now rewrite rev_involutive.
Qed.

(** [strip_by] removes a run of [f]-characters on each side and leaves a
    text that neither begins nor ends with one. *)
Lemma strip_by_split s :
  exists l r, s = l ++ strip_by f s ++ r /\ all_in l /\ all_in r /\
    match strip_by f s with [] => True | c :: _ => f c = false end /\
    match rev (strip_by f s) with [] => True | c :: _ => f c = false end.
Proof.
  unfold strip_by.
  destruct (lstrip_by_split s) as (l & E & Hl & Hh).
  destruct (rstrip_by_split (lstrip_by f s)) as (r & E' & Hr & Hlast).
  exists l, r. repeat split; auto.
  - rewrite <- E'. exact E.
  - destruct (rstrip_by f (lstrip_by f s)) as [|c t] eqn:Ec; [exact I|].
    rewrite E' in Hh. exact Hh.
Qed.

(** A text framed by [f]-characters, itself free of them at both ends,
    is what [strip_by] returns. *)
Lemma strip_by_framed l core r :
  all_in l -> all_in r ->
  match core with [] => True | c :: _ => f c = false end ->
  match rev core with [] => True | c :: _ => f c = false end ->
  strip_by f (l ++ core ++ r) = core.
Proof.
  intros Hl Hr Hh Ht. unfold strip_by. rewrite lstrip_by_app_l by assumption.
  destruct core as [|c core].
  - simpl. rewrite lstrip_by_all by assumption. reflexivity.
  - simpl in Hh. replace (lstrip_by f ((c :: core) ++ r)) with ((c :: core) ++ r)
      by (simpl; now rewrite Hh).
    rewrite rstrip_by_app_r by assumption.
    destruct (rev (c :: core)) as [|z t] eqn:Er.
    + apply (f_equal (@length _)) in Er. rewrite length_rev in Er. discriminate.
    + apply (f_equal (@rev _)) in Er. rewrite rev_involutive in Er. simpl in Er.
      rewrite Er. now apply rstrip_by_last.
Qed.

End Strip.

End PyStrFacts.

(* ================================================================== *)
(** * The host normalisation of the uploader *)
(* ================================================================== *)

Module HostFacts.
Import PyStr PyStrFacts AudioText Vocabulary.

Lemma slashes_all_in s : slashes s -> all_in is_slash s.
Proof. exact (fun H => H). Qed.

Lemma strip_chars_slash s : strip_chars (lit "/") s = strip_by is_slash s.
Proof. reflexivity. Qed.

Lemma slashes_not_space s : slashes s -> none_in isspace s.
Proof.
  unfold slashes, none_in. apply Forall_impl. intros c H.
  unfold is_slash in H. simpl in H. rewrite orb_false_r in H.
  apply ascii_eqb_eq in H. subst c. reflexivity.
Qed.

Lemma slashes_no_scheme s :
  slashes s ->
  startswith (lit "https://") s = false /\ startswith (lit "http://") s = false.
Proof.
  intros H. destruct H as [|c s Hc _]; [split; reflexivity|].
  unfold is_slash in Hc. simpl in Hc. rewrite orb_false_r in Hc.
  apply ascii_eqb_eq in Hc. subst c. split; reflexivity.
Qed.

(** Ends of a text none of whose characters satisfies [f]. *)
Lemma none_in_ends f s :
  none_in f s ->
  match s with [] => True | c :: _ => f c = false end
  /\ match rev s with [] => True | c :: _ => f c = false end.
Proof.
  intros H. split.
  - destruct H; auto.
  - apply Forall_rev in H. destruct H; auto.
Qed.

(** The scheme prefixes contain no whitespace. *)
Lemma wrapping_core_not_space scheme sl :
  scheme = [] \/ scheme = lit "http://" \/ scheme = lit "https://" ->
  slashes sl -> none_in isspace (scheme ++ sl).
Proof.
  intros Hs Hsl. apply Forall_app. split; [|now apply slashes_not_space].
  destruct Hs as [->|[->| ->]]; repeat constructor.
Qed.

Lemma strip_slashes_all sl : slashes sl -> strip_chars (lit "/") sl = [].
Proof.
  intros H. rewrite strip_chars_slash. unfold strip_by.
  rewrite lstrip_by_all by now apply slashes_all_in. reflexivity.
Qed.

Lemma wrapping_cleans_to_nothing region :
  nothing_but_wrapping region -> cleaned_region region = [].
Proof.
  intros (ws1 & scheme & sl & ws2 & -> & H1 & H2 & Hsl & Hs).
  unfold cleaned_region, cleaned_region_of_stripped, strip.
  replace (ws1 ++ scheme ++ sl ++ ws2) with (ws1 ++ (scheme ++ sl) ++ ws2)
    by now rewrite <- !app_assoc.
  destruct (none_in_ends (wrapping_core_not_space Hs Hsl)) as [Hh Ht].
  rewrite (@strip_by_framed isspace ws1 (scheme ++ sl) ws2 H1 H2 Hh Ht).
  destruct Hs as [->|[->| ->]].
  - simpl app. destruct (slashes_no_scheme Hsl) as [-> ->].
    now apply strip_slashes_all.
  - change (startswith (lit "https://") (lit "http://" ++ sl)) with false.
    rewrite startswith_app, removeprefix_app. now apply strip_slashes_all.
  - rewrite startswith_app, removeprefix_app. now apply strip_slashes_all.
Qed.

(** C10. A region hint that is empty, or that consists only of
    surrounding whitespace, a scheme prefix and slashes, is normalised to
    the default host [storage.bunnycdn.com]; nothing is raised. *)
Theorem empty_hint_gives_default_host (region : str) :
  region = [] \/ nothing_but_wrapping region ->
  _normalize_bunny_storage_host region = lit "storage.bunnycdn.com".
Proof.
  intros [-> | H]; [reflexivity|].
  unfold _normalize_bunny_storage_host.
  now rewrite (wrapping_cleans_to_nothing H).
Qed.

Lemma empty_hint_gives_default_host_witness :
  _normalize_bunny_storage_host (lit " https:/// ") = lit "storage.bunnycdn.com".
Proof.
  apply (@empty_hint_gives_default_host (lit " https:/// ")).
  right. exists (lit " "), (lit "https://"), (lit "/"), (lit " ").
  split; [reflexivity|].
  split; [repeat constructor|].
  split; [repeat constructor|].
  split; [repeat constructor|].
  right; right; reflexivity.
Defined.

(** The scheme prefix that [cleaned_region] removes, and what is left
    before the slashes are stripped. *)
Lemma scheme_split hint :
  exists scheme rest,
    hint = scheme ++ rest /\ scheme_of scheme hint
    /\ cleaned_region_of_stripped hint = strip_chars (lit "/") rest.
Proof.
  unfold cleaned_region_of_stripped.
  destruct (startswith (lit "https://") hint) eqn:E1.
  - apply startswith_iff in E1 as [t ->].
    exists (lit "https://"), t. rewrite removeprefix_app.
    repeat split. now left.
  - destruct (startswith (lit "http://") hint) eqn:E2.
    + apply startswith_iff in E2 as [t ->].
      exists (lit "http://"), t. rewrite removeprefix_app.
      repeat split. right; now left.
    + exists [], hint. repeat split. right; right. auto.
Qed.

(** C6, as the code has it.  The hint is stripped of surrounding
    whitespace, then of one [https://] or [http://] prefix, then of the
    slashes at both ends.  If nothing is left the result is the default
    host; if what is left ends in [.bunnycdn.com] it is the result;
    otherwise [.storage.bunnycdn.com] is appended to it. *)
Theorem host_normalization_by_cases (region : str) :
  let cleaned := cleaned_region region in
  (exists scheme l r,
     strip region = scheme ++ l ++ cleaned ++ r
     /\ scheme_of scheme (strip region)
     /\ slashes l /\ slashes r
     /\ ~ begins_with_slash cleaned /\ ~ ends_with_slash cleaned)
  /\ ((cleaned = []
       /\ _normalize_bunny_storage_host region = lit "storage.bunnycdn.com")
      \/ (cleaned <> []
          /\ (exists sub, cleaned = sub ++ lit ".bunnycdn.com")
          /\ _normalize_bunny_storage_host region = cleaned)
      \/ (cleaned <> []
          /\ ~ (exists sub, cleaned = sub ++ lit ".bunnycdn.com")
          /\ _normalize_bunny_storage_host region
             = cleaned ++ lit ".storage.bunnycdn.com")).
Proof.
  intros cleaned. split.
  - destruct (scheme_split (strip region)) as (scheme & rest & E & Hs & Hc).
    change (cleaned_region_of_stripped (strip region)) with cleaned in Hc.
    rewrite strip_chars_slash in Hc.
    destruct (@strip_by_split is_slash rest) as (l & r & Er & Hl & Hr & Hh & Ht).
    rewrite <- Hc in Er, Hh, Ht.
    exists scheme, l, r. repeat split; auto.
    + rewrite E. now rewrite Er at 1.
    + unfold begins_with_slash. destruct cleaned; [tauto | congruence].
    + unfold ends_with_slash, begins_with_slash.
      destruct (rev cleaned); [tauto | congruence].
  - unfold _normalize_bunny_storage_host. fold cleaned.
    destruct cleaned as [|c t] eqn:Ec; [left; split; reflexivity | right].
    destruct (endswith (lit ".bunnycdn.com") (c :: t)) eqn:Ee.
    + left. split; [discriminate|]. split; [|reflexivity].
      now apply endswith_iff.
    + right. split; [discriminate|]. split; [|reflexivity].
      intros H. apply endswith_iff in H. congruence.
Qed.

(** C6, as the specification words it, fails.  Whatever the root domain
    and the separator are taken to be, the code disagrees on the empty
    hint or on the region code [de]; and on hints that do not clean to
    nothing, with the root domain appended as it is or after a dot, the
    code disagrees on [de] or on [x.bunnycdn.com]. *)
Lemma no_single_root_domain :
  (~ exists sep root, forall region,
       _normalize_bunny_storage_host region = claimed_host sep root region)
  /\ (forall sep, sep = [] \/ sep = lit "." ->
      ~ exists root, forall region,
          cleaned_region region <> [] ->
          _normalize_bunny_storage_host region = claimed_host sep root region).
Proof.
  split.
  - intros (sep & root & H).
    pose proof (H []) as H0. pose proof (H (lit "de")) as H1.
    unfold claimed_host in H0, H1.
    change (cleaned_region []) with (@nil ascii) in H0.
    change (cleaned_region (lit "de")) with (lit "de") in H1.
    change (_normalize_bunny_storage_host []) with (lit "storage.bunnycdn.com") in H0.
    change (_normalize_bunny_storage_host (lit "de"))
      with (lit "de" ++ lit ".storage.bunnycdn.com") in H1.
    destruct (endswith root []) eqn:E0; [discriminate|].
    change ([] ++ sep ++ root) with (sep ++ root) in H0.
    destruct (endswith root (lit "de")) eqn:E1; [discriminate|].
    apply app_inv_head in H1. rewrite <- H1 in H0. discriminate.
  - intros sep Hsep (root & H).
    assert (H1 : _normalize_bunny_storage_host (lit "de")
                 = claimed_host sep root (lit "de")) by (apply H; discriminate).
    assert (H2 : _normalize_bunny_storage_host (lit "x.bunnycdn.com")
                 = claimed_host sep root (lit "x.bunnycdn.com"))
      by (apply H; discriminate).
    unfold claimed_host in H1, H2.
    change (cleaned_region (lit "de")) with (lit "de") in H1.
    change (cleaned_region (lit "x.bunnycdn.com")) with (lit "x.bunnycdn.com") in H2.
    change (_normalize_bunny_storage_host (lit "de"))
      with (lit "de" ++ lit ".storage.bunnycdn.com") in H1.
    change (_normalize_bunny_storage_host (lit "x.bunnycdn.com"))
      with (lit "x.bunnycdn.com") in H2.
    destruct (endswith root (lit "de")) eqn:E1; [discriminate|].
    apply app_inv_head in H1.
    assert (Hroot : root = lit ".storage.bunnycdn.com" \/ root = lit "storage.bunnycdn.com").
    { destruct Hsep as [-> | ->]; [left | right].
      - now rewrite H1.
      - injection H1 as <-. reflexivity. }
    destruct Hroot as [-> | ->]; destruct Hsep as [-> | ->]; discriminate.
Qed.

End HostFacts.

(* ================================================================== *)
(** * Running computations: inversion lemmas *)
(* ================================================================== *)

Module EffectFacts.
Import PyStr Models Effects.

Section WithWorld.
Context {World : Type}.

Lemma bind_ok {A B} (c : M World A) (k : A -> M World B) st b st' :
  bind c k st = (Ok b, st') ->
  exists a st1, c st = (Ok a, st1) /\ k a st1 = (Ok b, st').
Proof.
  unfold bind. destruct (c st) as [[a|e] st1]; [|discriminate].
  intros H. now exists a, st1.
Qed.

Lemma perform_ok {A} ev (oracle : World -> result A * World) st a st' :
  perform ev oracle st = (Ok a, st') ->
  oracle (world st) = (Ok a, world st') /\ trace st' = trace st ++ [ev].
Proof.
  unfold perform. destruct (oracle (world st)) as [r w].
  intros H. injection H as -> <-. split; reflexivity.
Qed.

Lemma ret_ok {A} (a b : A) (st st' : state World) :
  ret a st = (Ok b, st') -> a = b /\ st = st'.
Proof. unfold ret. intros H. injection H as -> ->. split; reflexivity. Qed.

Lemma total_ok {A} (f : World -> A * World) w a w' :
  total f w = (Ok a, w') -> f w = (a, w').
Proof. unfold total. destruct (f w). intros H. now injection H as -> ->. Qed.

End WithWorld.

Section WithEnvironment.
Context {World : Type} {env : Environment World}.

Lemma with_tempdir_ok {A} (body : str -> M World A) st a st' :
  with_tempdir body st = (Ok a, st') ->
  exists dir st1 st2,
    trace st1 = trace st ++ [EvTempDir]
    /\ body dir st1 = (Ok a, st2)
    /\ trace st' = trace st2 ++ [EvTempDirCleanup dir].
Proof.
  unfold with_tempdir.
  destruct (perform EvTempDir tempdir_enter st) as [[dir|e] st1] eqn:E1;
    [|discriminate].
  destruct (body dir st1) as [r st2] eqn:E.
  destruct (perform (EvTempDirCleanup dir) (tempdir_cleanup dir) st2)
    as [[u|e] st3] eqn:E3; [|discriminate].
  intros H. injection H as -> <-.
  apply perform_ok in E1 as [_ T1]. apply perform_ok in E3 as [_ T3].
  now exists dir, st1, st2.
Qed.

End WithEnvironment.

(** Take apart a successful run, one step at a time. *)
Ltac step H :=
  cbv beta zeta in H;
  match type of H with
  | bind _ _ _ = (Ok _, _) =>
      let a := fresh "a" in let s := fresh "st" in
      let H1 := fresh "Hrun" in
      apply bind_ok in H; destruct H as (a & s & H1 & H)
  | ret _ _ = (Ok _, _) =>
      apply ret_ok in H; destruct H as [? ?]; subst
  end.

End EffectFacts.

(* ================================================================== *)
(** * The audio helpers *)
(* ================================================================== *)

Module AudioFacts.
Import PyStr Models Effects AudioText AudioUtils Traces Vocabulary EffectFacts.

(** Comparison with zero, read off the sign. *)
Lemma SFleb_zero d : SFleb d float_zero = true <-> at_most_zero d.
Proof.
  destruct d as [s|[|]| |[|] m e]; simpl; unfold SFleb; simpl;
    intuition (auto; discriminate).
Qed.

Lemma above_zero_not_SFleb d : above_zero d -> SFleb d float_zero = false.
Proof.
  destruct d as [s|[|]| |[|] m e]; simpl; unfold SFleb; simpl;
    intuition (auto; discriminate).
Qed.

Lemma above_zero_iff d : above_zero d <-> SFltb float_zero d = true.
Proof.
  destruct d as [s|[|]| |[|] m e]; simpl; unfold SFltb; simpl;
    intuition (auto; discriminate).
Qed.

Section WithEnvironment.
Context {World : Type} {env : Environment World}.

(** C4. Given fewer than two audio segments, the combiner raises
    [ValueError] and leaves the state as it found it: no temporary
    directory was created, no file written and no tool run. *)
Theorem concatenate_rejects_short_input
    (audio_segments : list bytes) (output_format : str) (st : state World) :
  (length audio_segments < 2)%nat ->
  concatenate_audio_segments audio_segments output_format st
  = (Raise (ValueError (lit "Need at least two audio segments to concatenate")), st).
Proof.
  intros H. unfold concatenate_audio_segments.
  destruct (Nat.ltb_spec (length audio_segments) 2) as [_|H']; [reflexivity | lia].
Qed.

(** C5. For a duration less than or equal to zero the silence generator
    raises [ValueError] and leaves the state as it found it, so no tool
    was run; for a duration greater than zero the check lets the call
    through to the block that runs the tool. *)
Theorem silence_duration_check
    (duration_seconds : spec_float) (sample_rate : Z) (st : state World) :
  (at_most_zero duration_seconds ->
   synthesize_silence_segment duration_seconds sample_rate st
   = (Raise (ValueError (lit "duration_seconds must be greater than zero")), st))
  /\ (above_zero duration_seconds ->
      synthesize_silence_segment duration_seconds sample_rate st
      = silence_body duration_seconds sample_rate st).
Proof.
  unfold synthesize_silence_segment. split; intros H.
  - apply SFleb_zero in H. now rewrite H.
  - apply above_zero_not_SFleb in H. now rewrite H.
Qed.

(** A successful call of the synthesizer is one POST of the prepared
    transcript, answered by the service. *)
Lemma tts_ok key transcript st clip st' :
  synthesize_cartesia_tts key transcript st = (Ok clip, st') ->
  trace st' = trace st ++ tts_events key transcript.
Proof. unfold synthesize_cartesia_tts. intros H. now apply perform_ok in H. Qed.

Lemma silence_body_ok d sr st z st' :
  silence_body d sr st = (Ok z, st') ->
  exists dir, trace st' = trace st ++ silence_events dir d sr.
Proof.
  unfold silence_body. intros H.
  apply with_tempdir_ok in H as (dir & st1 & st2 & T1 & H & T2).
  step H. apply perform_ok in Hrun as [_ Ta]. apply perform_ok in H as [_ Tb].
  exists dir. rewrite T2, Tb, Ta, T1. unfold silence_events.
  now rewrite <- !app_assoc.
Qed.

Lemma silence_ok d sr st z st' :
  synthesize_silence_segment d sr st = (Ok z, st') ->
  exists dir, trace st' = trace st ++ silence_events dir d sr.
Proof.
  unfold synthesize_silence_segment.
  destruct (SFleb d float_zero); [discriminate|]. apply silence_body_ok.
Qed.

Lemma write_segments_ok base segments : forall idx st paths st',
  write_segments base idx segments st = (Ok paths, st') ->
  paths = segment_paths base idx segments
  /\ trace st' = trace st ++ segment_writes base idx segments.
Proof.
  induction segments as [|seg rest IH]; intros idx st paths st' H; simpl in H.
  - step H. simpl. now rewrite app_nil_r.
  - step H. step H. step H.
    apply perform_ok in Hrun as [_ Ta].
    apply IH in Hrun0 as [-> Tb]. split; [reflexivity|].
    rewrite Tb, Ta. simpl. now rewrite <- app_assoc.
Qed.

Lemma concat_ok segments fmt st out st' :
  concatenate_audio_segments segments fmt st = (Ok out, st') ->
  (2 <= length segments)%nat
  /\ exists dir, trace st' = trace st ++ concat_events dir segments fmt.
Proof.
  unfold concatenate_audio_segments.
  destruct (Nat.ltb_spec (length segments) 2) as [|Hlen]; [discriminate|].
  intros H. split; [exact Hlen|].
  apply with_tempdir_ok in H as (dir & st1 & st2 & T1 & H & T2).
  step H. apply write_segments_ok in Hrun as [-> Tw].
  step H. apply perform_ok in Hrun as [_ Ta]. apply perform_ok in H as [_ Tb].
  exists dir. rewrite T2, Tb, Ta, Tw, T1. unfold concat_events.
  now rewrite <- !app_assoc.
Qed.

End WithEnvironment.

Lemma concatenate_rejects_short_input_witness :
  concatenate_audio_segments [Scripted.clip] (lit "wav") Scripted.start
  = (Raise (ValueError (lit "Need at least two audio segments to concatenate")),
     Scripted.start).
Proof.
  apply (@concatenate_rejects_short_input _ _ [Scripted.clip] (lit "wav") Scripted.start).
  simpl. lia.
Defined.

Lemma silence_duration_check_witness :
  synthesize_silence_segment (S754_finite true 1 0) 44100 Scripted.start
  = (Raise (ValueError (lit "duration_seconds must be greater than zero")),
     Scripted.start)
  /\ synthesize_silence_segment float_0_8 44100 Scripted.start
     = silence_body float_0_8 44100 Scripted.start.
Proof.
  split.
  - apply (proj1 (@silence_duration_check _ _ (S754_finite true 1 0) 44100 Scripted.start)).
    reflexivity.
  - apply (proj2 (@silence_duration_check _ _ float_0_8 44100 Scripted.start)).
    reflexivity.
Defined.

End AudioFacts.

(* ================================================================== *)
(** * Timestamps *)
(* ================================================================== *)

Module DateTimeFacts.
Import PyStr DateTime.
Local Open Scope Z_scope.

Lemma digit_inj a b : digit a = digit b -> a mod 10 = b mod 10.
Proof.
  unfold digit. intros H.
  assert (Ha : 0 <= a mod 10 < 10) by (apply Z.mod_pos_bound; lia).
  assert (Hb : 0 <= b mod 10 < 10) by (apply Z.mod_pos_bound; lia).
  apply (f_equal N_of_ascii) in H.
  rewrite !N_ascii_embedding in H by lia.
  generalize dependent (a mod 10). generalize dependent (b mod 10).
  intros. lia.
Qed.

Lemma pad2_inj a b :
  0 <= a < 100 -> 0 <= b < 100 -> pad2 a = pad2 b -> a = b.
Proof.
  unfold pad2. intros Ha Hb H. injection H as H1 H0.
  apply digit_inj in H1, H0. Z.div_mod_to_equations. lia.
Qed.

Lemma pad4_inj a b :
  0 <= a < 10000 -> 0 <= b < 10000 -> pad4 a = pad4 b -> a = b.
Proof.
  unfold pad4. intros Ha Hb H. injection H as H3 H2 H1 H0.
  apply digit_inj in H3, H2, H1, H0. Z.div_mod_to_equations. lia.
Qed.

(** The stamp of the source's format, field by field. *)
Lemma stamp_fields (fmt := lit "%Y%m%dT%H%M%SZ") t :
  strftime fmt t
  = pad4 (year t) ++ pad2 (month t) ++ pad2 (day t) ++ lit "T"
    ++ pad2 (hour t) ++ pad2 (minute t) ++ pad2 (second t) ++ lit "Z".
Proof. reflexivity. Qed.

Lemma stamp_length t : length (strftime (lit "%Y%m%dT%H%M%SZ") t) = 16%nat.
Proof. reflexivity. Qed.

Lemma days_in_month_le y m : days_in_month y m <= 31.
Proof.
  unfold days_in_month.
  destruct (m =? 2); [destruct (is_leap y); lia|].
  destruct ((m =? 4) || (m =? 6) || (m =? 9) || (m =? 11))%bool; lia.
Qed.

(** Two valid datetimes with the same stamp agree up to the second. *)
Lemma stamp_inj a b :
  valid a -> valid b ->
  strftime (lit "%Y%m%dT%H%M%SZ") a = strftime (lit "%Y%m%dT%H%M%SZ") b ->
  year a = year b /\ month a = month b /\ day a = day b
  /\ hour a = hour b /\ minute a = minute b /\ second a = second b.
Proof.
  intros (Hy & Hm & Hd & Hh & Hmi & Hs & _) (Hy' & Hm' & Hd' & Hh' & Hmi' & Hs' & _) H.
  pose proof (days_in_month_le (year a) (month a)).
  pose proof (days_in_month_le (year b) (month b)).
  rewrite !stamp_fields in H.
  assert (E4 : pad4 (year a) = pad4 (year b)
               /\ pad2 (month a) = pad2 (month b) /\ pad2 (day a) = pad2 (day b)
               /\ pad2 (hour a) = pad2 (hour b) /\ pad2 (minute a) = pad2 (minute b)
               /\ pad2 (second a) = pad2 (second b)).
  { unfold pad4, pad2 in *. simpl in H.
    injection H as -> -> -> -> -> -> -> -> -> -> -> -> -> ->.
    repeat split. }
  destruct E4 as (Ey & Em & Ed & Eh & Emi & Es).
  split; [apply pad4_inj; auto; lia|].
  repeat split; apply pad2_inj; auto; lia.
Qed.

(** Datetimes that agree up to the second are less than a second apart. *)
Lemma same_second_close a b :
  valid a -> valid b ->
  year a = year b -> month a = month b -> day a = day b ->
  hour a = hour b -> minute a = minute b -> second a = second b ->
  Z.abs (to_microseconds a - to_microseconds b) < 1000000.
Proof.
  intros (_ & _ & _ & _ & _ & _ & Hu) (_ & _ & _ & _ & _ & _ & Hu').
  destruct a as [y m d h mi s u], b as [y' m' d' h' mi' s' u']. simpl in *.
  intros -> -> -> -> -> ->.
  unfold to_microseconds, toordinal. simpl. lia.
Qed.

End DateTimeFacts.

(* ================================================================== *)
(** * agent_core.py: the story writer and the output persister *)
(* ================================================================== *)

Module AgentFacts.
Import PyStr PyStrFacts Models DateTime DateTimeFacts Effects AgentCore.
Import Vocabulary EffectFacts.

Lemma length_ok_iff {A} (l : list A) : length_ok l = true <-> length l = STORY_COUNT.
Proof.
  unfold length_ok. rewrite andb_true_iff, !Nat.leb_le. lia.
Qed.

Lemma topic_slug_length topic : (length (topic_slug topic) <= 60)%nat.
Proof.
  unfold topic_slug, or_else, slice_to.
  pose proof (firstn_le_length 60 (join (lit "-") (split (lower topic)))) as H.
  destruct (firstn 60 (join (lit "-") (split (lower topic)))); simpl in *; lia.
Qed.

Lemma topic_slug_not_empty topic : topic_slug topic <> [].
Proof.
  unfold topic_slug, or_else.
  destruct (slice_to 60 (join (lit "-") (split (lower topic)))); discriminate.
Qed.

(** The lines of the rendering, gathered by the loop. *)
Lemma gather_lines stories : forall lines,
  fold_left (fun lines story => lines ++ story_lines story) stories lines
  = lines ++ flat_map story_lines stories.
Proof.
  induction stories as [|s rest IH]; intros lines; simpl.
  - now rewrite app_nil_r.
  - rewrite IH. now rewrite <- app_assoc.
Qed.

Lemma join_cons sep p q rest :
  join sep (p :: q :: rest) = p ++ sep ++ join sep (q :: rest).
Proof. reflexivity. Qed.

(** The text of the stories: each one preceded by a line break, then its
    numbered headline, its body and an empty line. *)
Lemma join_story_lines stories :
  join newline ([] :: flat_map story_lines stories)
  = concat (map (fun story =>
      newline ++ str_of_int (WrittenStory.index story) ++ lit ". "
      ++ WrittenStory.headline story ++ newline
      ++ WrittenStory.story story ++ newline) stories).
Proof.
  induction stories as [|s rest IH]; [reflexivity|].
  cbn [flat_map story_lines app map concat].
  rewrite !join_cons. cbn [app]. rewrite <- !app_assoc.
  do 7 apply f_equal. exact IH.
Qed.

Lemma render_story_text_lines written :
  render_story_text written
  = join newline
      ((lit "Topic: " ++ WrittenStories.topic written) :: [] :: lit "Generated stories:"
       :: [] :: flat_map story_lines (WrittenStories.stories written)).
Proof. unfold render_story_text. now rewrite gather_lines. Qed.

Lemma numbered_story_lines stories : forall n,
  indexed_from n stories ->
  flat_map story_lines stories = lines_numbered_from n stories.
Proof.
  induction stories as [|story rest IH]; intros n H; [reflexivity|].
  destruct H as [Hn Hrest]. simpl. unfold story_lines at 1. rewrite Hn.
  simpl. do 3 f_equal. now apply IH.
Qed.

Section WithEnvironment.
Context {World : Type} {env : Environment World}.

(** What a successful [save_outputs] did. *)
Lemma save_outputs_ok output_dir plan written st run_dir st' :
  save_outputs output_dir plan written st = (Ok run_dir, st') ->
  run_dir = joinpath output_dir
              (run_dir_name (StoryPlan.topic plan) (fst (datetime_now (world st))))
  /\ trace st' = trace st ++
       [ EvNow; EvMkdir run_dir;
         EvWriteText (joinpath run_dir (lit "story_plan.json"))
                     (json_dumps (Some 2%nat) (dump_plan plan));
         EvWriteText (joinpath run_dir (lit "written_stories.json"))
                     (json_dumps (Some 2%nat) (dump_written written));
         EvWriteText (joinpath run_dir (lit "written_stories.txt"))
                     (render_story_text written) ].
Proof.
  unfold save_outputs. intros H.
  step H. apply perform_ok in Hrun as [Hnow T0]. apply total_ok in Hnow.
  step H. apply perform_ok in Hrun as [_ T1].
  step H. apply perform_ok in Hrun as [_ T2].
  step H. apply perform_ok in Hrun as [_ T3].
  step H. apply perform_ok in Hrun as [_ T4].
  step H. rewrite Hnow. simpl fst. split; [reflexivity|].
  rewrite T4, T3, T2, T1, T0. now rewrite <- !app_assoc.
Qed.

(** C2, as the code has it.  What the story writer returns is the answer
    of the backend to the writer prompt for this plan, accepted because
    its list of stories has exactly [STORY_COUNT] = 3 entries; the
    indices and headlines in it are the backend's. *)
Theorem write_full_stories_returns_backend_answer
    (plan : StoryPlan.t) (model_name provider_name gateway_api_key : str)
    (st st' : state World) (out : WrittenStories.t) :
  write_full_stories plan model_name provider_name gateway_api_key st = (Ok out, st') ->
  length (WrittenStories.stories out) = STORY_COUNT
  /\ exists w,
       run_sync_written
         (AgentCall model_name provider_name gateway_api_key writer_system_prompt
            (writer_prompt plan)) w
       = (Ok out, world st').
Proof.
  unfold write_full_stories. intros H.
  step H. step H. unfold validate_written in H.
  destruct (length_ok (WrittenStories.stories a0)) eqn:Hlen; [|discriminate].
  step H. apply length_ok_iff in Hlen. split; [exact Hlen|].
  apply perform_ok in Hrun0 as [Hcall _].
  unfold build_agent in Hrun.
  destruct (startswith (lit "gateway/") model_name).
  - step Hrun. step Hrun. eexists. exact Hcall.
  - step Hrun. eexists. exact Hcall.
Qed.

(** C3. The run directory is named by the slug of the topic (lowercased,
    its words joined by hyphens, cut to 60 characters, ["topic"] if that
    is empty), an underscore and the UTC time as [YYYYMMDDTHHMMSSZ]; for
    one topic, two invocation times at least one second apart give
    different names. *)
Theorem run_directory_name (output_dir : str) (plan : StoryPlan.t)
    (written : WrittenStories.t) (st : state World) (now1 now2 : datetime) :
  let topic := StoryPlan.topic plan in
  valid now1 -> valid now2 ->
  (forall run_dir st',
     save_outputs output_dir plan written st = (Ok run_dir, st') ->
     run_dir = joinpath output_dir
                 (run_dir_name topic (fst (datetime_now (world st)))))
  /\ run_dir_name topic now1
     = topic_slug topic ++ lit "_"
       ++ pad4 (year now1) ++ pad2 (month now1) ++ pad2 (day now1) ++ lit "T"
       ++ pad2 (hour now1) ++ pad2 (minute now1) ++ pad2 (second now1) ++ lit "Z"
  /\ topic_slug topic
     = match firstn 60 (join (lit "-") (split (lower topic))) with
       | [] => lit "topic"
       | slug => slug
       end
  /\ (length (topic_slug topic) <= 60)%nat
  /\ (1000000 <= Z.abs (to_microseconds now1 - to_microseconds now2)
      -> run_dir_name topic now1 <> run_dir_name topic now2)%Z.
Proof.
  intros topic V1 V2. split; [|split; [|split; [|split]]].
  - intros run_dir st' H. now apply save_outputs_ok in H.
  - reflexivity.
  - unfold topic_slug, or_else, slice_to.
    now destruct (firstn 60 (join (lit "-") (split (lower topic)))).
  - apply topic_slug_length.
  - intros Hfar E. unfold run_dir_name in E.
    apply app_inv_head in E. apply app_inv_head in E.
    destruct (stamp_inj V1 V2 E) as (Ey & Em & Ed & Eh & Emi & Es).
    pose proof (same_second_close V1 V2 Ey Em Ed Eh Emi Es). lia.
Qed.

(** C8. A successful run of the persister writes exactly three files
    into the run directory: the plan as JSON indented by 2, the written
    stories as JSON indented by 2, and the plain-text rendering.  The
    rendering is the lines ["Topic: " + topic], an empty line, the
    heading, an empty line, and for each story in order the line of its
    index and headline, its body and an empty line, joined by line
    breaks; so it begins with ["Topic: " + topic] and a line break.  The
    index printed is the [index] field of the story, which is its
    1-based position when the stories are indexed 1, 2, ... *)
Theorem save_outputs_writes_three_files (output_dir : str) (plan : StoryPlan.t)
    (written : WrittenStories.t) (st st' : state World) (run_dir : str) :
  save_outputs output_dir plan written st = (Ok run_dir, st') ->
  (exists others,
     trace st' = trace st ++ others
     /\ filter (fun ev => match ev with
                          | EvWriteText _ _ | EvWriteBytes _ _ => true
                          | _ => false end) others
        = [ EvWriteText (joinpath run_dir (lit "story_plan.json"))
                        (json_dumps (Some 2%nat) (dump_plan plan));
            EvWriteText (joinpath run_dir (lit "written_stories.json"))
                        (json_dumps (Some 2%nat) (dump_written written));
            EvWriteText (joinpath run_dir (lit "written_stories.txt"))
                        (render_story_text written) ])
  /\ render_story_text written
     = join newline
         ((lit "Topic: " ++ WrittenStories.topic written) :: [] :: lit "Generated stories:"
          :: [] ::
          flat_map (fun story =>
            [ str_of_int (WrittenStory.index story) ++ lit ". "
              ++ WrittenStory.headline story;
              WrittenStory.story story;
              [] ]) (WrittenStories.stories written))
  /\ render_story_text written
     = lit "Topic: " ++ WrittenStories.topic written ++ newline
       ++ newline ++ lit "Generated stories:" ++ newline
       ++ concat (map (fun story =>
            newline ++ str_of_int (WrittenStory.index story) ++ lit ". "
            ++ WrittenStory.headline story ++ newline
            ++ WrittenStory.story story ++ newline)
            (WrittenStories.stories written))
  /\ (indexed_from 1 (WrittenStories.stories written) ->
      render_story_text written
      = join newline
          ((lit "Topic: " ++ WrittenStories.topic written) :: []
           :: lit "Generated stories:" :: []
           :: lines_numbered_from 1 (WrittenStories.stories written))).
Proof.
  intros H. apply save_outputs_ok in H as [_ T]. split; [|split; [|split]].
  - eexists. split; [exact T | reflexivity].
  - apply render_story_text_lines.
  - rewrite render_story_text_lines, !join_cons, join_story_lines.
    cbn [app]. now rewrite <- !app_assoc.
  - intros Hidx. rewrite render_story_text_lines.
    now rewrite (numbered_story_lines _ 1 Hidx).
Qed.

End WithEnvironment.

(** C2, as the specification words it, fails: a backend whose answer has
    three stories numbered from zero, the first under another headline,
    is returned as it came. *)
Lemma write_full_stories_order_not_enforced :
  ~ (forall (World : Type) (env : Environment World) plan model provider key
            (st st' : state World) out,
       write_full_stories plan model provider key st = (Ok out, st') ->
       order_preserved plan out).
Proof.
  intros H.
  specialize (H Scripted.World Scripted.env Scripted.some_plan
                (lit "gateway/openai:gpt-5.2") (lit "openai") (lit "paig_k")
                Scripted.start _ _ eq_refl).
  destruct (H 0%nat) as (idea & story & Hi & Hs & Hidx & _); [unfold STORY_COUNT; lia|].
  simpl in Hs. injection Hs as <-. discriminate.
Qed.

Lemma write_full_stories_returns_backend_answer_witness :
  length (WrittenStories.stories Scripted.backend_answer) = STORY_COUNT
  /\ exists w,
       run_sync_written
         (AgentCall (lit "m") (lit "openai") (lit "paig_k") writer_system_prompt
            (writer_prompt Scripted.some_plan)) w
       = (Ok Scripted.backend_answer, 1%nat).
Proof.
  exact (@write_full_stories_returns_backend_answer _ Scripted.env
           Scripted.some_plan (lit "m") (lit "openai") (lit "paig_k")
           Scripted.start
           (snd (write_full_stories Scripted.some_plan (lit "m") (lit "openai")
                   (lit "paig_k") Scripted.start))
           Scripted.backend_answer eq_refl).
Defined.

Lemma run_directory_name_witness :
  run_dir_name (lit "Coral  Reef bleaching") Scripted.noon
  <> run_dir_name (lit "Coral  Reef bleaching") (DateTime.make 2025 1 1 0 0 1 0).
Proof.
  assert (V1 : valid Scripted.noon) by (repeat split; vm_compute; congruence).
  assert (V2 : valid (DateTime.make 2025 1 1 0 0 1 0))
    by (repeat split; vm_compute; congruence).
  apply (@run_directory_name _ Scripted.env (lit "out")
           (StoryPlan.make (lit "Coral  Reef bleaching") []) Scripted.some_written
           Scripted.start Scripted.noon (DateTime.make 2025 1 1 0 0 1 0) V1 V2).
  vm_compute. congruence.
Defined.

Lemma save_outputs_writes_three_files_witness :
  render_story_text Scripted.some_written
  = join newline
      ((lit "Topic: " ++ lit "coral reef bleaching") :: []
       :: lit "Generated stories:" :: []
       :: lines_numbered_from 1 (WrittenStories.stories Scripted.some_written)).
Proof.
  refine (proj2 (proj2 (proj2
    (@save_outputs_writes_three_files _ Scripted.env (lit "output")
       Scripted.some_plan Scripted.some_written Scripted.start
       (snd (save_outputs (lit "output") Scripted.some_plan
               Scripted.some_written Scripted.start))
       (lit "output/coral-reef-bleaching_20250101T000000Z") _))) _).
  - reflexivity.
  - simpl. repeat split.
Defined.

End AgentFacts.

(* ================================================================== *)
(** * cli.py: the audio stage *)
(* ================================================================== *)

Module CliFacts.
Import PyStr Models Effects AudioText AudioUtils Traces Cli.
Import EffectFacts AudioFacts.

Section WithEnvironment.
Context {World : Type} {env : Environment World}.

Lemma combine_nothing (st : state World) : combine_segments [] st = (Ok [], st).
Proof. reflexivity. Qed.

Lemma combine_single (only : bytes) (st : state World) :
  combine_segments [only] st = (Ok only, st).
Proof. reflexivity. Qed.

(** With one story there is one synthesizer call and its clip is the
    result. *)
Lemma one_story_is_one_clip key topic s1 (st : state World) :
  synthesize_and_combine key (WrittenStories.make topic [s1]) st
  = synthesize_cartesia_tts key
      (_story_tts_transcript (WrittenStory.headline s1) (WrittenStory.story s1)) st.
Proof.
  unfold synthesize_and_combine. simpl. unfold bind.
  destruct (synthesize_cartesia_tts key _ st) as [[clip|e] st1]; reflexivity.
Qed.

(** The loop of app.py makes the calls of the loop of cli.py and gathers
    the same segments. *)
Lemma app_loop_is_cli_loop key stories : forall total idx clips segments (st : state World),
  on_result snd (App.synthesize_segments key total idx stories clips segments st)
  = synthesize_segments key total idx stories segments st.
Proof.
  induction stories as [|story rest IH]; intros total idx clips segments st;
    [reflexivity|].
  simpl. unfold bind.
  change (App._story_tts_transcript (WrittenStory.headline story) (WrittenStory.story story))
    with (_story_tts_transcript (WrittenStory.headline story) (WrittenStory.story story)).
  destruct (synthesize_cartesia_tts key _ st) as [[clip|e] st1]; [|reflexivity].
  destruct (idx + 1 <? total)%nat; [|apply IH].
  destruct (synthesize_silence_segment float_0_8 44100 st1) as [[z|e] st2];
    [apply IH | reflexivity].
Qed.

Lemma cli_loop_grows key stories : forall total idx segments (st st' : state World) out,
  synthesize_segments key total idx stories segments st = (Ok out, st') ->
  (length segments + length stories <= length out)%nat.
Proof.
  induction stories as [|story rest IH]; intros total idx segments st st' out H.
  - simpl in H. step H. simpl. lia.
  - simpl in H. step H. destruct (idx + 1 <? total)%nat.
    + step H. apply IH in H. rewrite !length_app in H. simpl in *. lia.
    + apply IH in H. rewrite !length_app in H. simpl in *. lia.
Qed.

(** With at least one story, the audio stage of app.py runs as the one
    of cli.py does and ends with the same combined audio. *)
Lemma app_stage_is_cli_stage key written (st : state World) :
  WrittenStories.stories written <> [] ->
  on_result snd (App.synthesize_and_combine key written st)
  = on_result Some (synthesize_and_combine key written st).
Proof.
  intros Hne. unfold App.synthesize_and_combine, synthesize_and_combine.
  set (stories := WrittenStories.stories written) in *.
  unfold bind.
  pose proof (app_loop_is_cli_loop key stories (length stories) 0 [] [] st) as E.
  destruct (App.synthesize_segments key (length stories) 0 stories [] [] st)
    as [[[clips segments]|e] st1]; simpl in E; rewrite <- E; [|reflexivity].
  symmetry in E. apply cli_loop_grows in E.
  cbn [snd fst]. unfold App.combine_segments, combine_segments.
  destruct (2 <=? length segments)%nat.
  - unfold bind.
    destruct (concatenate_audio_segments segments (lit "wav") st1) as [[b|e] st2];
      reflexivity.
  - destruct segments as [|first more]; [|reflexivity].
    destruct stories; [contradiction | simpl in E; lia].
Qed.

(** What the audio stage does with a non-empty combined audio: it writes
    the file, uploads it and writes the URL. *)
Lemma audio_stage_upload key prefix zone access region run_dir written
    (st st' : state World) url :
  audio_stage key prefix zone access region run_dir written st = (Ok (Some url), st') ->
  exists combined st1,
    synthesize_and_combine key written st = (Ok combined, st1)
    /\ combined <> []
    /\ url = lit "https://" ++ _normalize_bunny_storage_host region ++ lit "/"
             ++ zone ++ lit "/"
             ++ normalize_object_path
                  (prefix ++ lit "/" ++ path_name run_dir
                   ++ lit "/written_stories_audio.wav")
    /\ trace st' = trace st1 ++
         [ EvWriteBytes (joinpath run_dir (lit "written_stories_audio.wav")) combined;
           EvPut url access (lit "audio/wav") combined;
           EvWriteText (joinpath run_dir (lit "written_stories_audio_bunny_url.txt"))
                       url ].
Proof.
  unfold audio_stage. intros H. step H.
  destruct a as [|b combined]; [step H; discriminate|].
  exists (b :: combined), st0. split; [exact Hrun|]. split; [discriminate|].
  step H. apply perform_ok in Hrun0 as [_ T1].
  step H. unfold upload_bytes_to_bunny_storage in Hrun0.
  destruct (normalize_object_path _) as [|p path] eqn:Ep in Hrun0; [discriminate|].
  step Hrun0. apply perform_ok in Hrun1 as [_ T2]. step Hrun0.
  step H. apply perform_ok in Hrun0 as [_ T3].
  apply ret_ok in H as [Hu <-]. injection Hu as <-. rewrite Ep. split; [reflexivity|].
  rewrite T3, T2, T1. now rewrite <- !app_assoc.
Qed.

(** For any number of stories, a successful run of the loop posts one
    synthesis request per story, in the order of the stories. *)
Lemma loop_posts_once_per_story key stories :
  forall total idx segments (st st' : state World) out,
    synthesize_segments key total idx stories segments st = (Ok out, st') ->
    exists new,
      trace st' = trace st ++ new
      /\ filter is_post new
         = flat_map (fun story =>
             tts_events key (_story_tts_transcript (WrittenStory.headline story)
                                                   (WrittenStory.story story)))
             stories.
Proof.
  induction stories as [|story rest IH]; intros total idx segments st st' out H.
  - simpl in H. step H. exists []. now rewrite app_nil_r.
  - simpl in H. step H. apply tts_ok in Hrun.
    destruct (idx + 1 <? total)%nat.
    + step H. apply silence_ok in Hrun0 as [dir Tz].
      apply IH in H as (new & T & Hposts).
      exists (tts_events key (_story_tts_transcript (WrittenStory.headline story)
                                                    (WrittenStory.story story))
              ++ silence_events dir float_0_8 44100 ++ new).
      split.
      * rewrite T, Tz, Hrun. now rewrite <- !app_assoc.
      * simpl. now rewrite Hposts.
    + apply IH in H as (new & T & Hposts).
      exists (tts_events key (_story_tts_transcript (WrittenStory.headline story)
                                                    (WrittenStory.story story))
              ++ new).
      split.
      * rewrite T, Hrun. now rewrite <- !app_assoc.
      * simpl. now rewrite Hposts.
Qed.

(** C1. A successful run of the audio stage on three written stories is
    this sequence of calls and no other effect: the synthesizer on story
    1, the silence generator with 0.8 seconds, the synthesizer on story
    2, the silence generator, the synthesizer on story 3 and, once, the
    combiner on the five buffers in that order, whose result is the
    combined audio.  On a list of no or one segment the combiner is not
    called: the state is untouched and the result is the empty buffer or
    the one segment.  The audio stage of app.py runs the same way and
    ends with the same combined audio. *)
Theorem audio_stage_three_stories (key topic : str) (s1 s2 s3 : WrittenStory.t)
    (st st' : state World) (combined : bytes) :
  let transcript := fun s =>
    _story_tts_transcript (WrittenStory.headline s) (WrittenStory.story s) in
  synthesize_and_combine key (WrittenStories.make topic [s1; s2; s3]) st
  = (Ok combined, st') ->
  (exists c1 z1 c2 z2 c3 st1 st2 st3 st4 st5,
     synthesize_cartesia_tts key (transcript s1) st = (Ok c1, st1)
     /\ synthesize_silence_segment float_0_8 44100 st1 = (Ok z1, st2)
     /\ synthesize_cartesia_tts key (transcript s2) st2 = (Ok c2, st3)
     /\ synthesize_silence_segment float_0_8 44100 st3 = (Ok z2, st4)
     /\ synthesize_cartesia_tts key (transcript s3) st4 = (Ok c3, st5)
     /\ concatenate_audio_segments [c1; z1; c2; z2; c3] (lit "wav") st5
        = (Ok combined, st')
     /\ exists d1 d2 d3,
          trace st' = trace st
            ++ tts_events key (transcript s1) ++ silence_events d1 float_0_8 44100
            ++ tts_events key (transcript s2) ++ silence_events d2 float_0_8 44100
            ++ tts_events key (transcript s3)
            ++ concat_events d3 [c1; z1; c2; z2; c3] (lit "wav"))
  /\ (forall st0 : state World, combine_segments [] st0 = (Ok [], st0))
  /\ (forall only (st0 : state World), combine_segments [only] st0 = (Ok only, st0))
  /\ on_result snd
       (App.synthesize_and_combine key (WrittenStories.make topic [s1; s2; s3]) st)
     = (Ok (Some combined), st').
Proof.
  intros transcript H.
  split; [|split; [apply combine_nothing | split; [apply combine_single|]]];
    [|rewrite app_stage_is_cli_stage by discriminate; now rewrite H].
  unfold synthesize_and_combine in H. simpl in H.
  step H. rename Hrun into Hloop.
  step Hloop. rename Hrun into Hc1, a0 into c1, st1 into sa.
  step Hloop. rename Hrun into Hz1, a0 into z1, st1 into sb.
  step Hloop. rename Hrun into Hc2, a0 into c2, st1 into sc.
  step Hloop. rename Hrun into Hz2, a0 into z2, st1 into sd.
  step Hloop. rename Hrun into Hc3, a0 into c3, st1 into se.
  step Hloop. unfold combine_segments in H. simpl in H.
  exists c1, z1, c2, z2, c3, sa, sb, sc, sd, st0.
  repeat (split; [assumption|]).
  apply tts_ok in Hc1, Hc2, Hc3.
  apply silence_ok in Hz1 as [d1 Tz1], Hz2 as [d2 Tz2].
  apply concat_ok in H as [_ [d3 Tc]].
  exists d1, d2, d3.
  rewrite Tc, Hc3, Tz2, Hc2, Tz1, Hc1. now rewrite <- !app_assoc.
Qed.

End WithEnvironment.

Lemma audio_stage_three_stories_witness :
  exists c1 z1 c2 z2 c3 d1 d2 d3,
    trace (snd (synthesize_and_combine (lit "k") Scripted.some_written Scripted.start))
    = tts_events (lit "k") (lit "H1. NATO met.")
      ++ silence_events d1 float_0_8 44100
      ++ tts_events (lit "k") (lit "H2. b")
      ++ silence_events d2 float_0_8 44100
      ++ tts_events (lit "k") (lit "H3. c")
      ++ concat_events d3 [c1; z1; c2; z2; c3] (lit "wav").
Proof.
  assert (Hrun : synthesize_and_combine (lit "k") Scripted.some_written Scripted.start
                 = (Ok Scripted.mixed,
                    snd (synthesize_and_combine (lit "k") Scripted.some_written
                           Scripted.start)))
    by (vm_compute; reflexivity).
  destruct (@audio_stage_three_stories _ Scripted.env (lit "k")
              (lit "coral reef bleaching")
              (WrittenStory.make 1 (lit "H1") (lit "NATO met. "))
              (WrittenStory.make 2 (lit "H2") (lit "b"))
              (WrittenStory.make 3 (lit "H3") (lit "c"))
              Scripted.start
              (snd (synthesize_and_combine (lit "k") Scripted.some_written Scripted.start))
              Scripted.mixed Hrun)
    as [(c1 & z1 & c2 & z2 & c3 & _ & _ & _ & _ & _ & _ & _ & _ & _ & _ & _ & d1 & d2 & d3 & T) _].
  exists c1, z1, c2, z2, c3, d1, d2, d3. exact T.
Defined.

End CliFacts.

(* ================================================================== *)
(** * Maximal runs of characters *)
(* ================================================================== *)

Module RunFacts.
Import PyStr PyStrFacts.

Section Runs.
Variable f : ascii -> bool.

Lemma flush_rev u : u <> [] -> flush (rev u) = [u].
Proof.
  intros H. unfold flush. destruct (rev u) eqn:E.
  - apply (f_equal (@length _)) in E. rewrite length_rev in E.
    destruct u; [contradiction | discriminate].
  - now rewrite <- E, rev_involutive.
Qed.

(** Reading a run of [f]-characters only extends the run being read. *)
Lemma runs_aux_run u : forall cur s,
  all_in f u -> runs_aux f cur (u ++ s) = runs_aux f (rev u ++ cur) s.
Proof.
  induction u as [|c u IH]; intros cur s H; [reflexivity|].
  inversion H as [|? ? Hc Hu]; subst. simpl. rewrite Hc, IH by assumption.
  now rewrite <- app_assoc.
Qed.

Lemma runs_nil : runs f [] = [].
Proof. reflexivity. Qed.

Lemma runs_sep c s : f c = false -> runs f (c :: s) = runs f s.
Proof. intros H. unfold runs. simpl. now rewrite H. Qed.

Lemma runs_single u : u <> [] -> all_in f u -> runs f u = [u].
Proof.
  intros Hne H. unfold runs. rewrite <- (app_nil_r u) at 1.
  rewrite runs_aux_run by assumption. simpl. rewrite app_nil_r.
  now apply flush_rev.
Qed.

Lemma runs_run_sep u c s :
  u <> [] -> all_in f u -> f c = false -> runs f (u ++ c :: s) = u :: runs f s.
Proof.
  intros Hne H Hc. unfold runs. rewrite runs_aux_run by assumption.
  simpl. rewrite Hc, app_nil_r, flush_rev by assumption. reflexivity.
Qed.

(** A character outside [f] separates the runs on its two sides. *)
Lemma runs_aux_app_sep a : forall cur c b,
  f c = false -> runs_aux f cur (a ++ c :: b) = runs_aux f cur a ++ runs f b.
Proof.
  induction a as [|x a IH]; intros cur c b Hc; simpl.
  - now rewrite Hc.
  - destruct (f x); rewrite IH by assumption; [reflexivity|].
    now rewrite app_assoc.
Qed.

Lemma runs_app_sep a c b :
  f c = false -> runs f (a ++ c :: b) = runs f a ++ runs f b.
Proof. apply runs_aux_app_sep. Qed.

(** A text is empty, or begins with a character outside [f], or begins
    with a non-empty run that ends the text or is followed by a
    character outside [f]. *)
Lemma run_cases s :
  s = []
  \/ (exists c rest, s = c :: rest /\ f c = false)
  \/ (exists u, s = u /\ u <> [] /\ all_in f u)
  \/ (exists u c rest, s = u ++ c :: rest /\ u <> [] /\ all_in f u /\ f c = false).
Proof.
  destruct s as [|x s]; [now left | right].
  destruct (f x) eqn:Hx; [right | left; now exists x, s].
  destruct (lstrip_by_split f s) as (l & E & Hl & Hh).
  destruct (lstrip_by f s) as [|c rest].
  - left. exists (x :: l). rewrite app_nil_r in E. subst l.
    split; [reflexivity|]. split; [discriminate|]. now constructor.
  - right. exists (x :: l), c, rest. rewrite E at 1.
    split; [reflexivity|]. split; [discriminate|]. split; [now constructor | exact Hh].
Qed.

(** Induction along the runs of a text. *)
Lemma run_ind (P : str -> Prop) :
  P [] ->
  (forall c rest, f c = false -> P rest -> P (c :: rest)) ->
  (forall u, u <> [] -> all_in f u -> P u) ->
  (forall u c rest, u <> [] -> all_in f u -> f c = false -> P rest ->
                    P (u ++ c :: rest)) ->
  forall s, P s.
Proof.
  intros Hnil Hsep Hlast Hrun s.
  remember (length s) as n eqn:En. revert s En.
  induction n as [n IH] using lt_wf_ind. intros s En.
  destruct (run_cases s) as [->|[(c & rest & -> & Hc)|[(u & -> & Hne & Hu)
                            |(u & c & rest & -> & Hne & Hu & Hc)]]].
  - exact Hnil.
  - apply Hsep; [exact Hc|]. apply (IH (length rest)); [|reflexivity].
    subst n. simpl. lia.
  - now apply Hlast.
  - apply Hrun; auto. apply (IH (length rest)); [|reflexivity].
    subst n. rewrite length_app. simpl. lia.
Qed.

(** Two ways of cutting a text after a run: the runs are the same. *)
Lemma run_unique u : forall v rest rest',
  all_in f u -> all_in f v ->
  match rest with [] => True | c :: _ => f c = false end ->
  match rest' with [] => True | c :: _ => f c = false end ->
  u ++ rest = v ++ rest' -> u = v.
Proof.
  induction u as [|a u IH]; intros [|b v] rest rest' Hu Hv Hr Hr' E; simpl in E.
  - reflexivity.
  - subst rest. inversion Hv; subst. congruence.
  - subst rest'. inversion Hu; subst. congruence.
  - injection E as -> E. f_equal.
    inversion Hu; inversion Hv; subst.
    apply (IH v rest rest'); assumption.
Qed.

End Runs.

(** The words of a text are not affected by what separates them. *)
Lemma isspace_not_word c : isspace c = true -> isword c = false.
Proof.
  destruct c as [[|] [|] [|] [|] [|] [|] [|] [|]]; vm_compute; congruence.
Qed.

End RunFacts.

(* ================================================================== *)
(** * Whole-word substitution *)
(* ================================================================== *)

Module ReFacts.
Import PyStr PyStrFacts RunFacts Re.

(** Where nothing matches, nothing is replaced. *)
Lemma sub_scan_no_match word repl s : forall prev,
  search_scan word prev s = false -> sub_scan word repl prev 0 s = s.
Proof.
  induction s as [|c s IH]; intros prev H; [reflexivity|].
  simpl in H. apply orb_false_iff in H as [Hm Hs].
  simpl. rewrite Hm. f_equal. now apply IH.
Qed.

Lemma prev_after_cons prev c u : prev_after prev (c :: u) = prev_after (Some c) u.
Proof. reflexivity. Qed.

Lemma sep_start_not_word rest : sep_start rest -> isword_opt (hd_error rest) = false.
Proof. destruct rest; simpl; auto. Qed.

Section OneWord.
Variables word repl : str.
Hypothesis word_not_empty : word <> [].
Hypothesis word_is_word : all_in isword word.

Lemma last_of_word_is_word t : isword_opt (hd_error (rev word ++ t)) = true.
Proof.
  pose proof (Forall_rev word_is_word) as H.
  destruct (rev word) as [|z l] eqn:E.
  - apply (f_equal (@length _)) in E. rewrite length_rev in E.
    destruct word; [contradiction | discriminate].
  - inversion H; subst. assumption.
Qed.

(** The pattern does not match at a character that is not a word
    character. *)
Lemma matches_at_sep prev c rest :
  isword c = false -> matches_at word prev (c :: rest) = false.
Proof.
  intros Hc. unfold matches_at.
  destruct word as [|x w]; [contradiction|].
  inversion word_is_word as [|? ? Hx _]; subst.
  simpl startswith. destruct (ascii_eqb x c) eqn:E.
  - apply ascii_eqb_eq in E. congruence.
  - simpl. now rewrite andb_false_r.
Qed.

Lemma sub_scan_sep prev c rest :
  isword c = false ->
  sub_scan word repl prev 0 (c :: rest) = c :: sub_scan word repl (Some c) 0 rest.
Proof. intros Hc. simpl. now rewrite matches_at_sep. Qed.

(** Passing over the rest of a match. *)
Lemma sub_scan_skip u : forall prev rest,
  sub_scan word repl prev (length u) (u ++ rest)
  = sub_scan word repl (prev_after prev u) 0 rest.
Proof.
  induction u as [|c u IH]; intros prev rest; [reflexivity|].
  simpl. now rewrite IH.
Qed.

(** Inside a run of word characters there is no word boundary. *)
Lemma sub_scan_inside u : forall prev rest,
  isword_opt prev = true -> all_in isword u ->
  sub_scan word repl prev 0 (u ++ rest)
  = u ++ sub_scan word repl (prev_after prev u) 0 rest.
Proof.
  induction u as [|c u IH]; intros prev rest Hp Hu; [reflexivity|].
  inversion Hu as [|? ? Hc Hu']; subst.
  simpl. unfold matches_at. simpl hd_error. unfold word_boundary at 1.
  simpl isword_opt at 2. rewrite Hp, Hc. simpl.
  f_equal. now apply IH.
Qed.

(** At the start of a maximal run of word characters, the pattern
    matches exactly when the run is the word. *)
Lemma matches_at_run_start prev u rest :
  isword_opt prev = false -> u <> [] -> all_in isword u -> sep_start rest ->
  matches_at word prev (u ++ rest) = str_eqb u word.
Proof.
  intros Hp Hne Hu Hrest. destruct (str_eqb u word) eqn:E.
  - apply str_eqb_eq in E. subst u. unfold matches_at.
    rewrite startswith_app, skipn_app_exact.
    unfold word_boundary. rewrite last_of_word_is_word, Hp.
    rewrite (sep_start_not_word _ Hrest).
    destruct word as [|x w]; [contradiction|].
    inversion word_is_word; subst. simpl. now rewrite H1.
  - destruct (matches_at word prev (u ++ rest)) eqn:M; [exfalso | reflexivity].
    unfold matches_at in M. apply andb_true_iff in M as [M M3].
    apply andb_true_iff in M as [_ M2].
    apply startswith_iff in M2 as [t Et]. rewrite Et, skipn_app_exact in M3.
    unfold word_boundary in M3. rewrite last_of_word_is_word in M3.
    assert (Ht : sep_start t).
    { destruct t as [|z t]; simpl in *; [exact I|].
      now destruct (isword z). }
    apply str_eqb_neq in E. apply E.
    exact (@run_unique isword u word rest t Hu word_is_word Hrest Ht Et).
Qed.

(** A maximal run of word characters is replaced when it is the word and
    copied otherwise. *)
Lemma sub_scan_run prev u rest :
  isword_opt prev = false -> u <> [] -> all_in isword u -> sep_start rest ->
  sub_scan word repl prev 0 (u ++ rest)
  = (if str_eqb u word then repl else u)
    ++ sub_scan word repl (prev_after prev u) 0 rest.
Proof.
  intros Hp Hne Hu Hrest.
  pose proof (@matches_at_run_start prev u rest Hp Hne Hu Hrest) as M.
  destruct u as [|x u]; [contradiction|].
  inversion Hu as [|? ? Hx Hu']; subst.
  rewrite prev_after_cons.
  change (sub_scan word repl prev 0 ((x :: u) ++ rest))
    with (if matches_at word prev ((x :: u) ++ rest)
          then repl ++ sub_scan word repl (Some x) (length word - 1) (u ++ rest)
          else x :: sub_scan word repl (Some x) 0 (u ++ rest)).
  rewrite M. destruct (str_eqb (x :: u) word) eqn:E.
  - apply str_eqb_eq in E.
    replace (length word - 1) with (length u) by (rewrite <- E; simpl; lia).
    now rewrite sub_scan_skip.
  - rewrite sub_scan_inside by assumption. reflexivity.
Qed.

(** A word that is not among the words of the text is not replaced. *)
Lemma sub_scan_absent s : forall prev,
  isword_opt prev = false -> ~ In word (words s) ->
  sub_scan word repl prev 0 s = s.
Proof.
  unfold words. induction s as [|c rest Hc IH|u Hne Hu|u c rest Hne Hu Hc IH]
    using (@run_ind isword); intros prev Hp Hin.
  - reflexivity.
  - rewrite sub_scan_sep by assumption. f_equal.
    apply IH; [exact Hc|]. now rewrite runs_sep in Hin.
  - rewrite runs_single in Hin by assumption.
    rewrite <- (app_nil_r u) at 1. rewrite sub_scan_run; auto; [|exact I].
    destruct (str_eqb u word) eqn:E.
    + apply str_eqb_eq in E. subst u. simpl in Hin. tauto.
    + simpl. now rewrite app_nil_r.
  - rewrite runs_run_sep in Hin by assumption.
    rewrite sub_scan_run; auto.
    destruct (str_eqb u word) eqn:E.
    + apply str_eqb_eq in E. subst u. simpl in Hin. tauto.
    + f_equal. rewrite sub_scan_sep by assumption. f_equal.
      apply IH; [exact Hc|]. simpl in Hin. tauto.
Qed.

(** The words of the result: each occurrence of the word gives way to
    the words of the replacement, every other word stays. *)
Lemma words_sub_scan s : forall prev,
  isword_opt prev = false ->
  words (sub_scan word repl prev 0 s)
  = flat_map (fun t => if str_eqb t word then words repl else [t]) (words s).
Proof.
  unfold words. induction s as [|c rest Hc IH|u Hne Hu|u c rest Hne Hu Hc IH]
    using (@run_ind isword); intros prev Hp.
  - reflexivity.
  - rewrite sub_scan_sep by assumption. rewrite !runs_sep by assumption.
    now apply IH.
  - rewrite <- (app_nil_r u) at 1. rewrite sub_scan_run; auto; [|exact I].
    simpl sub_scan. rewrite app_nil_r, (runs_single Hne Hu). simpl.
    rewrite app_nil_r. destruct (str_eqb u word); [reflexivity|].
    now apply runs_single.
  - rewrite sub_scan_run; auto. rewrite sub_scan_sep by assumption.
    rewrite runs_app_sep by assumption. rewrite (IH (Some c) Hc).
    rewrite runs_run_sep by assumption. simpl. f_equal.
    destruct (str_eqb u word); [reflexivity|]. now apply runs_single.
Qed.

Lemma search_scan_inside u : forall prev rest,
  isword_opt prev = true -> all_in isword u ->
  search_scan word prev (u ++ rest) = search_scan word (prev_after prev u) rest.
Proof.
  induction u as [|c u IH]; intros prev rest Hp Hu; [reflexivity|].
  inversion Hu as [|? ? Hc Hu']; subst.
  simpl. unfold matches_at. simpl hd_error. unfold word_boundary at 1.
  simpl isword_opt at 2. rewrite Hp, Hc. simpl. now apply IH.
Qed.

Lemma search_scan_run prev u rest :
  isword_opt prev = false -> u <> [] -> all_in isword u -> sep_start rest ->
  search_scan word prev (u ++ rest)
  = str_eqb u word || search_scan word (prev_after prev u) rest.
Proof.
  intros Hp Hne Hu Hrest.
  pose proof (@matches_at_run_start prev u rest Hp Hne Hu Hrest) as M.
  destruct u as [|x u]; [contradiction|].
  inversion Hu as [|? ? Hx Hu']; subst.
  rewrite prev_after_cons.
  change (search_scan word prev ((x :: u) ++ rest))
    with (matches_at word prev ((x :: u) ++ rest)
          || search_scan word (Some x) (u ++ rest)).
  rewrite M. now rewrite search_scan_inside.
Qed.

(** The pattern matches somewhere in a text exactly when the word is one
    of the words of the text. *)
Lemma search_scan_words s : forall prev,
  isword_opt prev = false ->
  search_scan word prev s = true <-> In word (words s).
Proof.
  unfold words. induction s as [|c rest Hc IH|u Hne Hu|u c rest Hne Hu Hc IH]
    using (@run_ind isword); intros prev Hp.
  - simpl. split; [discriminate | tauto].
  - rewrite runs_sep by assumption. simpl search_scan.
    rewrite matches_at_sep by assumption. now apply IH.
  - rewrite (runs_single Hne Hu). rewrite <- (app_nil_r u) at 1.
    rewrite search_scan_run; auto; [|exact I]. simpl search_scan.
    rewrite orb_false_r, str_eqb_eq. simpl. intuition congruence.
  - rewrite runs_run_sep by assumption. rewrite search_scan_run; auto.
    simpl search_scan at 1. rewrite matches_at_sep by assumption.
    rewrite orb_true_iff, str_eqb_eq. simpl orb. rewrite (IH (Some c) Hc).
    simpl. intuition congruence.
Qed.

Lemma search_word_words s : search_word word s = true <-> In word (words s).
Proof. now apply search_scan_words. Qed.

Lemma sub_word_absent s : ~ In word (words s) -> sub_word word repl s = s.
Proof. now apply sub_scan_absent. Qed.

Lemma words_sub_word s :
  words (sub_word word repl s)
  = flat_map (fun t => if str_eqb t word then words repl else [t]) (words s).
Proof. now apply words_sub_scan. Qed.

End OneWord.
End ReFacts.

(* ================================================================== *)
(** * The pronunciation normalizer *)
(* ================================================================== *)

Module HintsFacts.
Import PyStr PyStrFacts RunFacts Re ReFacts AudioText Vocabulary.

#[local] Abbreviation nonspace := (fun c : ascii => negb (isspace c)).
#[local] Abbreviation space := (lit " ").

Lemma join_space_cons u parts :
  join space (u :: parts)
  = match parts with [] => u | _ => u ++ " "%char :: join space parts end.
Proof. destruct parts; reflexivity. Qed.

Lemma collapse_skips_space c rest :
  nonspace c = false -> collapse_whitespace (c :: rest) = collapse_whitespace rest.
Proof. intros H. unfold collapse_whitespace, split. now rewrite runs_sep. Qed.

Lemma collapse_single u :
  u <> [] -> all_in nonspace u -> collapse_whitespace u = u.
Proof. intros Hne H. unfold collapse_whitespace, split. now rewrite runs_single. Qed.

Lemma collapse_run u c rest :
  u <> [] -> all_in nonspace u -> nonspace c = false ->
  collapse_whitespace (u ++ c :: rest)
  = match split rest with
    | [] => u
    | _ => u ++ " "%char :: collapse_whitespace rest
    end.
Proof.
  intros Hne H Hc. unfold collapse_whitespace, split.
  rewrite runs_run_sep by assumption. apply join_space_cons.
Qed.

(** Splitting sees through whitespace collapsing. *)
Lemma split_collapse s : split (collapse_whitespace s) = split s.
Proof.
  induction s as [|c rest Hc IH|u Hne Hu|u c rest Hne Hu Hc IH]
    using (@run_ind nonspace).
  - reflexivity.
  - rewrite collapse_skips_space by assumption. unfold split in *.
    now rewrite (@runs_sep nonspace c rest Hc).
  - now rewrite collapse_single.
  - rewrite collapse_run by assumption. unfold split at 3.
    rewrite runs_run_sep by assumption. fold (split rest).
    destruct (split rest) as [|p l] eqn:E.
    + unfold split. now apply runs_single.
    + unfold split at 1. rewrite runs_run_sep by (auto; reflexivity).
      fold (split (collapse_whitespace rest)). now rewrite IH.
Qed.

Lemma collapse_idempotent s :
  collapse_whitespace (collapse_whitespace s) = collapse_whitespace s.
Proof. unfold collapse_whitespace at 1 3. now rewrite split_collapse. Qed.

Lemma nonspace_sep_not_word c : nonspace c = false -> isword c = false.
Proof.
  intros H. cbv beta in H. apply isspace_not_word. now destruct (isspace c).
Qed.

(** Whitespace collapsing leaves the words of a text as they are. *)
Lemma words_collapse s : words (collapse_whitespace s) = words s.
Proof.
  induction s as [|c rest Hc IH|u Hne Hu|u c rest Hne Hu Hc IH]
    using (@run_ind nonspace).
  - reflexivity.
  - rewrite collapse_skips_space by assumption. unfold words in *.
    now rewrite (@runs_sep isword c rest (@nonspace_sep_not_word c Hc)).
  - now rewrite collapse_single.
  - rewrite collapse_run by assumption. unfold words in *.
    rewrite (@runs_app_sep isword u c rest (@nonspace_sep_not_word c Hc)).
    destruct (split rest) as [|p l] eqn:E.
    + unfold collapse_whitespace in IH. rewrite E in IH. simpl in IH.
      rewrite <- IH. now rewrite app_nil_r.
    + rewrite (@runs_app_sep isword u " "%char (collapse_whitespace rest))
        by reflexivity.
      now rewrite IH.
Qed.

(** Every entry of the table passes the check [entry_ok]. *)
Lemma table_ok : Forall (fun entry => entry_ok entry = true) substitutions.
Proof. apply Forall_forall, forallb_forall. vm_compute. reflexivity. Qed.

Lemma is_acronym_iff t : is_acronym t = true <-> In t acronyms.
Proof.
  unfold is_acronym. rewrite existsb_exists. split.
  - intros (x & Hx & E). apply str_eqb_eq in E. now subst.
  - intros H. exists t. split; [exact H | apply str_eqb_refl].
Qed.

Lemma entry_ok_spec entry :
  entry_ok entry = true ->
  let word := entry_word entry in
  word <> [] /\ all_in isword word
  /\ Forall (fun t => ~ In t acronyms) (words (snd entry))
  /\ (forall s, sub (fst entry) (snd entry) s = sub_word word (snd entry) s)
  /\ (forall s, search (fst entry) s = search_word word s).
Proof.
  unfold entry_ok, entry_word, sub, search.
  destruct (word_pattern (fst entry)) as [word|] eqn:Ep; [|discriminate].
  rewrite !andb_true_iff. intros [[H1 H2] H3]. cbv zeta. repeat split.
  - unfold word_pattern in Ep.
    destruct (startswith (lit "\b") (fst entry)); [|discriminate].
    destruct (endswith (lit "\b") _); [|discriminate].
    destruct (firstn _ _) as [|c l]; [discriminate|].
    destruct (forallb is_literal (c :: l)); [|discriminate].
    injection Ep as <-. discriminate.
  - apply Forall_forall. now apply forallb_forall.
  - apply Forall_forall. intros t Ht Hin.
    rewrite forallb_forall in H3. specialize (H3 t Ht).
    apply is_acronym_iff in Hin. rewrite Hin in H3. discriminate.
  - intros s. now rewrite H1.
Qed.

Lemma apply_substitutions_cons entry table s :
  apply_substitutions (entry :: table) s
  = apply_substitutions table (sub (fst entry) (snd entry) s).
Proof. reflexivity. Qed.

(** After the acronyms [done] are gone from the words of a text, the
    substitutions of [table] remove their own acronyms and bring none
    back. *)
Lemma substitutions_clear table : forall done s,
  Forall (fun entry => entry_ok entry = true) table ->
  incl (done ++ map entry_word table) acronyms ->
  Forall (fun t => ~ In t done) (words s) ->
  Forall (fun t => ~ In t (done ++ map entry_word table))
         (words (apply_substitutions table s)).
Proof.
  induction table as [|entry table IH]; intros done s Hok Hincl Hs.
  - simpl. now rewrite app_nil_r.
  - inversion Hok as [|? ? He Hok']; subst.
    apply entry_ok_spec in He as (Hne & Hw & Hr & Hsub & _).
    set (w := entry_word entry) in *.
    rewrite apply_substitutions_cons, Hsub. simpl map. fold w.
    replace (done ++ w :: map entry_word table)
      with ((done ++ [w]) ++ map entry_word table)
      by now rewrite <- app_assoc.
    simpl map in Hincl. fold w in Hincl.
    apply IH; [assumption | now rewrite <- app_assoc |].
    rewrite (words_sub_word (snd entry) Hne Hw). apply Forall_flat_map.
    eapply Forall_impl; [|exact Hs]. intros t Ht.
    destruct (str_eqb t w) eqn:E.
    + eapply Forall_impl; [|exact Hr]. intros t' Ht' Hin. apply Ht'.
      apply Hincl. apply in_app_or in Hin as [Hin|[<-|[]]].
      * apply in_or_app. now left.
      * apply in_or_app. right. now left.
    + constructor; [|constructor]. intros Hin.
      apply in_app_or in Hin as [Hin|[<-|[]]]; [now apply Ht|].
      now rewrite str_eqb_refl in E.
Qed.

(** On a text none of whose words is an acronym of [table], the
    substitutions of [table] change nothing. *)
Lemma substitutions_idle table : forall s,
  Forall (fun entry => entry_ok entry = true) table ->
  Forall (fun t => ~ In t (map entry_word table)) (words s) ->
  apply_substitutions table s = s.
Proof.
  induction table as [|entry table IH]; intros s Hok Hs; [reflexivity|].
  inversion Hok as [|? ? He Hok']; subst.
  apply entry_ok_spec in He as (Hne & Hw & _ & Hsub & _).
  rewrite apply_substitutions_cons, Hsub.
  rewrite (sub_word_absent (snd entry) Hne Hw).
  - apply IH; [assumption|]. eapply Forall_impl; [|exact Hs].
    intros t Ht Hin. apply Ht. now right.
  - intros Hin. rewrite Forall_forall in Hs.
    apply (Hs (entry_word entry) Hin). now left.
Qed.

(** Where no pattern of [table] matches, the substitutions of [table]
    change nothing. *)
Lemma substitutions_no_match table : forall s,
  (forall entry, In entry table -> search (fst entry) s = false) ->
  apply_substitutions table s = s.
Proof.
  induction table as [|entry table IH]; intros s H; [reflexivity|].
  rewrite apply_substitutions_cons.
  assert (E : sub (fst entry) (snd entry) s = s).
  { pose proof (H entry (or_introl eq_refl)) as Hs. unfold sub, search in *.
    destruct (word_pattern (fst entry)); [|reflexivity].
    destruct (plain_replacement (snd entry)); [|reflexivity].
    now apply sub_scan_no_match. }
  rewrite E. apply IH. intros e Hin. apply H. now right.
Qed.

Lemma table_entry entry :
  In entry substitutions ->
  let word := entry_word entry in
  word <> [] /\ all_in isword word /\ In word acronyms
  /\ (forall s, search (fst entry) s = search_word word s).
Proof.
  intros Hin. pose proof table_ok as Hok. rewrite Forall_forall in Hok.
  destruct (@entry_ok_spec entry (Hok entry Hin)) as (Hne & Hw & _ & _ & Hsearch).
  cbv zeta. repeat split; auto. unfold acronyms. now apply in_map.
Qed.

(** A text contains no acronym of the table exactly when none of its
    words is one. *)
Lemma acronym_free_words text :
  acronym_free text <-> Forall (fun t => ~ In t acronyms) (words text).
Proof.
  unfold acronym_free. rewrite Forall_forall. split.
  - intros H t Ht Hin. unfold acronyms in Hin. apply in_map_iff in Hin.
    destruct Hin as (entry & <- & Hin).
    destruct (@table_entry entry Hin) as (Hne & Hw & _ & Hsearch).
    apply (search_word_words Hne Hw) in Ht. rewrite <- Hsearch, (H entry Hin) in Ht.
    discriminate.
  - intros H entry Hin.
    destruct (@table_entry entry Hin) as (Hne & Hw & Hacr & Hsearch).
    rewrite Hsearch. destruct (search_word (entry_word entry) text) eqn:E; [|reflexivity].
    apply (search_word_words Hne Hw) in E. now apply H in E.
Qed.

(** After one pass no word of the text is an acronym of the table. *)
Lemma one_pass_clears text :
  Forall (fun t => ~ In t acronyms)
         (words (apply_substitutions substitutions text)).
Proof.
  apply (@substitutions_clear substitutions [] text).
  - exact table_ok.
  - apply incl_refl.
  - apply Forall_forall. intros t _ [].
Qed.

Lemma normalizer_twice text :
  _apply_pronunciation_hints (_apply_pronunciation_hints text)
  = _apply_pronunciation_hints text.
Proof.
  unfold _apply_pronunciation_hints.
  rewrite substitutions_idle.
  - apply collapse_idempotent.
  - exact table_ok.
  - rewrite words_collapse. apply one_pass_clears.
Qed.

(** C7. The normalizer gives one output for each input text, and on a
    text that contains no acronym of the table it only collapses the
    whitespace and is idempotent. *)
Theorem pronunciation_hints_deterministic_and_idempotent_without_acronyms
    (text : str) :
  (exists out, _apply_pronunciation_hints text = out
               /\ forall out', _apply_pronunciation_hints text = out' -> out' = out)
  /\ (acronym_free text ->
      _apply_pronunciation_hints text = collapse_whitespace text
      /\ _apply_pronunciation_hints (_apply_pronunciation_hints text)
         = _apply_pronunciation_hints text).
Proof.
  split.
  - exists (_apply_pronunciation_hints text). split; [reflexivity | congruence].
  - intros H. split; [|apply normalizer_twice].
    unfold _apply_pronunciation_hints. now rewrite substitutions_no_match.
Qed.

(** C9. The normalizer is idempotent on every text: no replacement of
    the table contains a whole-word match of a pattern of the table,
    whitespace collapsing is idempotent, and applying the normalizer
    twice gives what applying it once gives. *)
Theorem pronunciation_hints_idempotent (text : str) :
  forallb (fun replaced =>
    forallb (fun entry => negb (search (fst entry) (snd replaced))) substitutions)
    substitutions = true
  /\ collapse_whitespace (collapse_whitespace text) = collapse_whitespace text
  /\ _apply_pronunciation_hints (_apply_pronunciation_hints text)
     = _apply_pronunciation_hints text.
Proof.
  split; [vm_compute; reflexivity|].
  split; [apply collapse_idempotent | apply normalizer_twice].
Qed.

Lemma pronunciation_hints_without_acronyms_witness :
  _apply_pronunciation_hints (lit " the  NATOs met ")
  = collapse_whitespace (lit " the  NATOs met ")
  /\ _apply_pronunciation_hints (_apply_pronunciation_hints (lit " the  NATOs met "))
     = _apply_pronunciation_hints (lit " the  NATOs met ").
Proof.
  apply (proj2 (pronunciation_hints_deterministic_and_idempotent_without_acronyms
                  (lit " the  NATOs met "))).
  intros entry H.
  repeat (destruct H as [<-|H]; [reflexivity|]). destruct H.
Defined.

End HintsFacts.

(* ================================================================== *)
(** * The code on the scenarios of the specification *)
(* ================================================================== *)

Module Scenarios.
Import PyStr Models DateTime Effects AudioText AudioUtils AgentCore Cli.

Example hints_on_a_headline :
  _apply_pronunciation_hints (lit "NATO and  FEMA-ICE met;  NATOs did not")
  = lit "NAY-toh and FEE-muh-I C E met; NATOs did not".
Proof. vm_compute. reflexivity. Qed.

Example host_of_region_code :
  _normalize_bunny_storage_host (lit "ny") = lit "ny.storage.bunnycdn.com".
Proof. vm_compute. reflexivity. Qed.

Example host_of_full_url :
  _normalize_bunny_storage_host (lit " https://uk.storage.bunnycdn.com/ ")
  = lit "uk.storage.bunnycdn.com".
Proof. vm_compute. reflexivity. Qed.

Example run_dir_of_coral_reefs :
  run_dir_name (lit "coral reef bleaching") Scripted.noon
  = lit "coral-reef-bleaching_20250101T000000Z".
Proof. vm_compute. reflexivity. Qed.

Example slug_of_blank_topic : topic_slug (lit "   ") = lit "topic".
Proof. vm_compute. reflexivity. Qed.

Example save_outputs_scripted :
  fst (save_outputs (lit "output") Scripted.some_plan Scripted.some_written
         Scripted.start)
  = Ok (lit "output/coral-reef-bleaching_20250101T000000Z").
Proof. vm_compute. reflexivity. Qed.

Example audio_stage_scripted :
  fst (audio_stage (lit "k") (lit "audio") (lit "zone") (lit "key") (lit "ny")
         (lit "output/coral-reef-bleaching_20250101T000000Z")
         Scripted.some_written Scripted.start)
  = Ok (Some (lit ("https://ny.storage.bunnycdn.com/zone/audio/"
                   ++ "coral-reef-bleaching_20250101T000000Z/written_stories_audio.wav"))).
Proof. vm_compute. reflexivity. Qed.

Example silence_of_zero_seconds :
  fst (synthesize_silence_segment float_zero 44100 Scripted.start)
  = Raise (ValueError (lit "duration_seconds must be greater than zero")).
Proof. reflexivity. Qed.

End Scenarios.

(* ================================================================== *)
(** * Which effects a computation can have *)
(* ================================================================== *)

Module EmitFacts.
Import PyStr Models Effects AudioText AudioUtils AgentCore Cli.
Import EffectVocabulary EffectFacts.

Section WithEnvironment.
Context {World : Type} {env : Environment World}.

Lemma emits_ret {A} allowed (a : A) : emits allowed (@ret World A a).
Proof. intros st. exists []. simpl. now rewrite app_nil_r. Qed.

Lemma emits_raise {A} allowed e : emits allowed (@raise World A e).
Proof. intros st. exists []. simpl. now rewrite app_nil_r. Qed.

Lemma emits_perform {A} allowed ev (oracle : World -> result A * World) :
  allowed ev = true -> emits allowed (perform ev oracle).
Proof.
  intros H st. exists [ev]. unfold perform.
  destruct (oracle (world st)) as [r w]. simpl. split; [reflexivity|].
  now constructor.
Qed.

Lemma emits_bind {A B} allowed (c : M World A) (k : A -> M World B) :
  emits allowed c -> (forall a, emits allowed (k a)) -> emits allowed (bind c k).
Proof.
  intros Hc Hk st. unfold bind. destruct (Hc st) as (new & T & Hnew).
  destruct (c st) as [[a|e] st1]; simpl in T.
  - destruct (Hk a st1) as (new' & T' & Hnew'). exists (new ++ new'). split.
    + now rewrite T', T, app_assoc.
    + now apply Forall_app.
  - now exists new.
Qed.

Lemma emits_weaken {A} (allowed allowed' : event -> bool) (c : M World A) :
  (forall ev, allowed ev = true -> allowed' ev = true) ->
  emits allowed c -> emits allowed' c.
Proof.
  intros Himp Hc st. destruct (Hc st) as (new & T & Hnew). exists new.
  split; [exact T|]. eapply Forall_impl; [|exact Hnew]. exact Himp.
Qed.

Lemma emits_with_tempdir {A} allowed (body : str -> M World A) :
  allowed EvTempDir = true ->
  (forall dir, allowed (EvTempDirCleanup dir) = true) ->
  (forall dir, emits allowed (body dir)) ->
  emits allowed (with_tempdir body).
Proof.
  intros H1 H2 Hbody st. unfold with_tempdir.
  destruct (emits_perform allowed EvTempDir tempdir_enter H1 st) as (n1 & T1 & F1).
  destruct (perform EvTempDir tempdir_enter st) as [[dir|e] st1]; simpl in T1;
    [|now exists n1].
  destruct (Hbody dir st1) as (n2 & T2 & F2).
  destruct (body dir st1) as [r st2]; simpl in T2.
  destruct (emits_perform allowed (EvTempDirCleanup dir) (tempdir_cleanup dir)
              (H2 dir) st2) as (n3 & T3 & F3).
  destruct (perform (EvTempDirCleanup dir) (tempdir_cleanup dir) st2)
    as [[u|e] st3]; simpl in T3; exists (n1 ++ n2 ++ n3); simpl;
    (split; [now rewrite T3, T2, T1, <- !app_assoc | now rewrite !Forall_app]).
Qed.

(** ** The stages *)

Lemma build_agent_emits model provider key prompt :
  emits is_agent_event (build_agent model provider key prompt).
Proof.
  unfold build_agent. destruct (startswith (lit "gateway/") model).
  - apply emits_bind; [now apply emits_perform | intros; apply emits_ret].
  - apply emits_ret.
Qed.

Lemma generate_story_plan_emits topic model provider key :
  emits is_agent_event (generate_story_plan topic model provider key).
Proof.
  unfold generate_story_plan. apply emits_bind; [apply build_agent_emits|].
  intros planner. apply emits_bind; [now apply emits_perform|].
  intros out. unfold validate_plan.
  destruct (length_ok _); [apply emits_ret | apply emits_raise].
Qed.

Lemma write_full_stories_emits plan model provider key :
  emits is_agent_event (write_full_stories plan model provider key).
Proof.
  unfold write_full_stories. apply emits_bind; [apply build_agent_emits|].
  intros writer. apply emits_bind; [now apply emits_perform|].
  intros out. unfold validate_written.
  destruct (length_ok _); [apply emits_ret | apply emits_raise].
Qed.

Lemma save_outputs_emits output_dir plan written :
  emits is_persist_event (save_outputs output_dir plan written).
Proof.
  unfold save_outputs.
  repeat (apply emits_bind; [now apply emits_perform | intros ?]).
  apply emits_ret.
Qed.

Lemma tts_emits key transcript :
  emits is_synthesis_event (synthesize_cartesia_tts key transcript).
Proof. unfold synthesize_cartesia_tts. now apply emits_perform. Qed.

Lemma silence_emits d sr : emits is_synthesis_event (synthesize_silence_segment d sr).
Proof.
  unfold synthesize_silence_segment. destruct (SFleb d float_zero);
    [apply emits_raise|].
  unfold silence_body. apply emits_with_tempdir; try reflexivity.
  intros dir. apply emits_bind; [now apply emits_perform | intros ?].
  now apply emits_perform.
Qed.

Lemma write_segments_emits base segments : forall idx,
  emits is_synthesis_event (write_segments base idx segments).
Proof.
  induction segments as [|seg rest IH]; intros idx; simpl.
  - apply emits_ret.
  - apply emits_bind; [now apply emits_perform | intros ?].
    apply emits_bind; [apply IH | intros ?]. apply emits_ret.
Qed.

Lemma concatenate_emits segments fmt :
  emits is_synthesis_event (concatenate_audio_segments segments fmt).
Proof.
  unfold concatenate_audio_segments.
  destruct (length segments <? 2)%nat; [apply emits_raise|].
  unfold concat_body. apply emits_with_tempdir; try reflexivity.
  intros dir. apply emits_bind; [apply write_segments_emits | intros ?].
  apply emits_bind; [now apply emits_perform | intros ?].
  now apply emits_perform.
Qed.

Lemma upload_emits data path zone access region ctype :
  emits is_put (upload_bytes_to_bunny_storage data path zone access region ctype).
Proof.
  unfold upload_bytes_to_bunny_storage.
  destruct (normalize_object_path path); [apply emits_raise|].
  apply emits_bind; [now apply emits_perform | intros ?]. apply emits_ret.
Qed.

Lemma synthesize_segments_emits key stories : forall total idx segments,
  emits is_synthesis_event (synthesize_segments key total idx stories segments).
Proof.
  induction stories as [|story rest IH]; intros total idx segments; simpl.
  - apply emits_ret.
  - apply emits_bind; [apply tts_emits | intros clip].
    destruct (idx + 1 <? total)%nat; [|apply IH].
    apply emits_bind; [apply silence_emits | intros ?]. apply IH.
Qed.

Lemma synthesize_and_combine_emits key written :
  emits is_synthesis_event (synthesize_and_combine key written).
Proof.
  unfold synthesize_and_combine.
  apply emits_bind; [apply synthesize_segments_emits | intros segments].
  unfold combine_segments. destruct (2 <=? length segments)%nat;
    [apply concatenate_emits|].
  destruct segments; apply emits_ret.
Qed.

Lemma audio_stage_emits key prefix zone access region run_dir written :
  emits is_audio_event (audio_stage key prefix zone access region run_dir written).
Proof.
  unfold audio_stage.
  apply emits_bind.
  { eapply emits_weaken; [|apply synthesize_and_combine_emits].
    intros ev. now destruct ev. }
  intros combined. destruct combined; [apply emits_ret|].
  apply emits_bind; [now apply emits_perform | intros ?].
  apply emits_bind.
  { eapply emits_weaken; [|apply upload_emits]. intros ev. now destruct ev. }
  intros ?. apply emits_bind; [now apply emits_perform | intros ?].
  apply emits_ret.
Qed.

(** ** Counting the requests to the object store *)

Lemma puts_none {A} (allowed : event -> bool) (c : M World A) :
  (forall ev, allowed ev = true -> is_put ev = false) ->
  emits allowed c -> puts_at_most 0 c.
Proof.
  intros Hno Hc st. destruct (Hc st) as (new & T & F). exists new.
  split; [exact T|]. clear T.
  induction F as [|ev l Hev _ IH]; simpl; [lia|].
  rewrite (Hno ev Hev). exact IH.
Qed.

Lemma puts_bind {A B} n m (c : M World A) (k : A -> M World B) :
  puts_at_most n c -> (forall a, puts_at_most m (k a)) ->
  puts_at_most (n + m) (bind c k).
Proof.
  intros Hc Hk st. unfold bind. destruct (Hc st) as (new & T & Hn).
  destruct (c st) as [[a|e] st1]; simpl in T.
  - destruct (Hk a st1) as (new' & T' & Hn'). exists (new ++ new'). split.
    + now rewrite T', T, app_assoc.
    + rewrite filter_app, length_app. lia.
  - exists new. split; [exact T | lia].
Qed.

Lemma puts_more {A} n m (c : M World A) :
  (n <= m)%nat -> puts_at_most n c -> puts_at_most m c.
Proof.
  intros Hle Hc st. destruct (Hc st) as (new & T & Hn). exists new.
  split; [exact T | lia].
Qed.

Lemma puts_upload data path zone access region ctype :
  puts_at_most 1 (upload_bytes_to_bunny_storage data path zone access region ctype).
Proof.
  intros st. unfold upload_bytes_to_bunny_storage.
  destruct (normalize_object_path path) as [|c p];
    [exists []; simpl; split; [now rewrite app_nil_r | lia]|].
  unfold bind, perform.
  destruct (requests_put _ _ _ _ (world st)) as [[u|e] w]; simpl;
    eexists [_]; (split; [reflexivity | simpl; lia]).
Qed.

End WithEnvironment.
End EmitFacts.

(* ================================================================== *)
(** * cli.py: [main] *)
(* ================================================================== *)

Module MainFacts.
Import PyStr PyStrFacts Models Effects AudioText AudioUtils AgentCore Cli CliMain.
Import Vocabulary EffectVocabulary EffectFacts EmitFacts AgentFacts.

Lemma strip_blank s : spaces s -> strip s = [].
Proof.
  intros H. unfold strip, strip_by. rewrite lstrip_by_all by exact H. reflexivity.
Qed.

Lemma is_empty_strip_blank s : spaces s -> is_empty (strip s) = true.
Proof. intros H. now rewrite strip_blank. Qed.

Section WithEnvironment.
Context {World : Type} {env : Environment World}.
Variable getenv : str -> option str.
Variable expanduser : str -> str.

#[local] Abbreviation main := (main getenv expanduser).
#[local] Abbreviation gateway_key_of args :=
  (or_opt (api_key args) (getenv (lit "PYDANTIC_AI_GATEWAY_API_KEY"))).
#[local] Abbreviation cartesia_key_of args :=
  (or_opt (cartesia_api_key args) (getenv (lit "CARTESIA_API_KEY"))).

Lemma or_opt_falsy x y : truthy x = false -> truthy y = false -> truthy (or_opt x y) = false.
Proof. intros Hx Hy. unfold or_opt. now rewrite Hx. Qed.

(** Without a gateway key on the command line or in the environment,
    [main] raises [RuntimeError] before any stage runs. *)
Theorem main_needs_gateway_key (args : Args) (st : state World) :
  truthy (api_key args) = false ->
  truthy (getenv (lit "PYDANTIC_AI_GATEWAY_API_KEY")) = false ->
  main args st = (Raised (RuntimeError missing_key_message), st).
Proof.
  intros Ha He. unfold CliMain.main. cbv zeta. now rewrite (or_opt_falsy _ _ Ha He).
Qed.

(** With audio requested, a missing Cartesia key, or a Bunny region,
    zone or access key that is unset or blank, makes [main] raise
    [RuntimeError] before any stage runs: nothing is generated, written
    or uploaded. *)
Theorem main_audio_needs_configuration (args : Args) (st : state World) :
  with_audio args = true ->
  truthy (gateway_key_of args) = true ->
  (truthy (cartesia_key_of args) = false ->
   main args st = (Raised (RuntimeError missing_cartesia_message), st))
  /\ (truthy (cartesia_key_of args) = true ->
      spaces (getenv_or getenv (lit "BUNNY_STORAGE_REGION") [])
      \/ spaces (getenv_or getenv (lit "BUNNY_STORAGE_ZONE") [])
      \/ spaces (getenv_or getenv (lit "BUNNY_STORAGE_ACCESS_KEY") []) ->
      main args st = (Raised (RuntimeError missing_bunny_message), st)).
Proof.
  intros Ha Hg. unfold CliMain.main. cbv zeta. rewrite Hg, Ha. cbn [negb andb].
  split.
  - intros Hc. now rewrite Hc.
  - intros Hc Hb. rewrite Hc. cbn [negb andb].
    destruct Hb as [H|[H|H]]; rewrite (is_empty_strip_blank H);
      rewrite ?orb_true_r; reflexivity.
Qed.

Lemma run_stages_without_audio_emits args key cartesia prefix zone access region :
  with_audio args = false ->
  emits (fun ev => is_agent_event ev || is_persist_event ev)
    (run_stages expanduser args key cartesia prefix zone access region).
Proof.
  intros Ha. unfold run_stages. rewrite Ha. cbn [negb andb].
  apply emits_bind.
  { eapply emits_weaken; [|apply generate_story_plan_emits].
    intros ev H. now rewrite H. }
  intros plan. apply emits_bind.
  { eapply emits_weaken; [|apply write_full_stories_emits].
    intros ev H. now rewrite H. }
  intros written. apply emits_bind.
  { eapply emits_weaken; [|apply save_outputs_emits].
    intros ev H. rewrite H. apply orb_true_r. }
  intros run_dir. apply emits_ret.
Qed.

(** Without [--with-audio], whatever happens, [main] has no effect of
    the audio stage: no request to the speech service or to the object
    store, no temporary directory, no run of the audio tool.  Its only
    effects are those of the two language-model stages and of the
    persister. *)
Theorem main_without_audio_has_no_audio_effect (args : Args) (st : state World) :
  with_audio args = false ->
  exists new,
    trace (snd (main args st)) = trace st ++ new
    /\ Forall (fun ev => is_agent_event ev || is_persist_event ev = true) new
    /\ Forall (fun ev =>
         match ev with
         | EvPost _ _ | EvPut _ _ _ _ | EvTempDir | EvTempDirCleanup _ | EvRun _
         | EvWriteBytes _ _ | EvReadBytes _ => False
         | _ => True
         end) new.
Proof.
  intros Ha.
  assert (H : exists new,
             trace (snd (main args st)) = trace st ++ new
             /\ Forall (fun ev => is_agent_event ev || is_persist_event ev = true) new).
  { unfold CliMain.main. cbv zeta. rewrite Ha. cbn [negb andb].
    destruct (negb (truthy (gateway_key_of args)));
      [exists []; simpl; now rewrite app_nil_r|].
    match goal with |- context [run_stages ?e ?a ?k ?c ?p ?z ?x ?r st] =>
      destruct (@run_stages_without_audio_emits a k c p z x r Ha st) as (new & T & F);
      destruct (run_stages e a k c p z x r st) as [[u|e'] st'] end;
      now exists new. }
  destruct H as (new & T & F). exists new. repeat split; auto.
  eapply Forall_impl; [|exact F]. intros ev. now destruct ev.
Qed.




Lemma run_stages_fails_without_stories args key cartesia prefix zone access region
    (st : state World) :
  (forall plan st1,
     generate_story_plan (topic args) (model args) (provider args) key st
     = (Ok plan, st1) ->
     exists e st2,
       write_full_stories plan (model args) (provider args) key st1 = (Raise e, st2)) ->
  exists e st' new,
    run_stages expanduser args key cartesia prefix zone access region st = (Raise e, st')
    /\ trace st' = trace st ++ new
    /\ Forall (fun ev => is_agent_event ev = true) new.
Proof.
  intros H. unfold run_stages.
  destruct (generate_story_plan_emits (topic args) (model args) (provider args) key st)
    as (n1 & T1 & F1).
  unfold bind at 1.
  destruct (generate_story_plan (topic args) (model args) (provider args) key st)
    as [[plan|e] st1]; simpl in T1; [|now exists e, st1, n1].
  destruct (H plan st1 eq_refl) as (e & st2 & Hw).
  destruct (write_full_stories_emits plan (model args) (provider args) key st1)
    as (n2 & T2 & F2).
  unfold bind at 1. rewrite Hw in *. simpl in T2.
  exists e, st2, (n1 ++ n2). split; [reflexivity|].
  split; [now rewrite T2, T1, app_assoc | now apply Forall_app].
Qed.

(** Nothing is persisted unless both language-model stages succeed: when
    the plan generator fails, or the story writer fails on its plan,
    [main] does not return, and it has created no directory and written
    no file; its effects are those of the language-model stages. *)
Theorem main_persists_nothing_without_stories (args : Args) (st : state World) :
  let key := value_of (gateway_key_of args) in
  (forall plan st1,
     generate_story_plan (topic args) (model args) (provider args) key st
     = (Ok plan, st1) ->
     exists e st2,
       write_full_stories plan (model args) (provider args) key st1 = (Raise e, st2)) ->
  fst (main args st) <> Returned
  /\ exists new,
       trace (snd (main args st)) = trace st ++ new
       /\ Forall (fun ev => is_agent_event ev = true) new
       /\ Forall (fun ev => is_output_write ev = false) new.
Proof.
  intros key H.
  assert (G : fst (main args st) <> Returned
              /\ exists new,
                   trace (snd (main args st)) = trace st ++ new
                   /\ Forall (fun ev => is_agent_event ev = true) new).
  { unfold CliMain.main. cbv zeta.
    destruct (negb (truthy (gateway_key_of args)));
      [split; [discriminate | exists []; simpl; now rewrite app_nil_r]|].
    destruct (with_audio args && negb (truthy (cartesia_key_of args)));
      [split; [discriminate | exists []; simpl; now rewrite app_nil_r]|].
    match goal with |- context [if ?b then (Raised (RuntimeError missing_bunny_message), st) else _] =>
      destruct b end;
      [split; [discriminate | exists []; simpl; now rewrite app_nil_r]|].
    match goal with |- context [run_stages ?e ?a ?k ?c ?p ?z ?x ?r st] =>
      destruct (@run_stages_fails_without_stories a k c p z x r st H)
        as (e' & st' & new & R & T & F); rewrite R end.
    simpl. split; [discriminate | now exists new]. }
  destruct G as (G1 & new & T & F). split; [exact G1|].
  exists new. repeat split; auto.
  eapply Forall_impl; [|exact F]. intros ev. now destruct ev.
Qed.

End WithEnvironment.

Lemma main_needs_gateway_key_witness :
  CliMain.main (fun _ => None) (fun p => p)
    (MakeArgs (lit "reefs") (lit "m") (lit "openai") None None false (lit "output"))
    Scripted.start
  = (Raised (RuntimeError missing_key_message), Scripted.start).
Proof.
  apply (@main_needs_gateway_key _ Scripted.env (fun _ => None) (fun p => p)
           (MakeArgs (lit "reefs") (lit "m") (lit "openai") None None false (lit "output"))
           Scripted.start); reflexivity.
Defined.

End MainFacts.

(* ================================================================== *)
(** * The object path and the upload *)
(* ================================================================== *)

Module UploadFacts.
Import PyStr PyStrFacts Models Effects AudioText AudioUtils.
Import Vocabulary MoreVocabulary EffectVocabulary EffectFacts.

Section SplitOn.
Variable sep : ascii.

#[local] Abbreviation sep_free := (Forall (fun c => ascii_eqb c sep = false)).

Lemma split_on_sep_free a : forall cur,
  sep_free a -> split_on sep cur a = [rev cur ++ a].
Proof.
  induction a as [|c a IH]; intros cur H; simpl.
  - now rewrite app_nil_r.
  - inversion H as [|? ? Hc Ha]; subst. rewrite Hc, IH by assumption.
    simpl. now rewrite <- app_assoc.
Qed.

Lemma split_on_app a : forall cur b,
  sep_free a ->
  split_on sep cur (a ++ sep :: b) = (rev cur ++ a) :: split_on sep [] b.
Proof.
  induction a as [|c a IH]; intros cur b H; simpl.
  - now rewrite ascii_eqb_refl, app_nil_r.
  - inversion H as [|? ? Hc Ha]; subst. rewrite Hc, IH by assumption.
    simpl. now rewrite <- app_assoc.
Qed.

Lemma split_on_pieces s : forall cur,
  sep_free cur -> Forall sep_free (split_on sep cur s).
Proof.
  induction s as [|c s IH]; intros cur H; simpl.
  - constructor; [now apply Forall_rev | constructor].
  - destruct (ascii_eqb c sep) eqn:E.
    + constructor; [now apply Forall_rev | apply IH; constructor].
    + apply IH. now constructor.
Qed.

(** A text splits into empty pieces only when it consists of
    separators. *)
Lemma split_on_all_empty s : forall cur,
  Forall (fun piece => piece = []) (split_on sep cur s) <->
  cur = [] /\ Forall (fun c => ascii_eqb c sep = true) s.
Proof.
  induction s as [|c s IH]; intros cur; simpl.
  - split.
    + intros H. inversion H as [|? ? Hc _]; subst. split; [|constructor].
      destruct cur; [reflexivity|]. apply (f_equal (@length _)) in Hc.
      rewrite length_rev in Hc. discriminate.
    + intros [-> _]. repeat constructor.
  - destruct (ascii_eqb c sep) eqn:E.
    + split.
      * intros H. inversion H as [|? ? Hc Hs]; subst.
        apply IH in Hs as [_ Hs]. split; [|now constructor].
        destruct cur; [reflexivity|]. apply (f_equal (@length _)) in Hc.
        rewrite length_rev in Hc. discriminate.
      * intros [-> H]. inversion H; subst. constructor; [reflexivity|].
        apply IH. now split.
    + split.
      * intros H. apply IH in H as [H _]. discriminate.
      * intros [_ H]. inversion H; subst. congruence.
Qed.

End SplitOn.

Lemma join_slash_cons g g2 rest :
  join (lit "/") (g :: g2 :: rest) = g ++ "/"%char :: join (lit "/") (g2 :: rest).
Proof. reflexivity. Qed.

(** Splitting at the slashes undoes joining with slashes. *)
Lemma split_join_slash segs :
  segs <> [] -> Forall slash_free segs ->
  split_on "/" [] (join (lit "/") segs) = segs.
Proof.
  induction segs as [|g [|g2 rest] IH]; intros Hne H.
  - contradiction.
  - inversion H; subst. simpl join. now rewrite split_on_sep_free.
  - inversion H as [|? ? Hg Hrest]; subst.
    rewrite join_slash_cons, split_on_app by assumption. simpl app. f_equal.
    apply IH; [discriminate | assumption].
Qed.

Lemma path_segments_spec object_path :
  Forall (fun seg => seg <> [] /\ slash_free seg) (path_segments object_path).
Proof.
  unfold path_segments. apply Forall_forall. intros seg Hin.
  apply filter_In in Hin as [Hin Hne]. split.
  - apply negb_true_iff, str_eqb_neq in Hne. exact Hne.
  - pose proof (split_on_pieces "/" object_path (cur := []) (Forall_nil _)) as H.
    rewrite Forall_forall in H. now apply H.
Qed.

Lemma filter_non_empty_id segs :
  Forall (fun seg : str => seg <> [] /\ slash_free seg) segs ->
  filter (fun seg => negb (str_eqb seg [])) segs = segs.
Proof.
  induction 1 as [|g segs [Hg _] _ IH]; [reflexivity|]. simpl.
  apply str_eqb_neq in Hg. rewrite Hg. simpl. now f_equal.
Qed.

Lemma join_slash_empty segs :
  Forall (fun seg : str => seg <> [] /\ slash_free seg) segs ->
  join (lit "/") segs = [] -> segs = [].
Proof.
  intros H E. destruct H as [|g segs [Hg _] _]; [reflexivity|].
  destruct g as [|c g]; [contradiction|]. destruct segs; discriminate.
Qed.

(** The normalised object path is empty exactly when the path consists
    of slashes only. *)
Lemma normalize_object_path_empty object_path :
  normalize_object_path object_path = [] <-> slashes object_path.
Proof.
  unfold normalize_object_path. fold (path_segments object_path). split.
  - intros E. apply join_slash_empty in E; [|apply path_segments_spec].
    unfold path_segments in E.
    assert (H : Forall (fun piece => piece = []) (split_on "/" [] object_path)).
    { apply Forall_forall. intros piece Hin.
      destruct (str_eqb piece []) eqn:Ep; [now apply str_eqb_eq|].
      assert (Hf : In piece (filter (fun seg => negb (str_eqb seg []))
                                    (split_on "/" [] object_path)))
        by (apply filter_In; split; [exact Hin | now rewrite Ep]).
      rewrite E in Hf. destruct Hf. }
    apply split_on_all_empty in H as [_ H]. unfold slashes, is_slash.
    eapply Forall_impl; [|exact H]. intros c Hc. simpl. now rewrite Hc.
  - intros H.
    assert (Hs : Forall (fun piece => piece = []) (split_on "/" [] object_path)).
    { apply split_on_all_empty. split; [reflexivity|].
      eapply Forall_impl; [|exact H]. intros c Hc. unfold is_slash in Hc.
      simpl in Hc. now rewrite orb_false_r in Hc. }
    unfold path_segments.
    induction Hs as [|piece l -> _ IH]; [reflexivity | exact IH].
Qed.

(** The object path is brought to a normal form: splitting the result
    at its slashes gives back the non-empty segments of the path, so the
    result has no empty segment (no leading, trailing or doubled slash),
    and normalising it again changes nothing. *)
Theorem normalize_object_path_normal_form (object_path : str) :
  let normalized := normalize_object_path object_path in
  (normalized <> [] ->
   split_on "/" [] normalized = path_segments object_path
   /\ Forall (fun seg => seg <> [] /\ slash_free seg)
             (split_on "/" [] normalized))
  /\ normalize_object_path normalized = normalized.
Proof.
  intros normalized. pose proof (path_segments_spec object_path) as Hseg.
  assert (Hsplit : normalized <> [] ->
                   split_on "/" [] normalized = path_segments object_path).
  { intros Hne. unfold normalized, normalize_object_path.
    fold (path_segments object_path). apply split_join_slash.
    - intros E. apply Hne. unfold normalized, normalize_object_path.
      fold (path_segments object_path). now rewrite E.
    - eapply Forall_impl; [|exact Hseg]. now intros seg [_ H]. }
  split.
  - intros Hne. split; [now apply Hsplit|]. now rewrite (Hsplit Hne).
  - destruct normalized as [|c n] eqn:E; [reflexivity|]. rewrite <- E in *.
    assert (Hne : normalized <> []) by (rewrite E; discriminate).
    unfold normalize_object_path at 1. rewrite (Hsplit Hne).
    now rewrite filter_non_empty_id.
Qed.

Section WithEnvironment.
Context {World : Type} {env : Environment World}.

(** An object path that is empty or consists of slashes only is refused
    with [ValueError] before any request is made. *)
Theorem upload_refuses_empty_path (file_bytes : bytes)
    (object_path storage_zone access_key region content_type : str)
    (st : state World) :
  slashes object_path ->
  upload_bytes_to_bunny_storage file_bytes object_path storage_zone access_key
    region content_type st
  = (Raise (ValueError (lit "object_path must not be empty")), st).
Proof.
  intros H. unfold upload_bytes_to_bunny_storage.
  now rewrite (proj2 (normalize_object_path_empty object_path) H).
Qed.

(** For an object path with a character other than a slash, the upload
    makes exactly one PUT, to [https://host/zone/path] with the
    normalised host and path; it returns that URL when the request
    succeeds and raises the error of the request otherwise, without a
    second attempt. *)
Theorem upload_puts_once (file_bytes : bytes)
    (object_path storage_zone access_key region content_type : str)
    (st : state World) :
  ~ slashes object_path ->
  let url := upload_url object_path storage_zone region in
  let run := upload_bytes_to_bunny_storage file_bytes object_path storage_zone
               access_key region content_type st in
  trace (snd run) = trace st ++ [EvPut url access_key content_type file_bytes]
  /\ world (snd run)
     = snd (requests_put url access_key content_type file_bytes (world st))
  /\ fst run
     = match fst (requests_put url access_key content_type file_bytes (world st)) with
       | Ok _ => Ok url
       | Raise e => Raise e
       end.
Proof.
  intros Hne url run. unfold run, upload_bytes_to_bunny_storage.
  destruct (normalize_object_path object_path) as [|c p] eqn:E.
  - exfalso. apply Hne. now apply normalize_object_path_empty.
  - unfold url, upload_url. rewrite E. unfold bind, perform.
    destruct (requests_put _ _ _ _ (world st)) as [[u|e] w]; simpl; auto.
Qed.

End WithEnvironment.
End UploadFacts.

(* ================================================================== *)
(** * The audio helpers on every exit path *)
(* ================================================================== *)

Module AudioPathFacts.
Import PyStr PyStrFacts Models Effects AudioText AudioUtils Traces Cli.
Import Vocabulary MoreVocabulary EffectVocabulary EffectFacts EmitFacts AudioFacts.
Import HintsFacts CliFacts.

Section WithEnvironment.
Context {World : Type} {env : Environment World}.

(** When the temporary directory is created, the trace of the block
    ends with its removal, whatever the body did. *)
Lemma with_tempdir_cleans {A} (body : str -> M World A) (st : state World) dir w1 :
  tempdir_enter (world st) = (Ok dir, w1) ->
  let st1 := State w1 (trace st ++ [EvTempDir]) in
  trace (snd (with_tempdir body st))
  = trace (snd (body dir st1)) ++ [EvTempDirCleanup dir]
  /\ (forall a, fst (with_tempdir body st) = Ok a -> fst (body dir st1) = Ok a).
Proof.
  intros E st1. unfold with_tempdir, perform. rewrite E.
  fold st1. destruct (body dir st1) as [r st2].
  destruct (tempdir_cleanup dir (world st2)) as [[u|e] w3]; simpl.
  - split; [reflexivity | auto].
  - split; [reflexivity|]. intros a H. discriminate.
Qed.

(** The silence generator, for a duration above zero and once its
    temporary directory exists: the audio tool is run exactly once, the
    output file is read only if the tool succeeded, and the directory is
    removed at the end on every path. *)
Theorem silence_cleans_up_on_every_path (duration_seconds : spec_float)
    (sample_rate : Z) (st : state World) (dir : str) (w1 : World) :
  above_zero duration_seconds ->
  tempdir_enter (world st) = (Ok dir, w1) ->
  let output_path := joinpath dir (lit "silence.wav") in
  let cmd := silence_cmd duration_seconds sample_rate output_path in
  let run := synthesize_silence_segment duration_seconds sample_rate st in
  match fst (subprocess_run cmd w1) with
  | Ok _ =>
      trace (snd run)
      = trace st ++ [EvTempDir; EvRun cmd; EvReadBytes output_path; EvTempDirCleanup dir]
  | Raise e =>
      trace (snd run) = trace st ++ [EvTempDir; EvRun cmd; EvTempDirCleanup dir]
      /\ exists e', fst run = Raise e'
  end.
Proof.
  intros Hd E output_path cmd run.
  unfold run, synthesize_silence_segment.
  apply above_zero_not_SFleb in Hd. rewrite Hd.
  unfold silence_body.
  match goal with |- context [with_tempdir ?b st] =>
    destruct (with_tempdir_cleans b st E) as [T Hok];
    destruct (with_tempdir b st) as [r st'] eqn:R end.
  cbv beta zeta in T, Hok. cbn [fst snd] in T, Hok.
  fold output_path cmd in T, Hok.
  unfold bind, perform in T, Hok. cbn [world trace] in T, Hok.
  destruct (subprocess_run cmd w1) as [[u|e] w2]; cbn [fst snd world trace] in *.
  - destruct (path_read_bytes output_path w2) as [r2 w3].
    cbn [fst snd world trace] in T. rewrite T. now rewrite <- !app_assoc.
  - split; [rewrite T; now rewrite <- !app_assoc|].
    destruct r as [a|e']; [|now exists e']. specialize (Hok a eq_refl). discriminate.
Qed.

Lemma segment_writes_length base segments : forall idx,
  length (segment_writes base idx segments) = length segments.
Proof. induction segments as [|seg rest IH]; intros idx; simpl; auto. Qed.

(** Every run of [write_segments] writes the files of a prefix of the
    segments, in order, and all of them when it succeeds. *)
Lemma write_segments_prefix base segments : forall idx (st : state World),
  exists k,
    (k <= length segments)%nat
    /\ trace (snd (write_segments base idx segments st))
       = trace st ++ firstn k (segment_writes base idx segments)
    /\ (forall paths, fst (write_segments base idx segments st) = Ok paths ->
        k = length segments /\ paths = segment_paths base idx segments).
Proof.
  induction segments as [|seg rest IH]; intros idx st.
  - exists 0%nat. simpl. rewrite app_nil_r.
    split; [lia|]. split; [reflexivity|].
    intros paths H. injection H as <-. split; reflexivity.
  - simpl write_segments. unfold bind, perform.
    destruct (path_write_bytes _ seg (world st)) as [[u|e] w1].
    + match goal with |- context [write_segments base (S idx) rest ?s] =>
        set (st1 := s) end.
      destruct (IH (S idx) st1) as (k & Hk & T & Hok).
      exists (S k). split; [simpl; lia|].
      destruct (write_segments base (S idx) rest st1) as [[paths|e] st2];
        unfold ret; cbn [fst snd] in *; rewrite T; unfold st1; cbn [trace firstn segment_writes];
        rewrite <- app_assoc; (split; [reflexivity|]).
      * intros ps H. injection H as <-. destruct (Hok paths eq_refl) as [-> ->].
        split; reflexivity.
      * discriminate.
    + exists 1%nat. cbn [fst snd trace firstn segment_writes length].
      split; [lia|]. split; [reflexivity | discriminate].
Qed.

(** The combiner, for two segments or more and once its temporary
    directory exists: segments are written to their own files in order,
    the audio tool is run only after all of them were written and the
    output is read only after the tool was run; the directory is removed
    at the end on every path.  A run that succeeds made all of these
    effects. *)
Theorem combiner_cleans_up_on_every_path (audio_segments : list bytes)
    (output_format : str) (st : state World) (dir : str) (w1 : World) :
  (2 <= length audio_segments)%nat ->
  tempdir_enter (world st) = (Ok dir, w1) ->
  let output_path := joinpath dir (lit "concatenated." ++ output_format) in
  let cmd := concat_cmd (segment_paths dir 0 audio_segments) output_path in
  let writes := segment_writes dir 0 audio_segments in
  let run := concatenate_audio_segments audio_segments output_format st in
  exists mid,
    trace (snd run) = trace st ++ [EvTempDir] ++ mid ++ [EvTempDirCleanup dir]
    /\ ((exists k, (k <= length audio_segments)%nat /\ mid = firstn k writes)
        \/ mid = writes ++ [EvRun cmd]
        \/ mid = writes ++ [EvRun cmd; EvReadBytes output_path])
    /\ (forall out, fst run = Ok out ->
        mid = writes ++ [EvRun cmd; EvReadBytes output_path]).
Proof.
  intros Hlen E output_path cmd writes run. unfold run, concatenate_audio_segments.
  destruct (Nat.ltb_spec (length audio_segments) 2) as [|_]; [lia|].
  unfold concat_body.
  match goal with |- context [with_tempdir ?b st] =>
    destruct (with_tempdir_cleans b st E) as [T Hok];
    destruct (with_tempdir b st) as [r st'] eqn:R end.
  cbv beta zeta in T, Hok. cbn [fst snd] in T, Hok.
  set (st1 := State w1 (trace st ++ [EvTempDir])) in *.
  destruct (write_segments_prefix dir audio_segments 0 st1) as (k & Hk & Tw & Hw).
  unfold bind at 1 in T. unfold bind at 1 in Hok.
  destruct (write_segments dir 0 audio_segments st1) as [[paths|e] st2];
    cbn [fst snd world trace] in *.
  - destruct (Hw paths eq_refl) as [-> ->].
    rewrite firstn_all2 in Tw by (rewrite segment_writes_length; lia).
    fold output_path cmd in T, Hok. unfold bind, perform in T, Hok.
    destruct (subprocess_run cmd (world st2)) as [[u|e] w3];
      cbn [fst snd world trace] in *.
    + destruct (path_read_bytes output_path w3) as [r3 w4].
      cbn [fst snd world trace] in *.
      exists (writes ++ [EvRun cmd; EvReadBytes output_path]).
      split; [|split; [auto|auto]].
      rewrite T, Tw. unfold st1. cbn [trace]. fold writes.
      now rewrite <- !app_assoc.
    + exists (writes ++ [EvRun cmd]). split; [|split; [auto|]].
      * rewrite T, Tw. unfold st1. cbn [trace]. fold writes.
        now rewrite <- !app_assoc.
      * intros out ->. specialize (Hok out eq_refl). discriminate.
  - exists (firstn k writes). split; [|split].
    + rewrite T, Tw. unfold st1. cbn [trace]. now rewrite <- !app_assoc.
    + left. now exists k.
    + intros out ->. specialize (Hok out eq_refl). discriminate.
Qed.

(** The speech synthesizer normalises the transcript itself: a transcript
    that was already normalised is sent, and answered, exactly as the
    original one. *)
Theorem tts_of_normalized_transcript (cartesia_api_key transcript : str)
    (st : state World) :
  synthesize_cartesia_tts cartesia_api_key (_apply_pronunciation_hints transcript) st
  = synthesize_cartesia_tts cartesia_api_key transcript st.
Proof. unfold synthesize_cartesia_tts. now rewrite normalizer_twice. Qed.

(** The length of what the loop gathers. *)
Lemma loop_length key stories : forall total idx segments (st st' : state World) out,
  total = (idx + length stories)%nat ->
  synthesize_segments key total idx stories segments st = (Ok out, st') ->
  length out
  = (length segments + 2 * length stories - (match stories with [] => 0 | _ => 1 end))%nat.
Proof.
  induction stories as [|story rest IH]; intros total idx segments st st' out Ht H.
  - simpl in H. step H. simpl. lia.
  - simpl in H. step H. simpl length in Ht.
    destruct (Nat.ltb_spec (idx + 1) total) as [Hlt|Hge].
    + step H. apply IH in H; [|lia]. rewrite H, !length_app. simpl.
      destruct rest; simpl in *; lia.
    + assert (rest = []) by (destruct rest; [reflexivity | simpl in *; lia]).
      subst rest. simpl in H. step H. rewrite length_app. simpl. lia.
Qed.

Lemma loop_runs key stories : forall total idx segments (st st' : state World) out,
  total = (idx + length stories)%nat ->
  synthesize_segments key total idx stories segments st = (Ok out, st') ->
  exists new,
    trace st' = trace st ++ new
    /\ length (filter is_run new) = (length stories - 1)%nat.
Proof.
  induction stories as [|story rest IH]; intros total idx segments st st' out Ht H.
  - simpl in H. step H. exists []. now rewrite app_nil_r.
  - simpl in H. step H. apply tts_ok in Hrun. simpl length in Ht.
    destruct (Nat.ltb_spec (idx + 1) total) as [Hlt|Hge].
    + step H. apply silence_ok in Hrun0 as [dir Tz].
      apply IH in H as (new & T & Hn); [|lia].
      eexists. split; [rewrite T, Tz, Hrun, <- !app_assoc; reflexivity|].
      rewrite !filter_app, !length_app, Hn. simpl.
      destruct rest; simpl in *; lia.
    + assert (rest = []) by (destruct rest; [reflexivity | simpl in *; lia]).
      subst rest. simpl in H. step H.
      eexists. split; [rewrite Hrun; reflexivity|]. reflexivity.
Qed.

(** For any number [n] of stories, a successful run of the synthesis
    loop posts one request per story, in the order of the stories, runs
    the audio tool [n - 1] times for the silences between them, and
    gathers [2n - 1] segments ([0] for no story). *)
Theorem loop_synthesizes_each_story_once (key : str) (written : WrittenStories.t)
    (st st' : state World) (segments : list bytes) :
  let stories := WrittenStories.stories written in
  synthesize_segments key (length stories) 0 stories [] st = (Ok segments, st') ->
  exists new,
    trace st' = trace st ++ new
    /\ filter is_post new
       = flat_map (fun story =>
           tts_events key (_story_tts_transcript (WrittenStory.headline story)
                                                 (WrittenStory.story story)))
           stories
    /\ length (filter is_run new) = (length stories - 1)%nat
    /\ length segments = (2 * length stories - (match stories with [] => 0 | _ => 1 end))%nat.
Proof.
  intros stories H.
  destruct (@loop_posts_once_per_story World env key stories (length stories) 0 []
              st st' segments H) as (new & T & Hp).
  destruct (@loop_runs key stories (length stories) 0 [] st st' segments eq_refl H)
    as (new' & T' & Hr).
  rewrite T in T'. apply app_inv_head in T'. subst new'.
  exists new. repeat split; auto.
  now rewrite (@loop_length key stories (length stories) 0 [] st st' segments eq_refl H).
Qed.

(** With no story there is nothing to combine: the audio stage returns
    without any effect. *)
Lemma audio_stage_without_stories key prefix zone access region run_dir topic
    (st : state World) :
  audio_stage key prefix zone access region run_dir (WrittenStories.make topic []) st
  = (Ok None, st).
Proof. reflexivity. Qed.

Lemma audio_stage_puts key prefix zone access region run_dir written :
  puts_at_most 1 (audio_stage key prefix zone access region run_dir written).
Proof.
  unfold audio_stage. apply puts_bind with (n := 0%nat) (m := 1%nat).
  - eapply puts_none; [|apply synthesize_and_combine_emits].
    intros ev. now destruct ev.
  - intros combined. destruct combined as [|b combined].
    + apply puts_more with (n := 0%nat); [lia|].
      eapply puts_none; [|apply (emits_ret is_synthesis_event)].
      intros ev. now destruct ev.
    + apply puts_bind with (n := 0%nat) (m := 1%nat).
      { eapply puts_none; [|apply (emits_perform is_synthesis_event)];
          [intros ev; now destruct ev | reflexivity]. }
      intros ?. apply puts_bind with (n := 1%nat) (m := 0%nat); [apply puts_upload|].
      intros url. eapply puts_none with (allowed := is_persist_event).
      { intros ev. now destruct ev. }
      apply emits_bind; [now apply emits_perform | intros ?]. apply emits_ret.
Qed.

(** The audio stage uploads at most once, whatever happens, and not at
    all when synthesis or combination fails: it then raises that error
    in the state that failure left, whose effects are those of synthesis
    and combination only (no request to the object store, no URL file).
    With no story it does nothing. *)
Theorem audio_stage_uploads_at_most_once (key prefix zone access region run_dir : str)
    (written : WrittenStories.t) (st : state World) :
  let run := audio_stage key prefix zone access region run_dir written st in
  (exists new,
     trace (snd run) = trace st ++ new /\ (length (filter is_put new) <= 1)%nat)
  /\ (forall e st1,
        synthesize_and_combine key written st = (Raise e, st1) ->
        run = (Raise e, st1)
        /\ exists new, trace st1 = trace st ++ new
                       /\ Forall (fun ev => is_synthesis_event ev = true) new)
  /\ (WrittenStories.stories written = [] -> run = (Ok None, st)).
Proof.
  intros run. split; [apply audio_stage_puts|]. split.
  - intros e st1 H. split.
    + unfold run, audio_stage, bind. now rewrite H.
    + destruct (synthesize_and_combine_emits key written st) as (new & T & F).
      rewrite H in T. now exists new.
  - intros H. unfold run. destruct written as [topic stories]. simpl in H.
    subst stories. apply audio_stage_without_stories.
Qed.

End WithEnvironment.
End AudioPathFacts.

(* ================================================================== *)
(** * app.py: the dotenv file, the log and the Sprite run *)
(* ================================================================== *)

Module AppFacts.
Import PyStr PyStrFacts AppSupport MoreVocabulary.

(** ** Bounded buffers *)

Lemma last_n_short {A} n (xs : list A) : (length xs <= n)%nat -> last_n n xs = xs.
Proof.
  intros H. unfold last_n. replace (length xs - n)%nat with 0%nat by lia. reflexivity.
Qed.

Lemma last_n_length {A} n (xs : list A) : (length (last_n n xs) <= n)%nat.
Proof. unfold last_n. rewrite length_skipn. lia. Qed.

Lemma last_n_app {A} n (p q : list A) :
  (n <= length q)%nat -> last_n n (p ++ q) = last_n n q.
Proof.
  intros H. unfold last_n. rewrite length_app, skipn_app.
  rewrite skipn_all2 by lia. simpl. f_equal. lia.
Qed.

Lemma last_n_absorb {A} n m (xs ys : list A) :
  (n <= m)%nat -> last_n n (last_n m xs ++ ys) = last_n n (xs ++ ys).
Proof.
  intros Hnm. destruct (Nat.le_gt_cases (length xs) m) as [H|H].
  - now rewrite (last_n_short xs H).
  - rewrite <- (firstn_skipn (length xs - m) xs) at 2.
    rewrite <- app_assoc. fold (last_n m xs).
    symmetry. apply last_n_app. rewrite length_app. unfold last_n.
    rewrite length_skipn. lia.
Qed.

Lemma append_bounded_last n buffer line :
  (length buffer <= n)%nat ->
  append_bounded n buffer line = last_n n (buffer ++ [line]).
Proof.
  intros H. unfold append_bounded, last_n. rewrite length_app. simpl length.
  destruct (Nat.ltb_spec n (length buffer + 1)) as [Hlt|Hge].
  - replace (length buffer + 1 - n)%nat with 1%nat by lia. reflexivity.
  - replace (length buffer + 1 - n)%nat with 0%nat by lia. reflexivity.
Qed.

Lemma fold_append_bounded n lines : forall buffer,
  (length buffer <= n)%nat ->
  fold_left (append_bounded n) lines buffer = last_n n (buffer ++ lines).
Proof.
  induction lines as [|line rest IH]; intros buffer H; simpl.
  - rewrite app_nil_r. symmetry. now apply last_n_short.
  - rewrite append_bounded_last by assumption.
    rewrite IH by apply last_n_length.
    rewrite last_n_absorb by lia. now rewrite <- app_assoc.
Qed.

(** The log shown in the page holds the last 200 lines received, in
    order, joined by line feeds. *)
Theorem sprite_log_keeps_last_200 (lines : list str) (line : str) :
  _on_sprite_log (sprite_log_after lines) line
  = (last_n 200 (lines ++ [line]), join [linefeed] (last_n 200 (lines ++ [line]))).
Proof.
  assert (H : sprite_log_after lines = last_n 200 lines).
  { unfold sprite_log_after.
    change (fold_left (append_bounded 200) lines [] = last_n 200 lines).
    now rewrite fold_append_bounded by (simpl; lia). }
  unfold _on_sprite_log. rewrite H.
  rewrite append_bounded_last by apply last_n_length.
  now rewrite last_n_absorb by lia.
Qed.


(** ** The loop over the output of the Sprite process *)

#[local] Abbreviation chomp :=
  (rstrip_by (fun c => existsb (ascii_eqb c) [linefeed])).

Lemma last_cons {A} (x : A) xs d : last (x :: xs) d = last xs x.
Proof.
  revert x d. induction xs as [|y xs IH]; intros x d; [reflexivity|].
  change (last (y :: xs) d = last (y :: xs) x). now rewrite !IH.
Qed.

Lemma scan_from has_callback raw_lines : forall s,
  (length (stderr_tail_lines s) <= 50)%nat ->
  let out := fold_left (scan_step has_callback) raw_lines s in
  marker_line out = last (marker_lines raw_lines) (marker_line s)
  /\ logged out
     = logged s ++ (if has_callback
                    then filter (fun line => negb (str_eqb line [])) (log_lines raw_lines)
                    else [])
  /\ stderr_tail_lines out = last_n 50 (stderr_tail_lines s ++ log_lines raw_lines).
Proof.
  unfold marker_lines, log_lines, output_lines, is_marker_line.
  induction raw_lines as [|raw rest IH]; intros s H; cbn [fold_left map filter].
  - cbv zeta. cbn [last]. rewrite !app_nil_r. split; [reflexivity|].
    split; [destruct has_callback; now rewrite ?app_nil_r | symmetry; now apply last_n_short].
  - cbv zeta. unfold scan_step at 2 4 6. cbv zeta.
    destruct (startswith RESULT_MARKER (chomp raw)) eqn:E; cbn [negb].
    + match goal with |- context [fold_left _ rest ?s1] =>
        destruct (IH s1) as (I1 & I2 & I3); [exact H|] end.
      cbv zeta. rewrite I1, I2, I3. cbn [marker_line logged stderr_tail_lines].
      split; [|split; reflexivity].
      symmetry. apply last_cons.
    + match goal with |- context [fold_left _ rest ?s1] =>
        destruct (IH s1) as (I1 & I2 & I3) end.
      { cbn [stderr_tail_lines]. rewrite append_bounded_last by assumption.
        apply last_n_length. }
      cbv zeta. rewrite I1, I2, I3. cbn [marker_line logged stderr_tail_lines].
      split; [reflexivity|]. split.
      * destruct has_callback; cbn [andb filter].
        -- destruct (negb (str_eqb (chomp raw) [])); [|reflexivity].
           now rewrite <- app_assoc.
        -- reflexivity.
      * rewrite append_bounded_last by assumption.
        rewrite last_n_absorb by lia. now rewrite <- app_assoc.
Qed.

(** What the loop over the output of the Sprite process ends with, for
    any output: the marker line is the last line that starts with the
    result marker (none: the empty string); the lines with the marker
    are neither logged nor kept; the callback, when there is one, gets
    every other line that is not empty, in order; the tail holds the
    last 50 of the other lines, empty ones included. *)
Theorem sprite_output_scan (has_callback : bool) (raw_lines : list str) :
  let out := scan_output has_callback raw_lines in
  marker_line out = last (marker_lines raw_lines) []
  /\ logged out
     = (if has_callback
        then filter (fun line => negb (str_eqb line [])) (log_lines raw_lines)
        else [])
  /\ stderr_tail_lines out = last_n 50 (log_lines raw_lines).
Proof.
  exact (@scan_from has_callback raw_lines (MakeScan [] [] []) (Nat.le_0_l 50)).
Qed.

Lemma last_n_twice {A} n m (xs : list A) :
  (n <= m)%nat -> last_n n (last_n m xs) = last_n n xs.
Proof.
  intros H. rewrite <- (app_nil_r (last_n m xs)), last_n_absorb by assumption.
  now rewrite app_nil_r.
Qed.

Lemma last_in {A} (xs : list A) d : xs <> [] -> In (last xs d) xs.
Proof.
  induction xs as [|x [|y xs] IH]; intros H; [contradiction | now left |].
  right. apply IH. discriminate.
Qed.

(** The outcome of a Sprite run, from the exit status and the output of
    the process.  A status other than zero raises, marker line or not,
    with a message that ends with the last 20 lines of the output that
    carry no marker.  With status zero the run raises when no line
    carried the marker, and otherwise hands to the JSON reader what
    follows the marker on the last line that carried it. *)
Theorem sprite_verdict_of_output (return_code : Z) (has_callback : bool)
    (raw_lines : list str) :
  let verdict := sprite_verdict return_code (scan_output has_callback raw_lines) in
  (return_code <> 0%Z ->
   verdict
   = inl (lit "Sprite run failed. Ensure Node dependencies are installed with `npm install` and check token/repo settings."
          ++ [linefeed] ++ join [linefeed] (last_n 20 (log_lines raw_lines))))
  /\ (return_code = 0%Z -> marker_lines raw_lines = [] ->
      verdict = inl (lit "Sprite run completed but no structured result was returned."))
  /\ (return_code = 0%Z -> marker_lines raw_lines <> [] ->
      exists payload,
        last (marker_lines raw_lines) [] = RESULT_MARKER ++ payload
        /\ verdict = inr payload).
Proof.
  intros verdict. unfold verdict, sprite_verdict.
  destruct (@scan_from has_callback raw_lines (MakeScan [] [] []) (Nat.le_0_l 50))
    as (Hm & _ & Ht).
  change (fold_left (scan_step has_callback) raw_lines (MakeScan [] [] []))
    with (scan_output has_callback raw_lines) in Hm, Ht.
  cbn [marker_line stderr_tail_lines app] in Hm, Ht.
  rewrite Ht. split; [|split].
  - intros H. apply Z.eqb_neq in H. rewrite H. cbn [negb].
    now rewrite last_n_twice by lia.
  - intros -> E. rewrite Hm, E. reflexivity.
  - intros -> Hne. cbn [Z.eqb negb].
    assert (Hin : In (marker_line (scan_output has_callback raw_lines))
                     (marker_lines raw_lines))
      by (rewrite Hm; now apply last_in).
    apply filter_In in Hin as [_ Hs].
    unfold is_marker_line in Hs. apply startswith_iff in Hs as [payload E].
    exists payload. split; [now rewrite <- Hm|]. rewrite E.
    rewrite removeprefix_app. reflexivity.
Qed.


(** ** [_save_env_var] *)

Lemma escape_value_cons c value :
  escape_value (c :: value)
  = (if ascii_eqb c backslash then [backslash; backslash]
     else if ascii_eqb c quote then [backslash; quote] else [c])
    ++ escape_value value.
Proof.
  unfold escape_value, replace_char. cbn [flat_map]. rewrite flat_map_app.
  f_equal. destruct (ascii_eqb c backslash) eqn:Eb.
  - reflexivity.
  - cbn [flat_map]. destruct (ascii_eqb c quote); reflexivity.
Qed.

(** Escaping loses nothing: two values with the same escaped form are
    the same value. *)
Lemma escape_value_injective a : forall b,
  escape_value a = escape_value b -> a = b.
Proof.
  induction a as [|c a IH]; intros [|d b] H.
  - reflexivity.
  - rewrite escape_value_cons in H.
    destruct (ascii_eqb d backslash); [|destruct (ascii_eqb d quote)]; discriminate.
  - rewrite escape_value_cons in H.
    destruct (ascii_eqb c backslash); [|destruct (ascii_eqb c quote)]; discriminate.
  - rewrite !escape_value_cons in H.
    destruct (ascii_eqb c backslash) eqn:Cb;
      [apply ascii_eqb_eq in Cb; subst c|destruct (ascii_eqb c quote) eqn:Cq;
        [apply ascii_eqb_eq in Cq; subst c|]];
    (destruct (ascii_eqb d backslash) eqn:Db;
      [apply ascii_eqb_eq in Db; subst d|destruct (ascii_eqb d quote) eqn:Dq;
        [apply ascii_eqb_eq in Dq; subst d|]]);
    cbn [app] in H; injection H; intros; subst;
    try discriminate; try (f_equal; now apply IH).
Qed.

(** The line written for a key tells the value: different values are
    never written as the same line. *)
Theorem env_line_tells_value (key value value' : str) :
  env_line key value = env_line key value' -> value = value'.
Proof.
  unfold env_line. intros H.
  apply app_inv_head in H. apply app_inv_head in H. apply app_inv_head in H.
  rewrite !app_assoc in H. apply app_inv_tail in H. apply app_inv_tail in H.
  now apply escape_value_injective.
Qed.

Lemma env_line_is_key_line key value : is_key_line key (env_line key value) = true.
Proof. unfold is_key_line, env_line. rewrite app_assoc. apply startswith_app. Qed.

Section Lines.
Variables key new_line : str.

Lemma env_fold_found lines : forall acc,
  fold_left (env_step key new_line) lines (acc, true)
  = (acc ++ filter (not_key_line key) lines, true).
Proof.
  induction lines as [|line rest IH]; intros acc; cbn [fold_left filter].
  - now rewrite app_nil_r.
  - unfold env_step at 2, not_key_line at 1, is_key_line.
    destruct (startswith (key ++ lit "=") line); cbn [negb].
    + apply IH.
    + rewrite IH. now rewrite <- app_assoc.
Qed.

Lemma env_fold_absent lines : key_free key lines -> forall acc found,
  fold_left (env_step key new_line) lines (acc, found) = (acc ++ lines, found).
Proof.
  induction 1 as [|line rest Hline _ IH]; intros acc found; cbn [fold_left].
  - now rewrite app_nil_r.
  - unfold env_step at 2. unfold is_key_line in Hline. rewrite Hline.
    rewrite IH. now rewrite <- app_assoc.
Qed.

Lemma env_fold_first before line after :
  key_free key before -> is_key_line key line = true ->
  env_loop key new_line (before ++ line :: after)
  = (before ++ new_line :: filter (not_key_line key) after, true).
Proof.
  intros Hb Hl. unfold env_loop. rewrite fold_left_app, env_fold_absent by assumption.
  cbn [fold_left app]. unfold env_step at 2. unfold is_key_line in Hl. rewrite Hl.
  rewrite env_fold_found. now rewrite <- app_assoc.
Qed.

(** When a line assigns the key, the first such line is replaced in
    place by the new line, the later ones are dropped, and every other
    line is kept where it was. *)
Lemma env_lines_replace_first (before after : list str) (line : str) :
  key_free key before -> is_key_line key line = true ->
  updated_env_lines key new_line (before ++ line :: after)
  = before ++ new_line :: filter (not_key_line key) after.
Proof.
  intros Hb Hl. unfold updated_env_lines. now rewrite env_fold_first.
Qed.

(** When no line assigns the key, the lines are kept, the last one is
    ended with a line feed if it had none, and the new line is added at
    the end. *)
Lemma env_lines_append (lines : list str) :
  key_free key lines ->
  updated_env_lines key new_line lines = end_last_line lines ++ [new_line].
Proof.
  intros H. unfold updated_env_lines, env_loop. now rewrite env_fold_absent.
Qed.

Lemma key_split lines :
  key_free key lines
  \/ exists before line after,
       lines = before ++ line :: after
       /\ key_free key before /\ is_key_line key line = true.
Proof.
  induction lines as [|l rest IH]; [left; constructor|].
  destruct (is_key_line key l) eqn:E.
  - right. exists [], l, rest. repeat split; auto. constructor.
  - destruct IH as [H | (before & line & after & -> & Hb & Hl)].
    + left. now constructor.
    + right. exists (l :: before), line, after. repeat split; auto. now constructor.
Qed.

End Lines.

Lemma startswith_longer p c : forall s d,
  c <> d -> startswith (p ++ [c]) (s ++ [d]) = true -> startswith (p ++ [c]) s = true.
Proof.
  induction p as [|a p IH]; intros [|x s] d Hcd H; cbn [app startswith] in *.
  - apply andb_true_iff in H as [H _]. apply ascii_eqb_eq in H. contradiction.
  - apply andb_true_iff in H as [H _]. now rewrite H.
  - apply andb_true_iff in H as [_ H]. destruct p; discriminate.
  - apply andb_true_iff in H as [Ha H]. rewrite Ha. cbn [andb]. now apply (IH s d).
Qed.

Lemma key_line_ended key line :
  is_key_line key line = false -> is_key_line key (line ++ [linefeed]) = false.
Proof.
  unfold is_key_line. intros H.
  destruct (startswith (key ++ lit "=") (line ++ [linefeed])) eqn:E; [|reflexivity].
  apply startswith_longer in E; [|discriminate].
  change (startswith (key ++ lit "=") line = true) in E. congruence.
Qed.

Lemma key_free_app key a b : key_free key (a ++ b) <-> key_free key a /\ key_free key b.
Proof. apply Forall_app. Qed.

Lemma end_last_line_key_free key lines :
  key_free key lines -> key_free key (end_last_line lines).
Proof.
  intros H. unfold end_last_line. destruct (rev lines) as [|last_line before] eqn:E;
    [exact H|].
  destruct (endswith [linefeed] last_line); [exact H|].
  apply (f_equal (@rev _)) in E. rewrite rev_involutive in E. cbn [rev] in E.
  rewrite E in H. apply key_free_app in H as [Hb Hl]. apply key_free_app.
  split; [exact Hb|]. inversion Hl; subst. constructor; [|constructor].
  now apply key_line_ended.
Qed.

Lemma filter_key_free key lines :
  key_free key lines -> filter (is_key_line key) lines = [].
Proof.
  induction 1 as [|l rest Hl _ IH]; [reflexivity|]. cbn [filter]. now rewrite Hl.
Qed.

Lemma filter_not_key_free key lines :
  key_free key (filter (not_key_line key) lines).
Proof.
  apply Forall_forall. intros l Hin. apply filter_In in Hin as [_ H].
  unfold not_key_line in H. now apply negb_true_iff in H.
Qed.

(** After [_save_env_var] exactly one line of those it joins assigns the
    key, and it is the new line, whatever the file held: duplicates of
    the key are removed. *)
Theorem env_lines_assign_key_once (key value : str) (lines : list str) :
  filter (is_key_line key) (updated_env_lines key (env_line key value) lines)
  = [env_line key value].
Proof.
  destruct (key_split key lines) as [H | (before & line & after & -> & Hb & Hl)].
  - rewrite env_lines_append by assumption. rewrite filter_app.
    rewrite filter_key_free by now apply end_last_line_key_free.
    cbn [filter app]. now rewrite env_line_is_key_line.
  - rewrite env_lines_replace_first by assumption. rewrite filter_app.
    rewrite (filter_key_free Hb). cbn [filter app].
    rewrite env_line_is_key_line. f_equal.
    apply filter_key_free, filter_not_key_free.
Qed.


(** Joining the lines of a text gives back the text. *)
Lemma splitlines_aux_concat n : forall text cur,
  (length text <= n)%nat -> concat (splitlines_aux cur text) = rev cur ++ text.
Proof.
  induction n as [|n IH]; intros [|c text] cur Hn; cbn [length] in Hn; try lia.
  - destruct cur; cbn [splitlines_aux flush concat]; now rewrite app_nil_r.
  - destruct cur; cbn [splitlines_aux flush concat]; now rewrite app_nil_r.
  - cbn [splitlines_aux]. destruct (is_cr c).
    + destruct text as [|c2 text]; [cbn; now rewrite app_nil_r|].
      cbn [length] in Hn. destruct (is_lf c2); cbn [concat].
      * rewrite (IH text []) by lia. cbn [rev app]. now rewrite <- !app_assoc.
      * rewrite (IH (c2 :: text) []) by (cbn [length]; lia).
        cbn [rev app]. now rewrite <- app_assoc.
    + destruct (is_linebreak c).
      * cbn [concat]. rewrite (IH text []) by lia. cbn [rev app].
        now rewrite <- app_assoc.
      * rewrite IH by lia. cbn [rev]. now rewrite <- app_assoc.
Qed.

Lemma splitlines_concat text : concat (splitlines text) = text.
Proof. exact (@splitlines_aux_concat (length text) text [] (Nat.le_refl _)). Qed.

Lemma splitlines_aux_nonempty n : forall text cur,
  (length text <= n)%nat ->
  Forall (fun line : str => line <> []) (splitlines_aux cur text).
Proof.
  assert (R : forall (c : ascii) cur, rev (c :: cur) <> []).
  { intros c cur E. apply (f_equal (@length _)) in E.
    rewrite length_rev in E. discriminate. }
  induction n as [|n IH]; intros [|c text] cur Hn; cbn [length] in Hn; try lia.
  - destruct cur; cbn [splitlines_aux flush]; repeat constructor. apply R.
  - destruct cur; cbn [splitlines_aux flush]; repeat constructor. apply R.
  - cbn [splitlines_aux]. destruct (is_cr c).
    + destruct text as [|c2 text]; [repeat constructor; apply R|].
      cbn [length] in Hn. destruct (is_lf c2); constructor;
        try apply R; apply IH; cbn [length]; lia.
    + destruct (is_linebreak c); [constructor; [apply R | apply IH; lia]|].
      apply IH. lia.
Qed.

Lemma endswith_app_nonempty p a b : b <> [] -> endswith [p] (a ++ b) = endswith [p] b.
Proof.
  intros Hb. unfold endswith. rewrite rev_app_distr.
  destruct (rev b) as [|c r] eqn:E.
  - apply (f_equal (@length _)) in E. rewrite length_rev in E.
    destruct b; [contradiction | discriminate].
  - cbn [rev app startswith]. reflexivity.
Qed.

(** What ending the last line does to the text. *)
Lemma end_last_line_concat (lines : list str) :
  Forall (fun line : str => line <> []) lines ->
  concat (end_last_line lines)
  = concat lines
    ++ (if str_eqb (concat lines) [] || endswith [linefeed] (concat lines)
        then [] else [linefeed]).
Proof.
  intros H. unfold end_last_line.
  destruct (rev lines) as [|last_line before] eqn:E.
  - destruct lines; [reflexivity|]. apply (f_equal (@length _)) in E.
    rewrite length_rev in E. discriminate.
  - apply (f_equal (@rev _)) in E. rewrite rev_involutive in E. cbn [rev] in E.
    subst lines. apply Forall_app in H as [_ H]. inversion H as [|? ? Hl _]; subst.
    rewrite !concat_app. cbn [concat]. rewrite !app_nil_r.
    rewrite endswith_app_nonempty by assumption.
    destruct (endswith [linefeed] last_line).
    + rewrite orb_true_r, app_nil_r, concat_app. cbn [concat]. now rewrite app_nil_r.
    + assert (Hne : str_eqb (concat (rev before) ++ last_line) [] = false).
      { apply str_eqb_neq. intros E. apply app_eq_nil in E as [_ E]. contradiction. }
      rewrite Hne. cbn [orb]. rewrite concat_app. cbn [concat].
      now rewrite app_nil_r, <- !app_assoc.
Qed.

(** When no line of the file assigns the key, the file keeps its text
    and gains the new line at its end, after a line feed if the text
    did not end with one. *)
Theorem save_env_var_appends (key value text : str) :
  key_free key (splitlines text) ->
  _save_env_var key value (Some text)
  = text
    ++ (if str_eqb text [] || endswith [linefeed] text then [] else [linefeed])
    ++ env_line key value.
Proof.
  intros H. unfold _save_env_var. rewrite env_lines_append by assumption.
  rewrite concat_app, end_last_line_concat
    by exact (@splitlines_aux_nonempty (length text) text [] (Nat.le_refl _)).
  rewrite splitlines_concat. cbn [concat]. now rewrite app_nil_r, <- app_assoc.
Qed.

(** When a line of the file assigns the key, the text before the first
    such line is kept, that line gives way to the new one, and the text
    after it is kept except for its lines that assign the key. *)
Theorem save_env_var_replaces (key value text : str) (before after : list str)
    (line : str) :
  splitlines text = before ++ line :: after ->
  key_free key before -> is_key_line key line = true ->
  text = concat before ++ line ++ concat after
  /\ _save_env_var key value (Some text)
     = concat before ++ env_line key value
       ++ concat (filter (not_key_line key) after).
Proof.
  intros E Hb Hl. split.
  - rewrite <- (splitlines_concat text) at 1. rewrite E, concat_app. reflexivity.
  - unfold _save_env_var. rewrite E, env_lines_replace_first by assumption.
    rewrite concat_app. reflexivity.
Qed.

End AppFacts.

(* ================================================================== *)
(** * The stages on every path *)
(* ================================================================== *)

Module StageFacts.
Import PyStr PyStrFacts Models DateTime Effects AudioText AgentCore.
Import Vocabulary MoreVocabulary EffectFacts RunFacts HintsFacts AgentFacts.

(** After normalisation no acronym of the table is left in the text as
    a word of its own: no pattern of the table matches the output. *)
Theorem hints_leave_no_acronym (text : str) :
  acronym_free (_apply_pronunciation_hints text).
Proof.
  apply acronym_free_words. unfold _apply_pronunciation_hints.
  rewrite words_collapse. apply one_pass_clears.
Qed.

Lemma runs_pieces f s : Forall (fun u => u <> [] /\ all_in f u) (runs f s).
Proof.
  induction s as [|c rest Hc IH|u Hne Hu|u c rest Hne Hu Hc IH] using (@run_ind f).
  - constructor.
  - now rewrite runs_sep.
  - rewrite runs_single by assumption. repeat constructor; assumption.
  - rewrite runs_run_sep by assumption. constructor; [now split | exact IH].
Qed.

Lemma join_none_in f sep parts :
  none_in f sep -> Forall (none_in f) parts -> none_in f (join sep parts).
Proof.
  intros Hs. induction 1 as [|p rest Hp Hrest IH]; [constructor|].
  destruct rest as [|q rest]; [exact Hp|].
  change (join sep (p :: q :: rest)) with (p ++ sep ++ join sep (q :: rest)).
  apply Forall_app; split; [exact Hp|]. apply Forall_app; split; [exact Hs | exact IH].
Qed.

Lemma none_in_firstn f n : forall s, none_in f s -> none_in f (firstn n s).
Proof.
  induction n as [|n IH]; intros s H; [constructor|].
  destruct H as [|c s Hc Hs]; [constructor|]. cbn [firstn].
  constructor; [exact Hc | now apply IH].
Qed.

(** The slug of a topic is never empty, has at most 60 characters and
    holds no whitespace, whatever the topic. *)
Theorem topic_slug_is_one_word (topic : str) :
  topic_slug topic <> []
  /\ (length (topic_slug topic) <= 60)%nat
  /\ none_in isspace (topic_slug topic).
Proof.
  split; [apply topic_slug_not_empty|]. split; [apply topic_slug_length|].
  unfold topic_slug, or_else, slice_to.
  assert (H : none_in isspace (firstn 60 (join (lit "-") (split (lower topic))))).
  { apply none_in_firstn. apply join_none_in; [repeat constructor|].
    unfold split. eapply Forall_impl; [|apply runs_pieces].
    intros u [_ Hu]. eapply Forall_impl; [|exact Hu].
    intros c Hc. cbv beta in Hc. now apply negb_true_iff in Hc. }
  destruct (firstn 60 (join (lit "-") (split (lower topic)))); [|exact H].
  repeat constructor.
Qed.

Section WithEnvironment.
Context {World : Type} {env : Environment World}.




End WithEnvironment.
End StageFacts.

(* ================================================================== *)
(** * cli.py: the whole run *)
(* ================================================================== *)

Module WholeRunFacts.
Import PyStr PyStrFacts Models DateTime Effects AudioText AudioUtils AgentCore Cli CliMain.
Import Vocabulary MoreVocabulary EffectVocabulary EffectFacts EmitFacts AudioPathFacts.

Section WithEnvironment.
Context {World : Type} {env : Environment World}.
Variable getenv : str -> option str.
Variable expanduser : str -> str.

#[local] Abbreviation main := (CliMain.main getenv expanduser).

Lemma run_stages_puts args key cartesia prefix zone access region :
  puts_at_most 1 (run_stages expanduser args key cartesia prefix zone access region).
Proof.
  unfold run_stages.
  apply puts_bind with (n := 0%nat) (m := 1%nat).
  { eapply puts_none; [|apply generate_story_plan_emits]. intros ev. now destruct ev. }
  intros plan. apply puts_bind with (n := 0%nat) (m := 1%nat).
  { eapply puts_none; [|apply write_full_stories_emits]. intros ev. now destruct ev. }
  intros written. apply puts_bind with (n := 0%nat) (m := 1%nat).
  { eapply puts_none; [|apply save_outputs_emits]. intros ev. now destruct ev. }
  intros run_dir. destruct (with_audio args && truthy cartesia).
  - apply puts_bind with (n := 1%nat) (m := 0%nat); [apply audio_stage_puts|].
    intros ?. eapply puts_none; [|apply (emits_ret is_agent_event)].
    intros ev. now destruct ev.
  - apply puts_more with (n := 0%nat); [lia|].
    eapply puts_none; [|apply (emits_ret is_agent_event)].
    intros ev. now destruct ev.
Qed.

(** Whatever the arguments, the environment and the outcome, a run of
    [main] sends at most one request to the object store. *)
Theorem main_uploads_at_most_once (args : Args) (st : state World) :
  exists new,
    trace (snd (main args st)) = trace st ++ new
    /\ (length (filter is_put new) <= 1)%nat.
Proof.
  unfold CliMain.main. cbv zeta.
  destruct (negb (truthy _));
    [exists []; simpl; split; [now rewrite app_nil_r | lia]|].
  destruct (with_audio args && negb (truthy _));
    [exists []; simpl; split; [now rewrite app_nil_r | lia]|].
  match goal with |- context [if ?b then (Raised (RuntimeError missing_bunny_message), st) else _] =>
    destruct b end;
    [exists []; simpl; split; [now rewrite app_nil_r | lia]|].
  match goal with |- context [run_stages ?e ?a ?k ?c ?p ?z ?x ?r st] =>
    destruct (@run_stages_puts a k c p z x r st) as (new & T & Hn);
    destruct (run_stages e a k c p z x r st) as [[u|e'] st'] end;
    now exists new.
Qed.



End WithEnvironment.
End WholeRunFacts.

(* ================================================================== *)
(** * The facts above on scripted runs *)
(* ================================================================== *)

Module Instances.
Import PyStr PyStrFacts Models DateTime Effects AudioText AudioUtils AgentCore Cli CliMain.
Import Traces Vocabulary MoreVocabulary EffectVocabulary AppSupport ScriptedRuns.
Import MainFacts UploadFacts AudioPathFacts AppFacts StageFacts WholeRunFacts.

Lemma main_audio_needs_configuration_witness :
  CliMain.main no_env same_path audio_args Scripted.start
  = (Raised (RuntimeError missing_cartesia_message), Scripted.start).
Proof.
  apply (proj1 (@main_audio_needs_configuration _ Scripted.env no_env same_path
                  audio_args Scripted.start eq_refl eq_refl)).
  reflexivity.
Defined.

Lemma main_without_audio_has_no_audio_effect_witness :
  exists new,
    trace (snd (CliMain.main no_env same_path quiet_args Scripted.start))
    = trace Scripted.start ++ new
    /\ Forall (fun ev => is_agent_event ev || is_persist_event ev = true) new
    /\ Forall (fun ev =>
         match ev with
         | EvPost _ _ | EvPut _ _ _ _ | EvTempDir | EvTempDirCleanup _ | EvRun _
         | EvWriteBytes _ _ | EvReadBytes _ => False
         | _ => True
         end) new.
Proof.
  exact (@main_without_audio_has_no_audio_effect _ Scripted.env no_env same_path
           quiet_args Scripted.start eq_refl).
Defined.



Lemma main_persists_nothing_without_stories_witness :
  fst (@CliMain.main _ short_env no_env same_path quiet_args Scripted.start) <> Returned
  /\ exists new,
       trace (snd (@CliMain.main _ short_env no_env same_path quiet_args Scripted.start))
       = trace Scripted.start ++ new
       /\ Forall (fun ev => is_agent_event ev = true) new
       /\ Forall (fun ev => is_output_write ev = false) new.
Proof.
  apply (@main_persists_nothing_without_stories _ short_env no_env same_path
           quiet_args Scripted.start).
  intros plan st1 H. eexists. eexists. vm_compute. reflexivity.
Defined.

Lemma normalize_object_path_normal_form_witness :
  split_on "/" [] (normalize_object_path (lit "//audio//run/a.wav/"))
  = path_segments (lit "//audio//run/a.wav/")
  /\ Forall (fun seg => seg <> [] /\ slash_free seg)
            (split_on "/" [] (normalize_object_path (lit "//audio//run/a.wav/"))).
Proof.
  apply (proj1 (normalize_object_path_normal_form (lit "//audio//run/a.wav/"))).
  vm_compute. discriminate.
Defined.

Lemma upload_refuses_empty_path_witness :
  upload_bytes_to_bunny_storage Scripted.clip (lit "//") (lit "zone") (lit "key")
    (lit "de") (lit "audio/wav") Scripted.start
  = (Raise (ValueError (lit "object_path must not be empty")), Scripted.start).
Proof.
  apply (@upload_refuses_empty_path _ Scripted.env Scripted.clip (lit "//") (lit "zone")
           (lit "key") (lit "de") (lit "audio/wav") Scripted.start).
  repeat constructor.
Defined.

Lemma upload_puts_once_witness :
  let url := upload_url (lit "/audio/a.wav") (lit "zone") (lit "de") in
  let run := upload_bytes_to_bunny_storage Scripted.clip (lit "/audio/a.wav") (lit "zone")
               (lit "key") (lit "de") (lit "audio/wav") Scripted.start in
  trace (snd run)
  = trace Scripted.start ++ [EvPut url (lit "key") (lit "audio/wav") Scripted.clip]
  /\ world (snd run)
     = snd (requests_put url (lit "key") (lit "audio/wav") Scripted.clip
              (world Scripted.start))
  /\ fst run
     = match fst (requests_put url (lit "key") (lit "audio/wav") Scripted.clip
                    (world Scripted.start)) with
       | Ok _ => Ok url
       | Raise e => Raise e
       end.
Proof.
  apply (@upload_puts_once _ Scripted.env Scripted.clip (lit "/audio/a.wav") (lit "zone")
           (lit "key") (lit "de") (lit "audio/wav") Scripted.start).
  intros H. inversion H as [|c0 s0 Hc0 Hs0 E0]. inversion Hs0 as [|c1 s1 Hc1 Hs1 E1].
  discriminate Hc1.
Defined.

Lemma silence_cleans_up_on_every_path_witness :
  let dir := lit "/tmp/t" ++ str_of_int 0 in
  let output_path := joinpath dir (lit "silence.wav") in
  trace (snd (synthesize_silence_segment float_0_8 44100 Scripted.start))
  = trace Scripted.start
    ++ [EvTempDir; EvRun (silence_cmd float_0_8 44100 output_path);
        EvReadBytes output_path; EvTempDirCleanup dir].
Proof.
  exact (@silence_cleans_up_on_every_path _ Scripted.env float_0_8 44100 Scripted.start
           (lit "/tmp/t" ++ str_of_int 0) 1%nat eq_refl eq_refl).
Defined.

Lemma combiner_cleans_up_on_every_path_witness :
  let audio_segments := [Scripted.clip; Scripted.hush] in
  let dir := lit "/tmp/t" ++ str_of_int 0 in
  let output_path := joinpath dir (lit "concatenated.wav") in
  let cmd := concat_cmd (segment_paths dir 0 audio_segments) output_path in
  let writes := segment_writes dir 0 audio_segments in
  let run := concatenate_audio_segments audio_segments (lit "wav") Scripted.start in
  exists mid,
    trace (snd run) = trace Scripted.start ++ [EvTempDir] ++ mid ++ [EvTempDirCleanup dir]
    /\ ((exists k, (k <= length audio_segments)%nat /\ mid = firstn k writes)
        \/ mid = writes ++ [EvRun cmd]
        \/ mid = writes ++ [EvRun cmd; EvReadBytes output_path])
    /\ (forall out, fst run = Ok out ->
        mid = writes ++ [EvRun cmd; EvReadBytes output_path]).
Proof.
  apply (@combiner_cleans_up_on_every_path _ Scripted.env
           [Scripted.clip; Scripted.hush] (lit "wav") Scripted.start
           (lit "/tmp/t" ++ str_of_int 0) 1%nat).
  - simpl. lia.
  - reflexivity.
Defined.

Lemma loop_synthesizes_each_story_once_witness :
  let stories := WrittenStories.stories Scripted.some_written in
  exists new,
    trace (snd (synthesize_segments (lit "k") 3 0 stories [] Scripted.start))
    = trace Scripted.start ++ new
    /\ filter is_post new
       = flat_map (fun story =>
           tts_events (lit "k") (_story_tts_transcript (WrittenStory.headline story)
                                                       (WrittenStory.story story)))
           stories
    /\ length (filter is_run new) = 2%nat
    /\ length [Scripted.clip; Scripted.hush; Scripted.clip; Scripted.hush; Scripted.clip]
       = 5%nat.
Proof.
  apply (@loop_synthesizes_each_story_once _ Scripted.env (lit "k") Scripted.some_written
           Scripted.start
           (snd (synthesize_segments (lit "k") 3 0
                   (WrittenStories.stories Scripted.some_written) [] Scripted.start))
           [Scripted.clip; Scripted.hush; Scripted.clip; Scripted.hush; Scripted.clip]).
  vm_compute. reflexivity.
Defined.

Lemma audio_stage_uploads_at_most_once_witness :
  audio_stage (lit "k") (lit "audio") (lit "zone") (lit "key") (lit "de") (lit "output/run")
    (WrittenStories.make (lit "reefs") []) Scripted.start
  = (Ok None, Scripted.start).
Proof.
  apply (proj2 (proj2 (@audio_stage_uploads_at_most_once _ Scripted.env (lit "k")
                         (lit "audio") (lit "zone") (lit "key") (lit "de")
                         (lit "output/run") (WrittenStories.make (lit "reefs") [])
                         Scripted.start))).
  reflexivity.
Defined.

Lemma sprite_verdict_of_output_witness :
  sprite_verdict 1 (scan_output true sprite_lines)
  = inl (lit "Sprite run failed. Ensure Node dependencies are installed with `npm install` and check token/repo settings."
         ++ [linefeed] ++ join [linefeed] (last_n 20 (log_lines sprite_lines))).
Proof.
  apply (proj1 (sprite_verdict_of_output 1 true sprite_lines)). discriminate.
Defined.

Lemma env_line_tells_value_witness : lit "paig_k" = lit "paig_k".
Proof.
  apply (@env_line_tells_value (lit "KEY") (lit "paig_k") (lit "paig_k")). reflexivity.
Defined.

Lemma save_env_var_appends_witness :
  _save_env_var (lit "B") (lit "2") (Some (lit "A=1"))
  = lit "A=1"
    ++ (if str_eqb (lit "A=1") [] || endswith [linefeed] (lit "A=1")
        then [] else [linefeed])
    ++ env_line (lit "B") (lit "2").
Proof.
  apply (@save_env_var_appends (lit "B") (lit "2") (lit "A=1")).
  vm_compute. repeat constructor.
Defined.

Lemma save_env_var_replaces_witness :
  let text := lit "X=0" ++ [linefeed] ++ lit "A=1" ++ [linefeed] ++ lit "A=3" in
  text = concat [lit "X=0" ++ [linefeed]] ++ (lit "A=1" ++ [linefeed])
         ++ concat [lit "A=3"]
  /\ _save_env_var (lit "A") (lit "2") (Some text)
     = concat [lit "X=0" ++ [linefeed]] ++ env_line (lit "A") (lit "2")
       ++ concat (filter (not_key_line (lit "A")) [lit "A=3"]).
Proof.
  apply (@save_env_var_replaces (lit "A") (lit "2")
           (lit "X=0" ++ [linefeed] ++ lit "A=1" ++ [linefeed] ++ lit "A=3")
           [lit "X=0" ++ [linefeed]] [lit "A=3"] (lit "A=1" ++ [linefeed])).
  - reflexivity.
  - repeat constructor.
  - reflexivity.
Defined.


End Instances.
